(** * KAPPA: the custom-app lookup of [helpers/utils.py]

    A shallow embedding of [_find_lib_item_match] and
    [_find_lib_item_dynamic] (class [Utilities], helpers/utils.py) and of the
    two callers in KAPPA.py that decide between creating and updating a
    custom app, together with the library routines they rely on:
    [re.sub], [difflib.SequenceMatcher.ratio], [packaging.version.parse],
    [datetime.strptime], [sorted], [min] and [dict].

    Python [str] values are lists of characters; a character is a code point
    below 256.  Exceptions are values of an error monad.

    Around the lookup: the settings that [helpers/configs.py] derives for a
    run (enforcement, Self Service categories, names of the custom apps),
    the lookup of a token, the customization of the audit script, and the
    loop of [main] over the names with what it sends and what it does to
    the audit script. *)

From Stdlib Require Import String Ascii.
From Stdlib Require Import List Bool Arith PeanoNat NArith ZArith QArith.
From Stdlib Require Import Lia Permutation Sorted.
From Stdlib Require Import DecimalString.
Import ListNotations.

Local Open Scope nat_scope.
Local Open Scope list_scope.

(* ===================================================================== *)
(** * Python strings *)
(* ===================================================================== *)

Module PyStr.

Definition str := list ascii.

(** A string literal. *)
Definition lit (s : string) : str := list_ascii_of_string s.

Definition code (c : ascii) : nat := nat_of_ascii c.

Definition chr_eqb (c d : ascii) : bool := Ascii.eqb c d.

(** [a == b] on strings. *)
Fixpoint str_eqb (a b : str) : bool :=
  match a, b with
  | [], [] => true
  | c :: a', d :: b' => chr_eqb c d && str_eqb a' b'
  | _, _ => false
  end.

(** [s.startswith(p)]. *)
Fixpoint startswith (p s : str) : bool :=
  match p, s with
  | [], _ => true
  | c :: p', d :: s' => chr_eqb c d && startswith p' s'
  | _ :: _, [] => false
  end.

(** [s.endswith(p)]. *)
Definition endswith (p s : str) : bool := startswith (rev p) (rev s).

(** [sub in s]: [sub] occurs in [s] as a contiguous substring. *)
Fixpoint contains (sub s : str) : bool :=
  startswith sub s ||
  match s with
  | [] => false
  | _ :: s' => contains sub s'
  end.

(** The characters of [s] up to, not including, the first [c]. *)
Fixpoint take_until (c : ascii) (s : str) : str :=
  match s with
  | [] => []
  | d :: s' => if chr_eqb d c then [] else d :: take_until c s'
  end.

(** [os.path.basename(p)] (posixpath): what follows the last slash. *)
Definition basename (p : str) : str := rev (take_until "/"%char (rev p)).

(** [s.replace(old, new)] for a one-character [old]. *)
Fixpoint replace_chr (old : ascii) (new : str) (s : str) : str :=
  match s with
  | [] => []
  | c :: s' => (if chr_eqb c old then new else [c]) ++ replace_chr old new s'
  end.

(** [''.join(parts)]. *)
Definition join_empty (parts : list str) : str := concat parts.

Definition is_digit (c : ascii) : bool := (48 <=? code c) && (code c <=? 57).

(** The value of a decimal digit character. *)
Definition digit_val (c : ascii) : N := N.of_nat (code c - 48).

Definition between (lo hi n : nat) : bool := (lo <=? n) && (n <=? hi).

(** The class [\w] of a [str] pattern: [[a-zA-Z0-9_]] and every other
    character for which [str.isalnum()] holds; below 256 these are the
    Latin-1 letters, the superscript digits and the vulgar fractions. *)
Definition is_word (c : ascii) : bool :=
  let n := code c in
  between 48 57 n || between 65 90 n || (n =? 95) || between 97 122 n
  || (n =? 170) || (n =? 178) || (n =? 179) || (n =? 181) || (n =? 185)
  || (n =? 186) || between 188 190 n || between 192 214 n
  || between 216 246 n || between 248 255 n.

Definition newline : ascii := ascii_of_nat 10.
Definition dot : ascii := "."%char.
Definition space : ascii := " "%char.
Definition underscore : ascii := "_"%char.
Definition quote : ascii := "'"%char.

End PyStr.
Import PyStr.

(* ===================================================================== *)
(** * [re.sub] for the patterns of [re_replacements] *)
(* ===================================================================== *)

Module Re.

(** A compiled pattern, as [re.sub] uses it: asked at one position of the
    subject, it answers with the length of the match that starts there.
    The first argument tells whether the position is the start of the
    subject (for [^]), the second is the subject from that position on.
    None of the patterns below matches the empty string. *)
Definition pattern := bool -> str -> option nat.

(** [re.sub(pattern, repl, s)]: scan from the left; where the pattern
    matches, emit [repl] and resume after the match; elsewhere copy one
    character.  [skip] counts the characters of the current match that are
    still to be passed over. *)
Fixpoint sub_from (p : pattern) (repl : str) (skip : nat) (at_start : bool)
    (s : str) : str :=
  match s with
  | [] => []
  | c :: s' =>
      match skip with
      | S k => sub_from p repl k false s'
      | 0 =>
          match p at_start s with
          | Some (S n) => repl ++ sub_from p repl n false s'
          | _ => c :: sub_from p repl 0 false s'
          end
      end
  end.

Definition sub (p : pattern) (repl : str) (s : str) : str :=
  sub_from p repl 0 true s.

(** The look-ahead [(?=.pkg)]: any character but a newline, then [pkg]. *)
Definition lookahead_any_pkg (s : str) : bool :=
  match s with
  | d :: p :: k :: g :: _ =>
      negb (chr_eqb d newline) && chr_eqb p "p"%char && chr_eqb k "k"%char
      && chr_eqb g "g"%char
  | _ => false
  end.

(** [r"_\w{8}(?=.pkg)"]. *)
Definition pat_upload_id : pattern := fun _ s =>
  match s with
  | c :: rest =>
      if chr_eqb c underscore
         && (length (firstn 8 rest) =? 8)
         && forallb is_word (firstn 8 rest)
         && lookahead_any_pkg (skipn 8 rest)
      then Some 9 else None
  | [] => None
  end.

(** [r"[ ]"]. *)
Definition pat_space : pattern := fun _ s =>
  match s with
  | c :: _ => if chr_eqb c space then Some 1 else None
  | [] => None
  end.

(** ["[^0-9\\.]"]: one character that is neither a digit nor a dot. *)
Definition pat_not_digit_dot : pattern := fun _ s =>
  match s with
  | c :: _ => if is_digit c || chr_eqb c dot then None else Some 1
  | [] => None
  end.

(** The number of dots [s] starts with. *)
Fixpoint leading_dots (s : str) : nat :=
  match s with
  | c :: s' => if chr_eqb c dot then S (leading_dots s') else 0
  | [] => 0
  end.

(** [r"[.]{2,}"]: a greedy run of at least two dots. *)
Definition pat_dots : pattern := fun _ s =>
  let n := leading_dots s in
  if 2 <=? n then Some n else None.

(** [$] without [re.MULTILINE]: the end of the subject, or the position
    before a newline that ends the subject. *)
Definition at_end (s : str) : bool :=
  match s with
  | [] => true
  | [c] => chr_eqb c newline
  | _ => false
  end.

(** [r"^\.|\.$"]. *)
Definition pat_edge_dot : pattern := fun at_start s =>
  match s with
  | c :: s' =>
      if chr_eqb c dot && (at_start || at_end s') then Some 1 else None
  | [] => None
  end.

End Re.

(* ===================================================================== *)
(** * The version sanitizer of [_find_lib_item_dynamic] *)
(* ===================================================================== *)

Module Sanitizer.

(** [re_replacements], in the insertion order of the dictionary:
    [{r"_\w{8}(?=.pkg)": '', r"[ ]": ".", "[^0-9\\.]": '',
      r"[.]{2,}": ".", r"^\.|\.$": ''}]. *)
Definition re_replacements : list (Re.pattern * str) :=
  [ (Re.pat_upload_id, []);
    (Re.pat_space, [dot]);
    (Re.pat_not_digit_dot, []);
    (Re.pat_dots, [dot]);
    (Re.pat_edge_dot, []) ].

(** [reduce(lambda parsed_vers, match_replace:
             re.sub( *match_replace, parsed_vers),
           re_replacements.items(), maybepkg)]. *)
Definition sanitize (maybepkg : str) : str :=
  fold_left (fun parsed_vers match_replace =>
               Re.sub (fst match_replace) (snd match_replace) parsed_vers)
            re_replacements maybepkg.

(** [re.sub(r"_\w{8}(?=.pkg)", '', pkg)], the name that is scored. *)
Definition strip_upload_id (pkg : str) : str := Re.sub Re.pat_upload_id [] pkg.

(** ** The five steps, as the specification words them *)

(** (2) replace spaces with a dot. *)
Definition spaces_to_dots (s : str) : str :=
  map (fun c => if chr_eqb c space then dot else c) s.

(** (3) remove every character that is not a digit or a dot. *)
Definition keep_digits_dots (s : str) : str :=
  filter (fun c => is_digit c || chr_eqb c dot) s.

(** (4) collapse each run of two or more dots into one. *)
Fixpoint collapse_dots (s : str) : str :=
  match s with
  | [] => []
  | c :: s' =>
      match s' with
      | d :: _ =>
          if chr_eqb c dot && chr_eqb d dot then collapse_dots s'
          else c :: collapse_dots s'
      | [] => [c]
      end
  end.

Definition strip_leading_dot (s : str) : str :=
  match s with
  | c :: s' => if chr_eqb c dot then s' else s
  | [] => []
  end.

Definition strip_trailing_dot (s : str) : str :=
  rev (strip_leading_dot (rev s)).

(** (5) strip a leading or trailing dot. *)
Definition strip_edge_dots (s : str) : str :=
  strip_trailing_dot (strip_leading_dot s).

(** ** The shape of a sanitized version *)

Definition digit_or_dot (c : ascii) : bool := is_digit c || chr_eqb c dot.

Fixpoint no_double_dot (s : str) : bool :=
  match s with
  | [] => true
  | c :: s' =>
      match s' with
      | d :: _ => negb (chr_eqb c dot && chr_eqb d dot) && no_double_dot s'
      | [] => true
      end
  end.

Definition no_leading_dot (s : str) : bool :=
  match s with
  | c :: _ => negb (chr_eqb c dot)
  | [] => true
  end.

Fixpoint last_dot (s : str) : bool :=
  match s with
  | [] => false
  | c :: s' =>
      match s' with
      | [] => chr_eqb c dot
      | _ :: _ => last_dot s'
      end
  end.

(** Digits and single dots, with no dot at either end: the empty string,
    or groups of digits separated by one dot each. *)
Definition well_shaped (s : str) : bool :=
  forallb digit_or_dot s && no_double_dot s && no_leading_dot s
  && negb (last_dot s).

(** The pipeline of section 4.2, each step on the output of the one
    before. *)
Definition sanitize_spec (s : str) : str :=
  strip_edge_dots
    (collapse_dots (keep_digits_dots (spaces_to_dots (strip_upload_id s)))).

End Sanitizer.

(* ===================================================================== *)
(** * [difflib.SequenceMatcher(None, a, b).ratio()] *)
(* ===================================================================== *)

Module Difflib.

(** A matching block [(i, j, k)]: [a[i:i+k] == b[j:j+k]]. *)
Definition block := (nat * nat * nat)%type.

Section SequenceMatcher.

(** [SequenceMatcher(None, a, b)]: no junk predicate, [autojunk] on. *)
Variables a b : str.

Definition chr_at (s : str) (i : nat) : ascii := nth i s Ascii.zero.

Definition count_chr (c : ascii) (s : str) : nat :=
  length (filter (chr_eqb c) s).

(** The positions of [c] in [s], counted from [i], in increasing order. *)
Fixpoint indices_from (c : ascii) (i : nat) (s : str) : list nat :=
  match s with
  | [] => []
  | d :: s' =>
      if chr_eqb d c then i :: indices_from c (S i) s'
      else indices_from c (S i) s'
  end.

(** [__chain_b]: with [len(b) >= 200], an element that occurs more than
    [len(b) // 100 + 1] times is popular and loses its entry in [b2j]. *)
Definition popular (c : ascii) : bool :=
  (200 <=? length b) && (length b / 100 + 1 <? count_chr c b).

(** [b2j.get(c, [])]. *)
Definition b2j (c : ascii) : list nat :=
  if popular c then [] else indices_from c 0 b.

(** [j2len.get(j-1, 0)], for a dictionary read as a function that is 0
    off its keys. *)
Definition j2len_prev (j2len : nat -> nat) (j : nat) : nat :=
  match j with
  | 0 => 0
  | S j' => j2len j'
  end.

(** The loop [for j in b2j.get(a[i], nothing)] of [find_longest_match]. *)
Fixpoint scan_row (blo bhi i : nat) (j2len : nat -> nat) (js : list nat)
    (newj2len : nat -> nat) (best : block) : (nat -> nat) * block :=
  match js with
  | [] => (newj2len, best)
  | j :: js' =>
      if j <? blo then scan_row blo bhi i j2len js' newj2len best
      else if bhi <=? j then (newj2len, best)
      else
        let k := j2len_prev j2len j + 1 in
        let newj2len' := fun x => if x =? j then k else newj2len x in
        let '(besti, bestj, bestsize) := best in
        let best' :=
          if bestsize <? k then (i + 1 - k, j + 1 - k, k) else best in
        scan_row blo bhi i j2len js' newj2len' best'
  end.

(** The loop [for i in range(alo, ahi)]. *)
Fixpoint scan_rows (blo bhi : nat) (rows : list nat) (j2len : nat -> nat)
    (best : block) : block :=
  match rows with
  | [] => best
  | i :: rows' =>
      let '(newj2len, best') :=
        scan_row blo bhi i j2len (b2j (chr_at a i)) (fun _ => 0) best in
      scan_rows blo bhi rows' newj2len best'
  end.

(** [while besti > alo and bestj > blo and a[besti-1] == b[bestj-1]]
    ([bjunk] is empty, so [isbjunk] never holds). *)
Fixpoint extend_left (alo blo besti bestj bestsize : nat) : block :=
  match besti with
  | 0 => (besti, bestj, bestsize)
  | S besti' =>
      if (alo <? besti) && (blo <? bestj)
         && chr_eqb (chr_at a besti') (chr_at b (bestj - 1))
      then extend_left alo blo besti' (bestj - 1) (bestsize + 1)
      else (besti, bestj, bestsize)
  end.

(** [while besti+bestsize < ahi and bestj+bestsize < bhi and
    a[besti+bestsize] == b[bestj+bestsize]]; [room] is
    [ahi - (besti + bestsize)], which bounds the number of rounds. *)
Fixpoint extend_right (room ahi bhi besti bestj bestsize : nat) : nat :=
  match room with
  | 0 => bestsize
  | S room' =>
      if (besti + bestsize <? ahi) && (bestj + bestsize <? bhi)
         && chr_eqb (chr_at a (besti + bestsize)) (chr_at b (bestj + bestsize))
      then extend_right room' ahi bhi besti bestj (bestsize + 1)
      else bestsize
  end.

(** [find_longest_match(alo, ahi, blo, bhi)].  The two loops over junk
    that end the Python function never run, [bjunk] being empty. *)
Definition find_longest_match (alo ahi blo bhi : nat) : block :=
  let '(besti, bestj, bestsize) :=
    scan_rows blo bhi (seq alo (ahi - alo)) (fun _ => 0) (alo, blo, 0) in
  let '(besti, bestj, bestsize) :=
    extend_left alo blo besti bestj bestsize in
  (besti, bestj,
   extend_right (ahi - (besti + bestsize)) ahi bhi besti bestj bestsize).

(** The work list of [get_matching_blocks]: the block found in a window,
    then the blocks of the window to its right (pushed last, popped
    first), then those of the window to its left.  [depth] bounds the
    nesting of windows; a window inside another is shorter by at least
    one element of [a], so that a depth above the length of the window is
    never used up ([matching_blocks_depth] below). *)
Fixpoint matching_blocks (depth : nat) (alo ahi blo bhi : nat) : list block :=
  match depth with
  | 0 => []
  | S depth' =>
      let '(i, j, k) := find_longest_match alo ahi blo bhi in
      if k =? 0 then []
      else
        (i, j, k)
        :: (if (i + k <? ahi) && (j + k <? bhi)
            then matching_blocks depth' (i + k) ahi (j + k) bhi else [])
        ++ (if (alo <? i) && (blo <? j)
            then matching_blocks depth' alo i blo j else [])
  end.

(** [get_matching_blocks()], before the blocks are sorted and adjacent
    ones merged: [ratio] reads the sum of the sizes only, which neither
    changes. *)
Definition get_matching_blocks : list block :=
  matching_blocks (S (length a)) 0 (length a) 0 (length b).

Definition matches : nat :=
  fold_right (fun blk acc => snd blk + acc) 0 get_matching_blocks.

(** [_calculate_ratio(matches, len(a) + len(b))]:
    [2.0 * matches / length] if [length] else [1.0].  The quotient is
    kept exact; the float is its rounding to nearest, which is monotone,
    and two distinct quotients of this form differ by at least
    [1 / length^2], so that the order and the equality of two scores,
    and their comparison with 0.85, are those of the floats for every
    pair of strings shorter than 2^25 characters. *)
Definition ratio : Q :=
  let length := length a + length b in
  if length =? 0 then 1%Q
  else (Z.of_nat (2 * matches) # Pos.of_nat length)%Q.

(** [b[j]] has an entry in [b2j]. *)
Definition live (j : nat) : bool :=
  (j <? length b) && negb (popular (chr_at b j)).

(** The length of the longest stretch of [b] that ends with [b[j]] and
    whose elements all have an entry in [b2j]. *)
Fixpoint run (j : nat) : nat :=
  match j with
  | 0 => if live 0 then 1 else 0
  | S j' => if live j then S (run j') else 0
  end.

(** What holds of the best block and of [j2len] before row [i]. *)
Definition rows_inv (i : nat) (j2len : nat -> nat) (best : block) : Prop :=
  let '(besti, bestj, bestsize) := best in
  besti = bestj /\ besti + bestsize <= i /\
  (forall j', j' < i -> run j' <= bestsize) /\
  (forall j, j2len j <= run j) /\
  (forall j, j2len j <= j2len_prev (run) i) /\
  j2len_prev j2len i = j2len_prev (run) i.

(** What holds inside row [i], with [js] still to be read. *)
Definition row_inv (i : nat) (js : list nat) (newj2len : nat -> nat)
    (best : block) : Prop :=
  let '(besti, bestj, bestsize) := best in
  besti = bestj /\ besti + bestsize <= S i /\
  (forall j', j' < i -> run j' <= bestsize) /\
  (forall j, newj2len j <= run j) /\
  (forall j, newj2len j <= run i) /\
  ((In i js /\ StronglySorted lt js) \/
   (newj2len i = run i /\ run i <= bestsize)).

End SequenceMatcher.

End Difflib.

(* ===================================================================== *)
(** * Python values: exceptions, [sorted], [dict], [min] *)
(* ===================================================================== *)

Module Py.

(** The exceptions the lookup can raise. *)
Inductive exn : Set := ValueError | StopIteration.

Inductive result (A : Type) : Type :=
| Ok (a : A)
| Raise (e : exn).
Arguments Ok {A} a.
Arguments Raise {A} e.

Definition bind {A B : Type} (c : result A) (k : A -> result B) : result B :=
  match c with
  | Ok a => k a
  | Raise e => Raise e
  end.

(** [[f(x) for x in l]] for an [f] that may raise. *)
Fixpoint mapM {A B : Type} (f : A -> result B) (l : list A) : result (list B) :=
  match l with
  | [] => Ok []
  | x :: l' =>
      bind (f x) (fun y => bind (mapM f l') (fun ys => Ok (y :: ys)))
  end.

Section Sorted.

Context {A K : Type}.
Variable key : A -> K.
(** [k1 < k2] on keys. *)
Variable lt : K -> K -> bool.

(** Put [x], which stood before every element of [l] in the input, into
    the descending list [l]: behind the elements with a greater key, in
    front of those with an equal or a smaller one. *)
Fixpoint insert_reverse (x : A) (l : list A) : list A :=
  match l with
  | [] => [x]
  | y :: l' =>
      if lt (key x) (key y) then y :: insert_reverse x l'
      else x :: y :: l'
  end.

(** [sorted(l, key=key, reverse=True)]: descending by key, elements with
    equal keys in their original order. *)
Definition sorted_reverse (l : list A) : list A :=
  fold_right insert_reverse [] l.

(** [x] does not sort below [y]. *)
Definition not_below (x y : A) : Prop := lt (key x) (key y) = false.

(** [x] has the rank of [k]: neither key is below the other. *)
Definition same_key (k : K) (x : A) : bool :=
  negb (lt (key x) k) && negb (lt k (key x)).

(** The scan of [min(l, key=key)] after its first element: a later
    element replaces the candidate only when its key is smaller. *)
Fixpoint min_from (best : A) (l : list A) : A :=
  match l with
  | [] => best
  | x :: l' => if lt (key x) (key best) then min_from x l' else min_from best l'
  end.

(** [min(l, key=key)]; [ValueError] on an empty sequence. *)
Definition min_by (l : list A) : result A :=
  match l with
  | [] => Raise ValueError
  | x :: l' => Ok (min_from x l')
  end.

End Sorted.

Section Dict.

Context {V : Type}.

(** A [dict] with [str] keys: its items in insertion order, each key
    once. *)
Definition dict := list (str * V).

Fixpoint dict_get (d : dict) (k : str) : option V :=
  match d with
  | [] => None
  | (k', v) :: d' => if str_eqb k' k then Some v else dict_get d' k
  end.

(** [d[k] = v]: a known key keeps its place, a new one goes last. *)
Fixpoint dict_set (d : dict) (k : str) (v : V) : dict :=
  match d with
  | [] => [(k, v)]
  | (k', v') :: d' =>
      if str_eqb k' k then (k', v) :: d' else (k', v') :: dict_set d' k v
  end.

(** [dict(items)]. *)
Definition dict_of_items (items : list (str * V)) : dict :=
  fold_left (fun d kv => dict_set d (fst kv) (snd kv)) items [].

Definition keys (d : dict) : list str := map fst d.

End Dict.
Arguments dict V : clear implicits.

End Py.
Import Py.

(* ===================================================================== *)
(** * [packaging.version.parse] and the order of versions *)
(* ===================================================================== *)

Module Packaging.

Inductive version : Type :=
| LegacyVersion (s : str)
| Version (release : list N).

(** A full match of [[0-9]+(\.[0-9]+)*] and the integers of its groups;
    [cur] is the group being read. *)
Fixpoint parse_release (cur : option N) (s : str) : option (list N) :=
  match s with
  | [] =>
      match cur with
      | Some n => Some [n]
      | None => None
      end
  | c :: s' =>
      if is_digit c then
        parse_release
          (Some (10 * match cur with Some n => n | None => 0 end + digit_val c)%N) s'
      else if chr_eqb c dot then
        match cur with
        | Some n => option_map (cons n) (parse_release None s')
        | None => None
        end
      else None
  end.

(** Modelled from the spec: [packaging_version.parse], which is pip's
    vendored [packaging] and not part of the repository.  Section 4.3: a
    version is read as numeric dot-separated components; a non-numeric or
    empty string is no error and sorts as the lowest possible version.
    This is what [packaging] up to release 21.3 does, where a string that
    is no PEP 440 version becomes a [LegacyVersion].  The strings that
    reach [parse] are sanitized ones, made of digits and dots, on which a
    PEP 440 version is a release segment and nothing else.  The integers
    of a release are unbounded. *)
Definition parse (v : str) : version :=
  match parse_release None v with
  | Some release => Version release
  | None => LegacyVersion v
  end.

Fixpoint dropwhile {A : Type} (f : A -> bool) (l : list A) : list A :=
  match l with
  | [] => []
  | x :: l' => if f x then dropwhile f l' else l
  end.

(** The release part of [_cmpkey]:
    [tuple(reversed(list(dropwhile(lambda x: x == 0, reversed(release)))))]. *)
Definition release_key (release : list N) : list N :=
  rev (dropwhile (N.eqb 0) (rev release)).

(** The order of two tuples of integers. *)
Fixpoint tuple_compare (x y : list N) : comparison :=
  match x, y with
  | [], [] => Eq
  | [], _ :: _ => Lt
  | _ :: _, [] => Gt
  | n :: x', m :: y' =>
      match N.compare n m with
      | Eq => tuple_compare x' y'
      | o => o
      end
  end.

(** Modelled from the spec: the order [sorted] reads through [<] on the
    parsed versions.  Two releases compare by their keys; a
    [LegacyVersion] is below every [Version], and two of them are both the
    lowest possible version. *)
Definition compare (v w : version) : comparison :=
  match v, w with
  | LegacyVersion _, LegacyVersion _ => Eq
  | LegacyVersion _, Version _ => Lt
  | Version _, LegacyVersion _ => Gt
  | Version r1, Version r2 => tuple_compare (release_key r1) (release_key r2)
  end.

Definition ltb (v w : version) : bool :=
  match compare v w with
  | Lt => true
  | _ => false
  end.

(** The order of a tuple of zeros and [y]. *)
Fixpoint zeros_compare (y : list N) : comparison :=
  match y with
  | [] => Eq
  | m :: y' =>
      match N.compare 0 m with
      | Eq => zeros_compare y'
      | o => o
      end
  end.

(** Semantic-version comparison as section 4.3 words it: component by
    component as numbers, a missing component counting as 0. *)
Fixpoint semver_compare (x y : list N) : comparison :=
  match x, y with
  | [], _ => zeros_compare y
  | _ :: _, [] => CompOpp (zeros_compare x)
  | n :: x', m :: y' =>
      match N.compare n m with
      | Eq => semver_compare x' y'
      | o => o
      end
  end.

End Packaging.

(* ===================================================================== *)
(** * [datetime.strptime] for the two timestamp formats *)
(* ===================================================================== *)

Module Datetime.

Record datetime : Set := mk_datetime {
  year : N; month : N; day : N;
  hour : N; minute : N; second : N; microsecond : N
}.

(** The directives and literal characters of a format string. *)
Inductive item : Set :=
| Lit (c : ascii)
| DY | Dm | Dd | DH | DM | DS | Df.

(** ["%Y-%m-%dT%H:%M:%S.%fZ"]. *)
Definition fmt_fraction : list item :=
  [DY; Lit "-"; Dm; Lit "-"; Dd; Lit "T"; DH; Lit ":"; DM; Lit ":"; DS;
   Lit "."; Df; Lit "Z"]%char.

(** ["%Y-%m-%dT%H:%M:%SZ"]. *)
Definition fmt_seconds : list item :=
  [DY; Lit "-"; Dm; Lit "-"; Dd; Lit "T"; DH; Lit ":"; DM; Lit ":"; DS;
   Lit "Z"]%char.

Definition chr (c : ascii) : ascii -> bool := fun x => chr_eqb x c.
Definition range (lo hi : ascii) : ascii -> bool :=
  fun x => between (code lo) (code hi) (code x).
Definition digit : ascii -> bool := is_digit.

(** A literal of the format under [re.IGNORECASE]. *)
Definition lit_class (c : ascii) : ascii -> bool :=
  fun x =>
    chr_eqb x c
    || (between 65 90 (code c) && (code x =? code c + 32))
    || (between 97 122 (code c) && (code x + 32 =? code c)).

(** The alternatives of the regular expression [_strptime] builds for a
    directive, in the order they are tried; an alternative is a sequence
    of character classes. *)
Definition alternatives (it : item) : list (list (ascii -> bool)) :=
  match it with
  | Lit c => [[lit_class c]]
  | DY => [[digit; digit; digit; digit]]
  | Dm => [[chr "1"; range "0" "2"]; [chr "0"; range "1" "9"]; [range "1" "9"]]
  | Dd => [[chr "3"; range "0" "1"]; [range "1" "2"; digit];
           [chr "0"; range "1" "9"]; [range "1" "9"]; [chr " "; range "1" "9"]]
  | DH => [[chr "2"; range "0" "3"]; [range "0" "1"; digit]; [digit]]
  | DM => [[range "0" "5"; digit]; [digit]]
  | DS => [[chr "6"; range "0" "1"]; [range "0" "5"; digit]; [digit]]
  | Df => [repeat (range "0" "9") 6; repeat (range "0" "9") 5;
           repeat (range "0" "9") 4; repeat (range "0" "9") 3;
           repeat (range "0" "9") 2; repeat (range "0" "9") 1]
  end%char.

(** One alternative against the head of [s]: the text it takes, and the
    rest. *)
Fixpoint classes (cs : list (ascii -> bool)) (s : str) : option (str * str) :=
  match cs with
  | [] => Some ([], s)
  | f :: cs' =>
      match s with
      | c :: s' =>
          if f c then
            match classes cs' s' with
            | Some (m, r) => Some (c :: m, r)
            | None => None
            end
          else None
      | [] => None
      end
  end.

Definition is_directive (it : item) : bool :=
  match it with
  | Lit _ => false
  | _ => true
  end.

(** [format_regex.match(data_string)] with backtracking: every way to
    match the format at the head of [s], in the order of the search; each
    with the texts of its groups and the unread rest. *)
Fixpoint match_format (fmt : list item) (s : str) : list (list str * str) :=
  match fmt with
  | [] => [([], s)]
  | it :: fmt' =>
      flat_map
        (fun cs =>
           match classes cs s with
           | Some (m, r) =>
               map (fun gr => ((if is_directive it then m :: fst gr else fst gr),
                               snd gr))
                   (match_format fmt' r)
           | None => []
           end)
        (alternatives it)
  end.

(** [int(s)] for the text of a group: digits, after an optional blank. *)
Definition int_of (s : str) : N :=
  fold_left (fun n c => (10 * n + digit_val c)%N) (filter is_digit s) 0%N.

(** The text of [%f], padded with zeros on the right to six digits. *)
Definition fraction_of (s : str) : N :=
  int_of (s ++ repeat "0"%char (6 - length s)).

Definition is_leap (y : N) : bool :=
  ((y mod 4 =? 0) && (negb (y mod 100 =? 0) || (y mod 400 =? 0)))%N.

Definition days_in_month (y m : N) : N :=
  (if m =? 2 then (if is_leap y then 29 else 28)
   else if (m =? 4) || (m =? 6) || (m =? 9) || (m =? 11) then 30
   else 31)%N.

(** The checks of the [date] and [datetime] constructors that the regular
    expression leaves open. *)
Definition valid (dt : datetime) : bool :=
  ((1 <=? year dt) && (1 <=? month dt) && (month dt <=? 12)
   && (1 <=? day dt) && (day dt <=? days_in_month (year dt) (month dt))
   && (second dt <=? 59))%N.

Definition of_groups (groups : list str) : option datetime :=
  match groups with
  | [gY; gm; gd; gH; gM; gS] =>
      Some (mk_datetime (int_of gY) (int_of gm) (int_of gd)
                        (int_of gH) (int_of gM) (int_of gS) 0)
  | [gY; gm; gd; gH; gM; gS; gf] =>
      Some (mk_datetime (int_of gY) (int_of gm) (int_of gd)
                        (int_of gH) (int_of gM) (int_of gS) (fraction_of gf))
  | _ => None
  end.

(** [datetime.strptime(data_string, format)]: the first match of the
    format must reach the end of the string, and its fields must make a
    date; otherwise [ValueError]. *)
Definition strptime (data_string : str) (format : list item) : result datetime :=
  match match_format format data_string with
  | [] => Raise ValueError
  | (groups, rest) :: _ =>
      match rest with
      | _ :: _ => Raise ValueError
      | [] =>
          match of_groups groups with
          | Some dt => if valid dt then Ok dt else Raise ValueError
          | None => Raise ValueError
          end
      end
  end.

(** [date.toordinal()]: days since 0001-01-01, that day being 1. *)
Definition days_before_year (y : N) : N :=
  let y1 := (y - 1)%N in (y1 * 365 + y1 / 4 - y1 / 100 + y1 / 400)%N.

Fixpoint days_before_month_from (y : N) (m : nat) : N :=
  match m with
  | 0 => 0%N
  | S m' => (days_before_month_from y m' + days_in_month y (N.of_nat m))%N
  end.

Definition toordinal (dt : datetime) : N :=
  (days_before_year (year dt)
   + days_before_month_from (year dt) (N.to_nat (month dt) - 1)
   + day dt)%N.

(** [dt.astimezone()] of a naive [dt], as the instant it stands for, in
    microseconds: the local zone is taken to be at a fixed offset from
    UTC, which is left out, being the same for all timestamps. *)
Definition astimezone (dt : datetime) : Z :=
  Z.of_N
    ((((toordinal dt * 24 + hour dt) * 60 + minute dt) * 60 + second dt)
     * 1000000 + microsecond dt)%N.

End Datetime.

(* ===================================================================== *)
(** * The custom-app lookup *)
(* ===================================================================== *)

Module Kappa.

(** One element of [self.custom_apps], the [results] of the custom-apps
    listing, with the fields the lookup reads.  Every field is present;
    [self_service_category_id] may be null. *)
Record custom_app : Set := mk_custom_app {
  id : str;
  name : str;
  file_key : str;
  install_enforcement : str;
  show_in_self_service : bool;
  self_service_category_id : option str;
  created_at : str;
  updated_at : str;
  file_updated : str
}.

(** The attributes of the processor ([self]) that the lookup reads.  A
    policy flag is [true] when the configured value [is True]. *)
Record processor : Set := mk_processor {
  custom_apps : list custom_app;
  custom_app_name : str;
  pkg_name : str;
  default_auto_create : bool;
  default_dynamic_lookup : bool;
  ss_category_id : option str;
  custom_app_enforcement : str;
  recipe_create_new : bool
}.

(** What the Slack message on duplicates says of one custom app:
    its id (for the link), the time it was created, the name of its
    package and the time of its upload. *)
Record duplicate : Set := mk_duplicate {
  dup_id : str;
  dup_created : Datetime.datetime;
  dup_pkg : str;
  dup_uploaded : str
}.

(** What [_find_lib_item_match] and [_find_lib_item_dynamic] return: a
    custom app, [False], or [None] after the duplicates were reported. *)
Inductive lookup : Set :=
| Found (app : custom_app)
| ReturnFalse
| ReturnNone (reported : list duplicate).

(** [parse_dt]: the format with a fraction of a second, and on
    [ValueError] the one without. *)
Definition parse_dt (dt_str : str) : result Z :=
  match Datetime.strptime dt_str Datetime.fmt_fraction with
  | Ok dt => Ok (Datetime.astimezone dt)
  | Raise ValueError =>
      bind (Datetime.strptime dt_str Datetime.fmt_seconds)
           (fun dt => Ok (Datetime.astimezone dt))
  | Raise e => Raise e
  end.

Definition dot_pkg : str := lit ".pkg".

(** [[os.path.basename(app.get("file_key")) for app in self.custom_apps
     if app.get("file_key").endswith(".pkg")]]. *)
Definition all_pkg_names (self : processor) : list str :=
  map (fun app => basename (file_key app))
      (filter (fun app => endswith dot_pkg (file_key app)) (custom_apps self)).

(** [difflib.SequenceMatcher(None, re.sub(r"_\w{8}(?=.pkg)", '', pkg),
     self.pkg_name).ratio()]. *)
Definition score (self : processor) (pkg : str) : Q :=
  Difflib.ratio (Sanitizer.strip_upload_id pkg) (pkg_name self).

(** [similarity_scores], filled by the loop over [all_pkg_names]. *)
Definition similarity_scores (self : processor) : dict Q :=
  fold_left (fun scores pkg => dict_set scores pkg (score self pkg))
            (all_pkg_names self) [].

(** [x < y] on scores. *)
Definition q_ltb (x y : Q) : bool := negb (Qle_bool y x).

(** [dict(sorted(similarity_scores.items(), key=lambda k: k[1],
     reverse=True))]. *)
Definition sorted_similar_pkgs (self : processor) : dict Q :=
  dict_of_items (sorted_reverse snd q_ltb (similarity_scores self)).

(** [ratio_limit = 0.85]. *)
Definition ratio_limit : Q := (85 # 100)%Q.

(** [[pkg for pkg in sorted_similar_pkgs.keys()
     if sorted_similar_pkgs.get(pkg) >= ratio_limit]]. *)
Definition possible_pkgs (self : processor) : list str :=
  filter (fun pkg =>
            match dict_get (sorted_similar_pkgs self) pkg with
            | Some ratio => Qle_bool ratio_limit ratio
            | None => false
            end)
         (keys (sorted_similar_pkgs self)).

(** The elements of [l], each once, in the order they first appear. *)
Fixpoint distinct (l : list str) : list str :=
  match l with
  | [] => []
  | x :: l' => x :: filter (fun y => negb (str_eqb x y)) (distinct l')
  end.

(** The block [if possible_apps:]: the package names that occur in the
    [file_key] of one of [possible_apps], and the name these apps share.
    [possible_apps] comes from [app_picker], whose elements all have the
    same name, so that the set of names has one element and its order
    does not matter. *)
Definition scoped_pkgs (self : processor) (possible_apps : list custom_app)
    : list str * option str :=
  match possible_apps with
  | [] => (possible_pkgs self, None)
  | _ :: _ =>
      let matching_pkgs :=
        flat_map (fun possible =>
                    filter (fun pkg => contains pkg (file_key possible))
                           (possible_pkgs self))
                 possible_apps in
      ((match matching_pkgs with
        | [] => possible_pkgs self
        | _ :: _ => matching_pkgs
        end),
       Some (join_empty (distinct (map name possible_apps))))
  end.

(** [pkgs_versions]: each package name with its sanitized version. *)
Definition pkgs_versions (pkgs : list str) : dict str :=
  dict_of_items (map (fun maybepkg => (maybepkg, Sanitizer.sanitize maybepkg)) pkgs).

(** [dict(sorted(pkgs_versions.items(),
     key=lambda k: packaging_version.parse(k[1]), reverse=True))]. *)
Definition pkgs_versions_sorted (pkgs : list str) : dict str :=
  dict_of_items
    (sorted_reverse (fun k => Packaging.parse (snd k)) Packaging.ltb
                    (pkgs_versions pkgs)).

(** [[pkg for pkg in pkgs_versions_sorted.keys()
     if custom_pkg_vers in pkgs_versions_sorted.get(pkg)]]. *)
Definition highest_vers (sorted : dict str) (custom_pkg_vers : str) : list str :=
  filter (fun pkg =>
            match dict_get sorted pkg with
            | Some vers => contains custom_pkg_vers vers
            | None => false
            end)
         (keys sorted).

(** [next(app for app in self.custom_apps if pkg in app.get("file_key"))]. *)
Definition app_record (self : processor) (pkg : str) : option custom_app :=
  find (fun app => contains pkg (file_key app)) (custom_apps self).

(** [pkg_custom_app_updated]: for each package of [highest] the upload
    time and the modification time of its record; a package without a
    record is passed over. *)
Definition pkg_custom_app_updated (self : processor) (highest : list str)
    : dict (str * str) :=
  fold_left (fun updated pkg =>
               match app_record self pkg with
               | Some record =>
                   dict_set updated pkg (file_updated record, updated_at record)
               | None => updated
               end)
            highest [].

(** The key of [min]: [(parse_dt(pkg_uploaded), parse_dt(custom_li_modified))]. *)
Definition age_key (entry : str * (str * str)) : result (str * (Z * Z)) :=
  bind (parse_dt (fst (snd entry))) (fun uploaded =>
  bind (parse_dt (snd (snd entry))) (fun modified =>
  Ok (fst entry, (uploaded, modified)))).

(** [<] on pairs of instants. *)
Definition pair_ltb (x y : Z * Z) : bool :=
  (fst x <? fst y)%Z || ((fst x =? fst y)%Z && (snd x <? snd y)%Z).

(** [min(pkg_custom_app_updated, key=...)]. *)
Definition oldest_app (updated : dict (str * str)) : result str :=
  bind (mapM age_key updated) (fun keyed =>
  bind (min_by snd pair_ltb keyed) (fun oldest => Ok (fst oldest))).

(** The body of the [try] of [_find_lib_item_dynamic]. *)
Definition pick_custom_app (self : processor) (sorted : dict str)
    (provided_app_name : option str) : result custom_app :=
  match sorted with
  | [] => Raise StopIteration
  | (first_pkg_name, custom_pkg_vers) :: _ =>
      let highest := highest_vers sorted custom_pkg_vers in
      bind (if 1 <? length highest
            then oldest_app (pkg_custom_app_updated self highest)
            else Ok first_pkg_name)
           (fun custom_pkg_name =>
              let matching_entry :=
                filter (fun app => contains custom_pkg_name (file_key app))
                       (custom_apps self) in
              let matching_entry :=
                if 1 <? length matching_entry then
                  match provided_app_name with
                  | Some provided =>
                      filter (fun app => contains provided (name app))
                             matching_entry
                  | None => matching_entry
                  end
                else matching_entry in
              match matching_entry with
              | custom_app :: _ => Ok custom_app
              | [] => Raise StopIteration
              end)
  end.

(** [_find_lib_item_dynamic(possible_apps)]. *)
Definition _find_lib_item_dynamic (self : processor)
    (possible_apps : list custom_app) : result lookup :=
  let '(pkgs, provided_app_name) := scoped_pkgs self possible_apps in
  match pick_custom_app self (pkgs_versions_sorted pkgs) provided_app_name with
  | Ok custom_app => Ok (Found custom_app)
  | Raise StopIteration => Ok ReturnFalse
  | Raise e => Raise e
  end.

(** [[app for app in self.custom_apps
     if self.custom_app_name == app.get("name")]]. *)
Definition app_picker (self : processor) : list custom_app :=
  filter (fun app => str_eqb (custom_app_name self) (name app)) (custom_apps self).

Definition no_enforcement : str := lit "no_enforcement".

(** [if self.ss_category_id and
     self.custom_app_enforcement == "no_enforcement"]. *)
Definition narrows (self : processor) : option str :=
  match ss_category_id self with
  | Some (c :: cat) =>
      if str_eqb (custom_app_enforcement self) no_enforcement
      then Some (c :: cat) else None
  | _ => None
  end.

(** [app_picker_by_ss]. *)
Definition app_picker_by_ss (cat : str) (picked : list custom_app)
    : list custom_app :=
  filter (fun app =>
            show_in_self_service app
            && match self_service_category_id app with
               | Some c => str_eqb c cat
               | None => false
               end)
         picked.

(** One round of the loop that writes [slack_body]; the time of creation
    is read with the format that has a fraction of a second. *)
Definition report (app : custom_app) : result duplicate :=
  bind (Datetime.strptime (created_at app) Datetime.fmt_fraction)
       (fun created =>
          Ok (mk_duplicate (id app) created (basename (file_key app))
                           (file_updated app))).

(** [_find_lib_item_match()]. *)
Definition _find_lib_item_match (self : processor) : result lookup :=
  let picked := app_picker self in
  let first :=
    match picked with
    | app :: _ => Ok (Found app)
    | [] => Ok ReturnFalse
    end in
  match picked with
  | [] =>
      if default_auto_create self then Ok ReturnFalse
      else if default_dynamic_lookup self then _find_lib_item_dynamic self []
      else first
  | _ :: _ =>
      if 1 <? length picked then
        let resolved :=
          match narrows self with
          | Some cat =>
              match app_picker_by_ss cat picked with
              | [app] => Some app
              | _ => None
              end
          | None => None
          end in
        match resolved with
        | Some app => Ok (Found app)
        | None =>
            if default_dynamic_lookup self
            then _find_lib_item_dynamic self picked
            else bind (mapM report picked)
                      (fun reported => Ok (ReturnNone reported))
        end
      else first
  end.

(** The decision of [update_custom_app], in the words of section 3:
    [Matched] is the PATCH of a custom app, [CreateNew] the call of
    [create_custom_app], [Ambiguous] the return after duplicates were
    reported, [NoMatch] the return with auto-create off. *)
Inductive outcome : Set :=
| Matched (app : custom_app)
| CreateNew
| Ambiguous (reported : list duplicate)
| NoMatch.

(** [update_custom_app()], from the lookup to the choice of the request. *)
Definition update_custom_app (self : processor) : result outcome :=
  bind (_find_lib_item_match self) (fun lib_item_dict =>
    match lib_item_dict with
    | ReturnNone reported => Ok (Ambiguous reported)
    | ReturnFalse =>
        if default_auto_create self then Ok CreateNew else Ok NoMatch
    | Found app => Ok (Matched app)
    end).

(** The shell escape of a single quote, [r"'\''"]. *)
Definition escaped_quote : str := [quote; "\"%char; quote; quote].

(** [self.custom_app_name.replace(r"'", r"'\''")]. *)
Definition escape_name (custom_app_name : str) : str :=
  replace_chr quote escaped_quote custom_app_name.

Definition with_name (self : processor) (new_name : str) : processor :=
  mk_processor (custom_apps self) new_name (pkg_name self)
               (default_auto_create self) (default_dynamic_lookup self)
               (ss_category_id self) (custom_app_enforcement self)
               (recipe_create_new self).

(** [kandji_customize_create_update()], without the audit script. *)
Definition kandji_customize_create_update (self : processor) : result outcome :=
  let self := with_name self (escape_name (custom_app_name self)) in
  if recipe_create_new self then Ok CreateNew
  else update_custom_app self.

End Kappa.

(* ===================================================================== *)
(** * Catalogs used to exercise the lookup *)
(* ===================================================================== *)

Module Scenarios.

Import Kappa.

Definition install_once : str := lit "install_once".

(** A custom app that is not offered in Self Service. *)
Definition app (id name file_key created updated uploaded : string) : custom_app :=
  mk_custom_app (lit id) (lit name) (lit file_key) install_once false None
                (lit created) (lit updated) (lit uploaded).

(** ** Two uploads of version 2.1.0 and an older upload of 1.2.1.0 *)

Definition app_210_feb : custom_app :=
  app "a" "App 2.1.0 (first)" "apps/App-2.1.0_aaaaaaaa.pkg"
      "2024-02-01T10:00:00.000000Z" "2024-02-01T10:00:00.000000Z"
      "2024-02-01T10:00:00.000000Z".

Definition app_210_mar : custom_app :=
  app "b" "App 2.1.0 (second)" "apps/App-2.1.0_bbbbbbbb.pkg"
      "2024-03-01T10:00:00.000000Z" "2024-03-01T10:00:00.000000Z"
      "2024-03-01T10:00:00.000000Z".

Definition app_1210 : custom_app :=
  app "c" "App 1.2.1.0" "apps/App-1.2.1.0_cccccccc.pkg"
      "2023-01-01T10:00:00.000000Z" "2023-01-01T10:00:00.000000Z"
      "2023-01-01T10:00:00.000000Z".

(** No custom app has the name looked for; auto-create is off and the
    dynamic lookup is on. *)
Definition tied_versions : processor :=
  mk_processor [app_210_feb; app_210_mar; app_1210] (lit "App (AutoPkg)")
               (lit "App-2.2.0.pkg") false true None install_once false.

(** ** Three custom apps of one name, one created on a full second *)

Definition chrome (id file_key created : string) : custom_app :=
  app id "Chrome (AutoPkg)" file_key created
      "2024-01-20T08:00:00.000000Z" "2024-01-20T08:00:00.000000Z".

Definition chrome_1 : custom_app :=
  chrome "1" "apps/GoogleChrome-120.0_11111111.pkg" "2024-01-16T10:00:00Z".
Definition chrome_2 : custom_app :=
  chrome "2" "apps/GoogleChrome-121.0_22222222.pkg" "2024-01-17T10:00:00.250000Z".
Definition chrome_3 : custom_app :=
  chrome "3" "apps/GoogleChrome-122.0_33333333.pkg" "2024-01-18T10:00:00.500000Z".

(** Both policy flags are off. *)
Definition three_chromes : processor :=
  mk_processor [chrome_1; chrome_2; chrome_3] (lit "Chrome (AutoPkg)")
               (lit "GoogleChrome-123.0.pkg") false false None install_once false.

(** The same catalog, each app created on a fraction of a second. *)
Definition chrome_1_fraction : custom_app :=
  chrome "1" "apps/GoogleChrome-120.0_11111111.pkg" "2024-01-16T10:00:00.125000Z".

Definition three_chromes_fraction : processor :=
  mk_processor [chrome_1_fraction; chrome_2; chrome_3] (lit "Chrome (AutoPkg)")
               (lit "GoogleChrome-123.0.pkg") false false None install_once false.

(** ** A disk image next to the package that is being built *)

Definition firefox_dmg : custom_app :=
  app "d" "Firefox" "apps/Firefox-120.0.dmg"
      "2024-01-16T10:00:00.000000Z" "2024-01-16T10:00:00.000000Z"
      "2024-01-16T10:00:00.000000Z".

Definition firefox_pkg : custom_app :=
  app "p" "Firefox (pkg)" "apps/Firefox-119.0_12ab34cd.pkg"
      "2024-01-10T10:00:00.000000Z" "2024-01-10T10:00:00.000000Z"
      "2024-01-10T10:00:00.000000Z".

Definition with_disk_image : processor :=
  mk_processor [firefox_dmg; firefox_pkg] (lit "Firefox (AutoPkg)")
               (lit "Firefox-120.0.pkg") false true None install_once false.

(** ** A name with a single quote *)

Definition obriens : custom_app :=
  app "q" "O'Brien's App" "apps/OBriens-1.0_0a0b0c0d.pkg"
      "2024-01-10T10:00:00.000000Z" "2024-01-10T10:00:00.000000Z"
      "2024-01-10T10:00:00.000000Z".

Definition quoted_name : processor :=
  mk_processor [obriens] (lit "O'Brien's App") (lit "OBriens-1.1.pkg")
               false false None install_once false.

(** No custom app is called as the target. *)
Definition quoted_name_unknown : processor :=
  mk_processor [obriens] (lit "Another App") (lit "OBriens-1.1.pkg")
               false false None install_once false.

(** ** Two custom apps of one name, one of them in Self Service *)

Definition chrome_self_service : custom_app :=
  mk_custom_app (lit "s") (lit "Chrome (AutoPkg)")
                (lit "apps/GoogleChrome-120.0_11111111.pkg")
                (lit "no_enforcement") true (Some (lit "7"))
                (lit "2024-01-16T10:00:00.125000Z")
                (lit "2024-01-20T08:00:00.000000Z")
                (lit "2024-01-20T08:00:00.000000Z").

Definition chrome_enforced : custom_app :=
  mk_custom_app (lit "e") (lit "Chrome (AutoPkg)")
                (lit "apps/GoogleChrome-120.0_22222222.pkg")
                (lit "continuously_enforce") false None
                (lit "2024-01-17T10:00:00.125000Z")
                (lit "2024-01-21T08:00:00.000000Z")
                (lit "2024-01-21T08:00:00.000000Z").

Definition two_chromes : processor :=
  mk_processor [chrome_enforced; chrome_self_service] (lit "Chrome (AutoPkg)")
               (lit "GoogleChrome-123.0.pkg") false false (Some (lit "7"))
               (lit "no_enforcement") false.

(** ** Two versions of one package *)

Definition app_120 : custom_app :=
  app "x" "App 1.2" "apps/App-1.2.0_1a2b3c4d.pkg"
      "2024-01-10T10:00:00.000000Z" "2024-01-10T10:00:00.000000Z"
      "2024-01-10T10:00:00.000000Z".

Definition app_130 : custom_app :=
  app "y" "App 1.3" "apps/App-1.3.0_9z8y7x6w.pkg"
      "2024-02-10T10:00:00.000000Z" "2024-02-10T10:00:00.000000Z"
      "2024-02-10T10:00:00.000000Z".

Definition two_versions : processor :=
  mk_processor [app_120; app_130] (lit "App (AutoPkg)") (lit "App-1.4.0.pkg")
               false true None install_once false.

(** ** Two uploads of one version, the later one first in the catalog *)

Definition two_uploads : processor :=
  mk_processor [app_210_mar; app_210_feb] (lit "App (AutoPkg)")
               (lit "App-2.2.0.pkg") false true None install_once false.

End Scenarios.

(* ===================================================================== *)
(** * The settings of a run ([helpers/configs.py]) *)
(* ===================================================================== *)

Module Configs.

(** [c.lower()] for a code point below 256: the capitals of ASCII and of
    Latin-1 (192 to 222 without the multiplication sign) move up by 32. *)
Definition lower_chr (c : ascii) : ascii :=
  let n := code c in
  if between 65 90 n || between 192 214 n || between 216 222 n
  then ascii_of_nat (n + 32)
  else c.

(** [s.lower()]. *)
Definition lower (s : str) : str := map lower_chr s.

Definition audit_enforce : str := lit "audit_enforce".
Definition self_service : str := lit "self_service".
Definition continuously_enforce : str := lit "continuously_enforce".
Definition install_once : str := lit "install_once".

(** [_parse_enforcement(enforcement)]; [None] stands for the [False] of
    [case _]. *)
Definition _parse_enforcement (enforcement : str) : option str :=
  let e := lower enforcement in
  if str_eqb e audit_enforce then Some continuously_enforce
  else if str_eqb e self_service then Some Kappa.no_enforcement
  else if str_eqb e continuously_enforce then Some audit_enforce
  else if str_eqb e Kappa.no_enforcement then Some self_service
  else if str_eqb e install_once then Some install_once
  else None.

(** The truth value of a string that may be [None]. *)
Definition truthy (v : option str) : bool :=
  match v with
  | Some (_ :: _) => true
  | _ => false
  end.

(** [a or b]. *)
Definition py_or (a b : option str) : option str := if truthy a then a else b.

(** The values the API takes for [install_enforcement]. *)
Definition api_enforcements : list str :=
  [continuously_enforce; Kappa.no_enforcement; install_once].

(** [self.custom_app_enforcement] as [_set_defaults_enforcements] assigns
    it, from the [type] of [li_enforcement], a string, and the three
    categories it reads. *)
Definition custom_app_enforcement (config_type : str)
    (map_ss_category recipe_ss_category recipe_test_category : option str)
    : str :=
  match py_or map_ss_category (py_or recipe_ss_category recipe_test_category) with
  | Some _ => Kappa.no_enforcement
  | None =>
      match _parse_enforcement config_type with
      | Some (c :: enforcement_type) => c :: enforcement_type
      | _ => install_once
      end
  end.

(** ** Self Service categories *)

(** One element of [self.self_service], the listing of the categories. *)
Record category : Set := mk_category {
  category_id : str;
  category_name : str
}.

(** [self.ss_category_id] and [self.test_category_id]. *)
Record category_ids : Set := mk_category_ids {
  ss_category_id : option str;
  test_category_id : option str
}.

(** The second argument of [name_to_id]; [_populate_self_service] passes
    ['prod'] and ['test'] only. *)
Inductive ss_type : Set := prod | test.

Section SelfService.

Variable self_service : list category.
(** The two default categories of [zz_defaults]; [None] for a value that
    is [null] or not given. *)
Variable default_ss_category : option str.
Variable test_default_ss_category : option str.

(** [next(category.get('id') for category in self.self_service
     if category.get('name') == ss_name)]; [None] is [StopIteration].
    Every category has a name, so that none equals the name [None]. *)
Definition next_id (ss_name : option str) : option str :=
  match ss_name with
  | Some wanted =>
      option_map category_id
        (find (fun category => str_eqb (category_name category) wanted)
              self_service)
  | None => None
  end.

(** The [try] of [name_to_id]: the category asked for and, when it is not
    found, the default one. *)
Definition ss_assignment (ss_name ss_default : option str) : option str :=
  match next_id ss_name with
  | Some found => Some found
  | None => if truthy ss_default then next_id ss_default else None
  end.

(** [name_to_id(ss_name, ss_type)]. *)
Definition name_to_id (ids : category_ids) (ss_name : option str)
    (env : ss_type) : category_ids :=
  let ss_default :=
    match env with
    | prod => default_ss_category
    | test => test_default_ss_category
    end in
  let assigned := ss_assignment ss_name ss_default in
  let keep (current : option str) :=
    match ss_name with
    | Some _ => assigned
    | None =>
        match current with
        | Some id => Some id
        | None => assigned
        end
    end in
  match env with
  | prod => mk_category_ids (keep (ss_category_id ids)) (test_category_id ids)
  | test => mk_category_ids (ss_category_id ids) (keep (test_category_id ids))
  end.

(** The loop of [_populate_self_service] over the categories of the recipe
    map and of the recipe, after both ids were set to [None]. *)
Definition _populate_self_service
    (map_ss_category map_test_category
     recipe_ss_category recipe_test_category : option str) : category_ids :=
  fold_left (fun ids cat_env => name_to_id ids (fst cat_env) (snd cat_env))
            (combine [map_ss_category; map_test_category;
                      recipe_ss_category; recipe_test_category]
                     [prod; test; prod; test])
            (mk_category_ids None None).

End SelfService.

(** ** The names of the custom apps *)

Definition prod_name : str := lit "prod_name".
Definition test_name : str := lit "test_name".
Definition undefined : str := lit "undefined".
Definition ss_category : str := lit "ss_category".
Definition test_category : str := lit "test_category".

(** [d.pop(k)] with the [KeyError] passed over. *)
Definition dict_pop {V : Type} (d : dict V) (k : str) : dict V :=
  filter (fun kv => negb (str_eqb (fst kv) k)) d.

(** The first entry of the recipe map whose key occurs in the name of the
    recipe: the loop with [break] of [_populate_recipe_map]. *)
Definition matching_apps (recipe_map : dict (dict str)) (recipe_name : str)
    : dict str :=
  match find (fun entry => contains (fst entry) recipe_name) recipe_map with
  | Some (_, apps) => apps
  | None => []
  end.

(** What [_populate_recipe_map] assigns. *)
Record mapping : Type := mk_mapping {
  app_names : dict str;
  map_ss_category : option str;
  map_test_category : option str
}.

(** [_populate_recipe_map()].  [recipe_map] is what [_read_config] gave for
    the recipe map, [None] for its [False]; the outer [None] of the result
    is the [ProcessorError]. *)
Definition _populate_recipe_map (use_recipe_map : bool)
    (recipe_map : option (dict (dict str))) (recipe_name : str)
    : option mapping :=
  let finish (apps : dict str) :=
    mk_mapping (dict_pop (dict_pop apps ss_category) test_category)
               (dict_get apps ss_category) (dict_get apps test_category) in
  if use_recipe_map then
    match recipe_map with
    | None => None
    | Some entries => Some (finish (matching_apps entries recipe_name))
    end
  else Some (finish []).

(** [s.replace(old, new)] for a non-empty [old]: the occurrences of [old]
    are taken from the left and do not overlap; [skip] counts the
    characters of an occurrence that are still to be passed over. *)
Fixpoint replace_from (old new : str) (skip : nat) (s : str) : str :=
  match s with
  | [] => []
  | c :: s' =>
      match skip with
      | S k => replace_from old new k s'
      | O =>
          if startswith old s
          then new ++ replace_from old new (length old - 1) s'
          else c :: replace_from old new 0 s'
      end
  end.

Definition replace (old new s : str) : str := replace_from old new 0 s.

(** [_set_custom_name()]: the names of the recipe go over those of the
    recipe map; without any name the default one is made and kept in
    [self.custom_app_name], which was [None] before.  The result is
    [self.app_names] with [self.custom_app_name]. *)
Definition _set_custom_name (app_names : dict str)
    (recipe_custom_name recipe_test_name default_custom_name : option str)
    (name_in_recipe : str) : dict str * option str :=
  let app_names :=
    match recipe_custom_name with
    | Some name => dict_set app_names prod_name name
    | None => app_names
    end in
  let app_names :=
    match recipe_test_name with
    | Some name => dict_set app_names test_name name
    | None => app_names
    end in
  match app_names with
  | [] =>
      let custom_app_name :=
        match default_custom_name with
        | Some naming => replace (lit "APPNAME") name_in_recipe naming
        | None => name_in_recipe ++ lit " (AutoPkg)"
        end in
      (dict_set app_names undefined custom_app_name, Some custom_app_name)
  | _ :: _ => (app_names, None)
  end.

End Configs.

(* ===================================================================== *)
(** * The lookup of a token ([_retrieve_token]) *)
(* ===================================================================== *)

Module Tokens.

Section Keystores.

(** [str.upper]. *)
Variable upper : str -> str.
(** [os.environ.get]. *)
Variable environ : str -> option str.
(** What [security find-generic-password -w -s item -a 'KAPPA'] prints, and
    [None] when the command fails. *)
Variable security : str -> option str.
(** [self.token_keystores.get('environment') is True], and the same for
    ['keychain']. *)
Variable environment : bool.
Variable keychain : bool.

(** [_env_token_get(item_name)]. *)
Definition _env_token_get (item_name : str) : option str :=
  let token := environ item_name in
  let upper_token := environ (upper item_name) in
  match token with
  | Some t => Some t
  | None => upper_token
  end.

(** [_keychain_token_get(item_name)]. *)
Definition _keychain_token_get (item_name : str) : option str :=
  security item_name.

(** [_retrieve_token(item_name)]. *)
Definition _retrieve_token (item_name : str) : option str :=
  let token_val :=
    if environment then _env_token_get item_name else None in
  if Configs.truthy token_val then token_val
  else if keychain then _keychain_token_get item_name else None.

End Keystores.

End Tokens.

(* ===================================================================== *)
(** * The audit script ([_customize_audit_for_upload]) *)
(* ===================================================================== *)

Module AuditScript.

(** [c.isspace()] for a code point below 256. *)
Definition is_space (c : ascii) : bool :=
  let n := code c in
  between 9 13 n || between 28 32 n || (n =? 133) || (n =? 160).

(** [line.rstrip()]. *)
Definition rstrip (line : str) : str :=
  rev (Packaging.dropwhile is_space (rev line)).

(** A delay of [li_enforcement] in config.json: [null], an integer or a
    string. *)
Inductive value : Set :=
| VNone
| VInt (n : Z)
| VStr (s : str).

(** The truth value of a delay. *)
Definition truthy (v : value) : bool :=
  match v with
  | VNone => false
  | VInt n => negb (n =? 0)%Z
  | VStr [] => false
  | VStr (_ :: _) => true
  end.

(** A delay inside an f-string. *)
Definition format (v : value) : str :=
  match v with
  | VNone => lit "None"
  | VInt n => lit (NilZero.string_of_int (Z.to_int n))
  | VStr s => s
  end.

(** The attributes of the processor that the customization reads.  An
    attribute that is [None], or not set, is [None] here; [delays] holds
    [self.test_delay] and [self.prod_delay], which are set together, or
    not at all. *)
Record values : Set := mk_values {
  app_name : option str;
  bundle_id : option str;
  pkg_id : option str;
  app_vers : option str;
  delays : option (value * value);
  test_app : bool;
  prod_app : bool
}.

Definition dquote : ascii := ascii_of_nat 34.

Definition key_app_name : str := lit "APP_NAME=".
Definition key_bundle_id : str := lit "BUNDLE_ID=".
Definition key_pkg_id : str := lit "PKG_ID=".
Definition key_version : str := lit "MINIMUM_ENFORCED_VERSION=".
Definition key_timestamp : str := lit "CREATION_TIMESTAMP=".
Definition key_days : str := lit "DAYS_UNTIL_ENFORCEMENT=".

Definition keys_of_script : list str :=
  [key_app_name; key_bundle_id; key_pkg_id; key_version; key_timestamp; key_days].

(** [f'KEY="{val}"']. *)
Definition assign (key val : str) : str := key ++ dquote :: val ++ [dquote].

(** The chain of [if] and [elif] on a line that was stripped; [None] is
    the [AttributeError] of a delay that was never set. *)
Definition customize_stripped (v : values) (epoch_now : str) (line : str)
    : option str :=
  match contains key_app_name line, app_name v with
  | true, Some val => Some (assign key_app_name val)
  | _, _ =>
  match contains key_bundle_id line, bundle_id v with
  | true, Some val => Some (assign key_bundle_id val)
  | _, _ =>
  match contains key_pkg_id line, pkg_id v with
  | true, Some val => Some (assign key_pkg_id val)
  | _, _ =>
  match contains key_version line, app_vers v with
  | true, Some val => Some (assign key_version val)
  | _, _ =>
  if contains key_timestamp line then Some (assign key_timestamp epoch_now)
  else if contains key_days line then
    match delays v with
    | Some (test_delay, prod_delay) =>
        Some (if test_app v then key_days ++ format test_delay
              else if prod_app v then key_days ++ format prod_delay
              else if truthy prod_delay then key_days ++ format prod_delay
              else line)
    | None => None
    end
  else Some line
  end end end end.

(** One round of the loop over the lines: the line that is printed for
    [line]. *)
Definition customize_line (v : values) (epoch_now : str) (line : str)
    : option str :=
  customize_stripped v epoch_now (rstrip line).

(** [_customize_audit_for_upload()] on the lines of the script: the lines
    that are printed in its place. *)
Fixpoint _customize_audit_for_upload (v : values) (epoch_now : str)
    (script : list str) : option (list str) :=
  match script with
  | [] => Some []
  | line :: rest =>
      match customize_line v epoch_now line with
      | Some printed =>
          option_map (cons printed) (_customize_audit_for_upload v epoch_now rest)
      | None => None
      end
  end.

(** No key of the script occurs in [val]. *)
Definition key_free (val : str) : bool :=
  forallb (fun key => negb (contains key val)) keys_of_script.

Definition known_key_free (val : option str) : bool :=
  match val with
  | Some x => key_free x
  | None => true
  end.

(** No key of the script occurs in a value that the customization
    writes. *)
Definition values_key_free (v : values) (epoch_now : str) : bool :=
  known_key_free (app_name v) && known_key_free (bundle_id v)
  && known_key_free (pkg_id v) && known_key_free (app_vers v)
  && key_free epoch_now
  && match delays v with
     | Some (test_delay, prod_delay) =>
         key_free (format test_delay) && key_free (format prod_delay)
     | None => true
     end.

(** The lines of a script as the loop reads them back: each with its end
    of line. *)
Definition written (printed : list str) : list str :=
  map (fun line => line ++ [newline]) printed.

End AuditScript.

(* ===================================================================== *)
(** * The loop of [main] over the names of the custom apps *)
(* ===================================================================== *)

Module Run.

Inductive error : Set :=
| AttributeError
| Uncaught (e : exn).

Inductive try (A : Type) : Type :=
| Returns (a : A)
| Raises (e : error).
Arguments Returns {A} a.
Arguments Raises {A} e.

Definition and_then {A B : Type} (c : try A) (k : A -> try B) : try B :=
  match c with
  | Returns a => k a
  | Raises e => Raises e
  end.

(** The attributes that change from one name to the next:
    [self.custom_app_name], which is [None] until a name is assigned, the
    two flags of the environment, and the rest of the processor, whose own
    field for the name is not read. *)
Record session : Set := mk_session {
  custom_app_name : option str;
  test_app : bool;
  prod_app : bool;
  test_category_id : option str;
  settings : Kappa.processor
}.

(** What a round does to the audit script and what it sends (in a dry run:
    what it prints in place of sending): the fields of [create_data] and
    of [update_data] that depend on the lookup. *)
Inductive event : Set :=
| CustomizeAudit
| RestoreAudit
| Post (name enforcement : str) (audit_script : bool)
       (self_service_category : option (option str))
| Patch (app : Kappa.custom_app) (audit_script : bool).

Definition with_enforcement (self : Kappa.processor) (enforcement : str)
    : Kappa.processor :=
  Kappa.mk_processor (Kappa.custom_apps self) (Kappa.custom_app_name self)
                     (Kappa.pkg_name self) (Kappa.default_auto_create self)
                     (Kappa.default_dynamic_lookup self)
                     (Kappa.ss_category_id self) enforcement
                     (Kappa.recipe_create_new self).

Definition continuously_enforced (enforcement : str) : bool :=
  str_eqb enforcement Configs.continuously_enforce.

(** [create_custom_app()]: the fields of the POST. *)
Definition create_custom_app (s : session) (self : Kappa.processor) : event :=
  let enforcement := Kappa.custom_app_enforcement self in
  Post (Kappa.custom_app_name self) enforcement
       (continuously_enforced enforcement)
       (if continuously_enforced enforcement then None
        else if str_eqb enforcement Kappa.no_enforcement
        then Some (if test_app s then test_category_id s
                   else Kappa.ss_category_id self)
        else None).

(** What follows the choice of [update_custom_app]: nothing is sent for
    duplicates or without a match; a match whose enforcement in Kandji is
    [continuously_enforce] takes the audit script with it, and that
    enforcement is kept in [self.custom_app_enforcement].  The package is
    not expanded there: [self.app_vers] is always set, by
    [populate_from_config]. *)
Definition request (s : session) (self : Kappa.processor)
    (choice : Kappa.outcome) : Kappa.processor * list event :=
  match choice with
  | Kappa.Ambiguous _ => (self, [])
  | Kappa.NoMatch => (self, [])
  | Kappa.CreateNew => (self, [create_custom_app s self])
  | Kappa.Matched app =>
      let lib_item_enforcement := Kappa.install_enforcement app in
      if continuously_enforced lib_item_enforcement then
        if negb (str_eqb (Kappa.custom_app_enforcement self) lib_item_enforcement)
        then (with_enforcement self lib_item_enforcement,
              [CustomizeAudit; Patch app true])
        else (self, [Patch app true])
      else (self, [Patch app false])
  end.

(** [kandji_customize_create_update()] with the audit script: the session
    it leaves and what it did, in order.  The requests are taken to be
    answered with success: the second try after HTTP 503 and the
    [ProcessorError] on another failure, which [_validate_curl_response]
    decides on the response, are not followed. *)
Definition kandji_customize_create_update (s : session)
    : try (session * list event) :=
  match custom_app_name s with
  | None => Raises AttributeError
  | Some name =>
      let before :=
        if continuously_enforced (Kappa.custom_app_enforcement (settings s))
        then [CustomizeAudit] else [] in
      match Kappa.kandji_customize_create_update
              (Kappa.with_name (settings s) name) with
      | Raise e => Raises (Uncaught e)
      | Ok choice =>
          let escaped := Kappa.with_name (settings s) (Kappa.escape_name name) in
          let '(self, sent) := request s escaped choice in
          let after :=
            if continuously_enforced (Kappa.custom_app_enforcement self)
            then [RestoreAudit] else [] in
          Returns (mk_session (Some (Kappa.escape_name name)) (test_app s)
                              (prod_app s) (test_category_id s) self,
                   before ++ sent ++ after)
      end
  end.

(** The branches on [key] in the loop of [main]. *)
Definition select (s : session) (key value : str) : session :=
  if str_eqb key Configs.test_name then
    mk_session (Some value) true false (test_category_id s) (settings s)
  else if str_eqb key Configs.prod_name then
    mk_session (Some value) false true (test_category_id s) (settings s)
  else
    mk_session (custom_app_name s) false false (test_category_id s) (settings s).

(** [for key, value in self.app_names.items()]: for each name the session
    that its round leaves, which holds the name that was looked up, and
    what the round did. *)
Fixpoint main_loop (s : session) (app_names : dict str)
    : try (list (session * list event)) :=
  match app_names with
  | [] => Returns []
  | (key, value) :: rest =>
      and_then (kandji_customize_create_update (select s key value))
               (fun round =>
      and_then (main_loop (fst round) rest) (fun later =>
      Returns (round :: later)))
  end.

(** ** The file of the audit script *)

(** The script and its backup ([.bak]), when there is one. *)
Definition files : Type := list str * option (list str).

Section Replay.

(** What [_customize_audit_for_upload] prints for a script. *)
Variable customized : list str -> list str.

(** The events on the files of the audit script: the customization keeps
    the script as backup, the restoration moves the backup over the script
    ([None] when there is no backup to move), and a request that takes the
    audit script reads it as it is then.  The result holds the scripts that
    were sent. *)
Fixpoint replay (events : list event) (f : files)
    : option (files * list (list str)) :=
  match events with
  | [] => Some (f, [])
  | ev :: rest =>
      let sending (audit_script : bool) :=
        option_map (fun r => (fst r,
                              if audit_script then fst f :: snd r else snd r))
                   (replay rest f) in
      match ev with
      | CustomizeAudit => replay rest (customized (fst f), Some (fst f))
      | RestoreAudit =>
          match snd f with
          | Some backup => replay rest (backup, None)
          | None => None
          end
      | Post _ _ audit_script _ => sending audit_script
      | Patch _ audit_script => sending audit_script
      end
  end.

End Replay.

(** ** What a round may do *)

(** A key of [self.app_names] for which the loop assigns the name. *)
Definition named (key : str) : Prop :=
  key = Configs.prod_name \/ key = Configs.test_name.

(** What is sent in a round, by whether the script was customized before
    the lookup ([before]) and is to be restored after it ([after]). *)
Inductive sending : bool -> list event -> bool -> Prop :=
| SendNothing (before : bool) : sending before [] before
| SendPost (before : bool) (name enforcement : str) (cat : option (option str)) :
    continuously_enforced enforcement = before ->
    sending before [Post name enforcement before cat] before
| SendPatch (before : bool) (app : Kappa.custom_app) :
    sending before [Patch app before] before
| SendPatchOnly (app : Kappa.custom_app) :
    sending true [Patch app false] true
| SendOverride (app : Kappa.custom_app) :
    sending false [CustomizeAudit; Patch app true] true.

(** What a round does under [continuously_enforce]: the script is
    customized first, and a custom app that is created takes the
    enforcement and the script. *)
Definition enforced_round (events : list event) : Prop :=
  hd_error events = Some CustomizeAudit /\
  forall name enforcement audit_script cat,
    In (Post name enforcement audit_script cat) events ->
    enforcement = Configs.continuously_enforce /\ audit_script = true /\
    cat = None.

Definition is_request (ev : event) : bool :=
  match ev with
  | Post _ _ _ _ => true
  | Patch _ _ => true
  | _ => false
  end.

End Run.

(* ===================================================================== *)
(** * A run over two names *)
(* ===================================================================== *)

Module Sessions.

(** The custom app of the test environment, which Kandji enforces
    continuously. *)
Definition firefox_test : Kappa.custom_app :=
  Kappa.mk_custom_app (lit "t") (lit "Firefox (Test)")
    (lit "apps/Firefox-119.0_1a2b3c4d.pkg") Configs.continuously_enforce
    false None
    (lit "2024-01-10T10:00:00.000000Z") (lit "2024-01-10T10:00:00.000000Z")
    (lit "2024-01-10T10:00:00.000000Z").

(** The settings of the run: enforcement [install_once] by the config
    file, auto-create on, dynamic lookup off. *)
Definition settings : Kappa.processor :=
  Kappa.mk_processor [firefox_test] [] (lit "Firefox-120.0.pkg")
                     true false None Configs.install_once false.

(** The session before the loop, as [populate_from_config] leaves it. *)
Definition start : Run.session := Run.mk_session None false false None settings.

Definition names : dict str :=
  [(Configs.test_name, lit "Firefox (Test)"); (Configs.prod_name, lit "Firefox")].

(** The first round updates [firefox_test] with the audit script; the
    second one creates the custom app of production. *)
Definition first_round : Run.session * list Run.event :=
  (Run.mk_session (Some (lit "Firefox (Test)")) true false None
     (Run.with_enforcement (Kappa.with_name settings (lit "Firefox (Test)"))
                           Configs.continuously_enforce),
   [Run.CustomizeAudit; Run.Patch firefox_test true; Run.RestoreAudit]).

Definition second_round : Run.session * list Run.event :=
  (Run.mk_session (Some (lit "Firefox")) false true None
     (Run.with_enforcement (Kappa.with_name settings (lit "Firefox"))
                           Configs.continuously_enforce),
   [Run.CustomizeAudit;
    Run.Post (lit "Firefox") Configs.continuously_enforce true None;
    Run.RestoreAudit]).

(** Three custom apps of the target name, with dynamic lookup on and no
    Self Service category. *)
Definition chromes_dynamic : Kappa.processor :=
  Kappa.mk_processor
    [Scenarios.chrome_1_fraction; Scenarios.chrome_2; Scenarios.chrome_3]
    (lit "Chrome (AutoPkg)") (lit "GoogleChrome-123.0.pkg")
    false true None Configs.install_once false.

End Sessions.

(* ===================================================================== *)
(** * The models at work *)
(* ===================================================================== *)

Example sanitize_ex1 :
  Sanitizer.sanitize (lit "Google Chrome 100.0.1_1a2b3c4d.pkg") = lit "100.0.1".
Proof. reflexivity. Qed.

Example sanitize_ex2 :
  Sanitizer.sanitize (lit "_abcdefghXpkg_12345678.pkg") = [].
Proof. reflexivity. Qed.

Example sanitize_ex3 :
  Sanitizer.sanitize (lit "__abcdefgh.pkg") = [] /\
  Sanitizer.sanitize (lit "1 2  3.pkg") = lit "1.2.3" /\
  Sanitizer.sanitize (lit "App-1.2.1.0_cccccccc.pkg") = lit "1.2.1.0".
Proof. repeat split; reflexivity. Qed.

Example ratio_ex1 :
  Difflib.ratio (lit "Firefox-120.0.dmg") (lit "Firefox-120.0.pkg") = (30 # 34)%Q.
Proof. reflexivity. Qed.

Example ratio_ex2 :
  Difflib.ratio (lit "App-1.2.1.0.pkg") (lit "App-2.1.0.pkg") = (26 # 28)%Q /\
  Difflib.ratio [] [] = 1%Q /\ Difflib.ratio (lit "abc") [] = (0 # 3)%Q.
Proof. repeat split; reflexivity. Qed.

Example strptime_ex :
  Datetime.strptime (lit "2024-01-16T10:00:00Z") Datetime.fmt_fraction
  = Raise ValueError /\
  Datetime.strptime (lit "2024-01-16T10:00:00Z") Datetime.fmt_seconds
  = Ok (Datetime.mk_datetime 2024 1 16 10 0 0 0) /\
  Datetime.strptime (lit "2024-01-16T10:00:00.25Z") Datetime.fmt_fraction
  = Ok (Datetime.mk_datetime 2024 1 16 10 0 0 250000) /\
  Datetime.strptime (lit "2023-02-29T10:00:00Z") Datetime.fmt_seconds
  = Raise ValueError.
Proof. repeat split; reflexivity. Qed.

Example version_ex :
  Packaging.parse (lit "1.2.0") = Packaging.Version [1; 2; 0]%N /\
  Packaging.parse [] = Packaging.LegacyVersion [] /\
  Packaging.ltb (Packaging.parse (lit "1.9")) (Packaging.parse (lit "1.10")) = true /\
  Packaging.compare (Packaging.parse (lit "1.0")) (Packaging.parse (lit "1")) = Eq.
Proof. repeat split; reflexivity. Qed.

(* ===================================================================== *)
(** * Facts about strings and [re.sub] *)
(* ===================================================================== *)

Section ReFacts.

Lemma chr_eqb_eq (c d : ascii) : chr_eqb c d = true <-> c = d.
Proof. unfold chr_eqb. apply Ascii.eqb_eq. Qed.

Lemma chr_eqb_refl (c : ascii) : chr_eqb c c = true.
Proof. apply chr_eqb_eq. reflexivity. Qed.

Lemma chr_eqb_neq (c d : ascii) : chr_eqb c d = false <-> c <> d.
Proof. unfold chr_eqb. apply Ascii.eqb_neq. Qed.

Lemma str_eqb_eq (a b : str) : str_eqb a b = true <-> a = b.
Proof.
  revert b. induction a as [|c a IH]; intros [|d b]; simpl; split; intros H;
    try reflexivity; try discriminate.
  - apply andb_true_iff in H. destruct H as [H1 H2].
    apply chr_eqb_eq in H1. apply IH in H2. congruence.
  - inversion H; subst. rewrite chr_eqb_refl. simpl. apply IH. reflexivity.
Qed.

Lemma str_eqb_refl (a : str) : str_eqb a a = true.
Proof. apply str_eqb_eq. reflexivity. Qed.

Variable p : Re.pattern.
Variable repl : str.

(** Passing over the rest of a match is dropping that many characters. *)
Lemma sub_from_skip (k : nat) (st : bool) (s : str) :
  Re.sub_from p repl (S k) st s = Re.sub_from p repl 0 false (skipn (S k) s).
Proof.
  revert k st. induction s as [|c s IH]; intros k st.
  - reflexivity.
  - simpl. destruct k as [|k].
    + destruct s; reflexivity.
    + apply IH.
Qed.

Lemma sub_from_skip' (k : nat) (s : str) :
  Re.sub_from p repl k false s = Re.sub_from p repl 0 false (skipn k s).
Proof. destruct k; [reflexivity | apply sub_from_skip]. Qed.

(** One step of the scan. *)
Lemma sub_from_cons (st : bool) (c : ascii) (s : str) :
  Re.sub_from p repl 0 st (c :: s) =
  match p st (c :: s) with
  | Some (S n) => repl ++ Re.sub_from p repl 0 false (skipn n s)
  | _ => c :: Re.sub_from p repl 0 false s
  end.
Proof.
  simpl. destruct (p st (c :: s)) as [[|n]|]; try reflexivity.
  rewrite sub_from_skip'. reflexivity.
Qed.

(** A pattern that matches nowhere in [s] leaves [s] as it is. *)
Lemma sub_from_no_match (s : str) :
  (forall st k, p st (skipn k s) = None) ->
  forall st, Re.sub_from p repl 0 st s = s.
Proof.
  induction s as [|c s IH]; intros H st.
  - reflexivity.
  - rewrite sub_from_cons. pose proof (H st 0) as H0. simpl in H0.
    rewrite H0. f_equal.
    apply IH. intros st' k. apply (H st' (S k)).
Qed.

End ReFacts.

(* ===================================================================== *)
(** * The sanitizer: its steps and its shape *)
(* ===================================================================== *)

Section SanitizerFacts.

Import Sanitizer.

Lemma sub_space (st : bool) (s : str) :
  Re.sub_from Re.pat_space [dot] 0 st s = spaces_to_dots s.
Proof.
  revert st. induction s as [|c s IH]; intros st.
  - reflexivity.
  - rewrite sub_from_cons. unfold Re.pat_space. simpl.
    destruct (chr_eqb c space); simpl; rewrite IH; reflexivity.
Qed.

Lemma sub_not_digit_dot (st : bool) (s : str) :
  Re.sub_from Re.pat_not_digit_dot [] 0 st s = keep_digits_dots s.
Proof.
  revert st. induction s as [|c s IH]; intros st.
  - reflexivity.
  - rewrite sub_from_cons. unfold Re.pat_not_digit_dot. simpl.
    destruct (is_digit c || chr_eqb c dot); simpl; rewrite IH; reflexivity.
Qed.

(** A run of dots collapses to its last dot. *)
Lemma collapse_run (s : str) (m : nat) :
  Re.leading_dots s = S m ->
  collapse_dots s = dot :: collapse_dots (skipn (S m) s).
Proof.
  revert m. induction s as [|c s IH]; intros m H.
  - discriminate.
  - simpl in H. destruct (chr_eqb c dot) eqn:Ec; [|discriminate].
    apply chr_eqb_eq in Ec. subst c. injection H as H.
    destruct s as [|d s].
    + simpl in H. subst m. reflexivity.
    + destruct m as [|m].
      * simpl in H. destruct (chr_eqb d dot) eqn:Ed; [discriminate|].
        change (collapse_dots (dot :: d :: s))
          with (if chr_eqb dot dot && chr_eqb d dot
                then collapse_dots (d :: s) else dot :: collapse_dots (d :: s)).
        rewrite Ed, andb_false_r. reflexivity.
      * assert (Ed : chr_eqb d dot = true).
        { simpl in H. destruct (chr_eqb d dot); [reflexivity|discriminate]. }
        change (collapse_dots (dot :: d :: s))
          with (if chr_eqb dot dot && chr_eqb d dot
                then collapse_dots (d :: s) else dot :: collapse_dots (d :: s)).
        rewrite Ed, chr_eqb_refl. simpl andb. cbv iota.
        rewrite (IH m H). reflexivity.
Qed.

Lemma collapse_not_dot (c : ascii) (s : str) :
  chr_eqb c dot = false -> collapse_dots (c :: s) = c :: collapse_dots s.
Proof.
  intros H. destruct s as [|d s]; [reflexivity|].
  change (collapse_dots (c :: d :: s))
    with (if chr_eqb c dot && chr_eqb d dot
          then collapse_dots (d :: s) else c :: collapse_dots (d :: s)).
  rewrite H. reflexivity.
Qed.

Lemma sub_dots_len (n : nat) :
  forall (s : str) (st : bool), length s <= n ->
    Re.sub_from Re.pat_dots [dot] 0 st s = collapse_dots s.
Proof.
  induction n as [|n IH]; intros s st Hlen.
  - destruct s; [reflexivity | simpl in Hlen; lia].
  - destruct s as [|c s]; [reflexivity|].
    simpl in Hlen. rewrite sub_from_cons. unfold Re.pat_dots.
    destruct (chr_eqb c dot) eqn:Ec.
    + destruct (Re.leading_dots s) as [|m] eqn:El.
      * assert (E1 : Re.leading_dots (c :: s) = 1) by (simpl; rewrite Ec, El; reflexivity).
        rewrite E1. simpl Nat.leb. cbv iota.
        rewrite (collapse_run (c :: s) 0 E1). simpl skipn.
        rewrite IH by lia. apply chr_eqb_eq in Ec. subst c. reflexivity.
      * assert (E1 : Re.leading_dots (c :: s) = S (S m)) by (simpl; rewrite Ec, El; reflexivity).
        rewrite E1. simpl Nat.leb. cbv iota.
        rewrite (collapse_run (c :: s) (S m) E1).
        change (skipn (S (S m)) (c :: s)) with (skipn (S m) s).
        rewrite IH; [reflexivity|].
        pose proof (length_skipn (S m) s). lia.
    + assert (E1 : Re.leading_dots (c :: s) = 0) by (simpl; rewrite Ec; reflexivity).
      rewrite E1. simpl Nat.leb. cbv iota.
      rewrite collapse_not_dot by assumption. rewrite IH by lia. reflexivity.
Qed.

Lemma sub_dots (st : bool) (s : str) :
  Re.sub_from Re.pat_dots [dot] 0 st s = collapse_dots s.
Proof. apply (sub_dots_len (length s)). lia. Qed.

End SanitizerFacts.

Section SanitizerShape.

Import Sanitizer.

Lemma strip_trailing_snoc (l : str) (x : ascii) :
  strip_trailing_dot (l ++ [x]) = if chr_eqb x dot then l else l ++ [x].
Proof.
  unfold strip_trailing_dot. rewrite rev_app_distr. simpl.
  destruct (chr_eqb x dot).
  - apply rev_involutive.
  - simpl. rewrite rev_involutive. reflexivity.
Qed.

Lemma strip_trailing_cons (c : ascii) (t : str) :
  t <> [] -> strip_trailing_dot (c :: t) = c :: strip_trailing_dot t.
Proof.
  intros Ht. destruct (exists_last Ht) as [l [x ->]].
  change (c :: l ++ [x]) with ((c :: l) ++ [x]).
  rewrite !strip_trailing_snoc. destruct (chr_eqb x dot); reflexivity.
Qed.

Lemma strip_trailing_single (c : ascii) :
  strip_trailing_dot [c] = if chr_eqb c dot then [] else [c].
Proof. apply (strip_trailing_snoc [] c). Qed.

Lemma newline_not_digit_or_dot : digit_or_dot newline = false.
Proof. reflexivity. Qed.

Lemma pat_edge_dot_cons (st : bool) (c : ascii) (s : str) :
  Re.pat_edge_dot st (c :: s) =
  if chr_eqb c dot && (st || Re.at_end s) then Some 1 else None.
Proof. reflexivity. Qed.

Lemma sub_edge_inner (s : str) :
  forallb digit_or_dot s = true ->
  Re.sub_from Re.pat_edge_dot [] 0 false s = strip_trailing_dot s.
Proof.
  induction s as [|c s IH]; intros H.
  - reflexivity.
  - simpl in H. apply andb_true_iff in H. destruct H as [Hc Hs].
    rewrite sub_from_cons, pat_edge_dot_cons.
    destruct s as [|d s].
    + rewrite strip_trailing_single.
      destruct (chr_eqb c dot); reflexivity.
    + assert (Hend : Re.at_end (d :: s) = false).
      { simpl. destruct s; [|reflexivity].
        simpl in Hs. rewrite andb_true_r in Hs.
        destruct (chr_eqb d newline) eqn:E; [|reflexivity].
        apply chr_eqb_eq in E. subst d.
        rewrite newline_not_digit_or_dot in Hs. discriminate. }
      rewrite Hend. cbn [orb]. rewrite andb_false_r. cbv iota.
      rewrite strip_trailing_cons by discriminate.
      rewrite IH by assumption. reflexivity.
Qed.

Lemma sub_edge (s : str) :
  forallb digit_or_dot s = true ->
  Re.sub Re.pat_edge_dot [] s = strip_edge_dots s.
Proof.
  intros H. unfold Re.sub, strip_edge_dots. destruct s as [|c s].
  - reflexivity.
  - simpl in H. apply andb_true_iff in H. destruct H as [Hc Hs].
    rewrite sub_from_cons, pat_edge_dot_cons. cbn [orb].
    rewrite andb_true_r. cbn [strip_leading_dot].
    destruct (chr_eqb c dot) eqn:Ec.
    + cbn [skipn app]. apply sub_edge_inner. assumption.
    + rewrite sub_edge_inner by assumption.
      destruct s as [|d s].
      * rewrite strip_trailing_single, Ec. reflexivity.
      * rewrite (strip_trailing_cons c (d :: s)) by discriminate. reflexivity.
Qed.

(** *** Each step keeps the alphabet *)

Lemma keep_alphabet (s : str) : forallb digit_or_dot (keep_digits_dots s) = true.
Proof.
  unfold keep_digits_dots. apply forallb_forall. intros c Hc.
  apply filter_In in Hc. apply Hc.
Qed.

Lemma collapse_alphabet (s : str) :
  forallb digit_or_dot s = true -> forallb digit_or_dot (collapse_dots s) = true.
Proof.
  induction s as [|c s IH]; intros H; [reflexivity|].
  simpl in H. apply andb_true_iff in H. destruct H as [Hc Hs].
  destruct s as [|d s]; [simpl; rewrite Hc; reflexivity|].
  change (collapse_dots (c :: d :: s))
    with (if chr_eqb c dot && chr_eqb d dot
          then collapse_dots (d :: s) else c :: collapse_dots (d :: s)).
  destruct (chr_eqb c dot && chr_eqb d dot).
  - apply IH. assumption.
  - change (forallb digit_or_dot (c :: collapse_dots (d :: s)))
      with (digit_or_dot c && forallb digit_or_dot (collapse_dots (d :: s))).
    rewrite Hc, IH by assumption. reflexivity.
Qed.

Lemma strip_leading_alphabet (s : str) :
  forallb digit_or_dot s = true -> forallb digit_or_dot (strip_leading_dot s) = true.
Proof.
  destruct s as [|c s]; intros H; [reflexivity|]. simpl.
  destruct (chr_eqb c dot); [|assumption].
  simpl in H. apply andb_true_iff in H. apply H.
Qed.

Lemma strip_trailing_alphabet (s : str) :
  forallb digit_or_dot s = true -> forallb digit_or_dot (strip_trailing_dot s) = true.
Proof.
  intros H. destruct s as [|c s] using rev_ind; [reflexivity|].
  rewrite strip_trailing_snoc. rewrite forallb_app in H.
  apply andb_true_iff in H. destruct H as [H1 H2].
  destruct (chr_eqb c dot); [assumption|].
  rewrite forallb_app, H1, H2. reflexivity.
Qed.

(** *** No two dots in a row after the collapse *)

Lemma collapse_no_double_dot (s : str) : no_double_dot (collapse_dots s) = true.
Proof.
  induction s as [|c s IH]; [reflexivity|].
  destruct s as [|d s]; [reflexivity|].
  change (collapse_dots (c :: d :: s))
    with (if chr_eqb c dot && chr_eqb d dot
          then collapse_dots (d :: s) else c :: collapse_dots (d :: s)).
  destruct (chr_eqb c dot && chr_eqb d dot) eqn:E; [assumption|].
  (* the first character of the collapsed tail is [d] *)
  assert (Hhd : exists r, collapse_dots (d :: s) = d :: r).
  { clear. revert d. induction s as [|e s IHs]; intros d.
    - exists []. reflexivity.
    - change (collapse_dots (d :: e :: s))
        with (if chr_eqb d dot && chr_eqb e dot
              then collapse_dots (e :: s) else d :: collapse_dots (e :: s)).
      destruct (chr_eqb d dot && chr_eqb e dot) eqn:E.
      + apply andb_true_iff in E. destruct E as [E1 E2].
        apply chr_eqb_eq in E1, E2. subst. apply IHs.
      + eexists. reflexivity. }
  destruct Hhd as [r Hr]. rewrite Hr in *.
  change (no_double_dot (c :: d :: r))
    with (negb (chr_eqb c dot && chr_eqb d dot) && no_double_dot (d :: r)).
  rewrite E, IH. reflexivity.
Qed.

Lemma no_double_dot_fixed (s : str) :
  no_double_dot s = true -> collapse_dots s = s.
Proof.
  induction s as [|c s IH]; intros H; [reflexivity|].
  destruct s as [|d s]; [reflexivity|].
  change (no_double_dot (c :: d :: s))
    with (negb (chr_eqb c dot && chr_eqb d dot) && no_double_dot (d :: s)) in H.
  apply andb_true_iff in H. destruct H as [H1 H2].
  change (collapse_dots (c :: d :: s))
    with (if chr_eqb c dot && chr_eqb d dot
          then collapse_dots (d :: s) else c :: collapse_dots (d :: s)).
  apply negb_true_iff in H1. rewrite H1, IH by assumption. reflexivity.
Qed.

Lemma no_double_dot_tail (c : ascii) (s : str) :
  no_double_dot (c :: s) = true -> no_double_dot s = true.
Proof.
  destruct s as [|d s]; [reflexivity|].
  change (no_double_dot (c :: d :: s))
    with (negb (chr_eqb c dot && chr_eqb d dot) && no_double_dot (d :: s)).
  intros H. apply andb_true_iff in H. apply H.
Qed.

Lemma strip_leading_no_double_dot (s : str) :
  no_double_dot s = true -> no_double_dot (strip_leading_dot s) = true.
Proof.
  destruct s as [|c s]; intros H; [reflexivity|]. simpl.
  destruct (chr_eqb c dot); [|assumption].
  apply (no_double_dot_tail c). assumption.
Qed.

Lemma strip_leading_no_leading_dot (s : str) :
  no_double_dot s = true -> no_leading_dot (strip_leading_dot s) = true.
Proof.
  destruct s as [|c s]; intros H; [reflexivity|]. simpl.
  destruct (chr_eqb c dot) eqn:Ec.
  - destruct s as [|d s]; [reflexivity|].
    change (no_double_dot (c :: d :: s))
      with (negb (chr_eqb c dot && chr_eqb d dot) && no_double_dot (d :: s)) in H.
    apply andb_true_iff in H. destruct H as [H1 _].
    rewrite Ec in H1. simpl in H1. simpl. assumption.
  - simpl. rewrite Ec. reflexivity.
Qed.

(** *** The trailing dot *)

Lemma last_dot_snoc (l : str) (x : ascii) : last_dot (l ++ [x]) = chr_eqb x dot.
Proof.
  induction l as [|c l IH]; [reflexivity|].
  destruct l as [|d l]; [reflexivity|]. exact IH.
Qed.

Lemma last_dot_rev (s : str) : last_dot (rev s) = negb (no_leading_dot s).
Proof.
  destruct s as [|c s]; [reflexivity|]. simpl rev.
  rewrite last_dot_snoc. simpl. rewrite negb_involutive. reflexivity.
Qed.

Lemma no_double_dot_snoc (l : str) (x : ascii) :
  no_double_dot (l ++ [x]) =
  no_double_dot l && negb (last_dot l && chr_eqb x dot).
Proof.
  induction l as [|c l IH]; [reflexivity|].
  destruct l as [|d l].
  - simpl. rewrite !andb_true_r. reflexivity.
  - change (no_double_dot ((c :: d :: l) ++ [x]))
      with (negb (chr_eqb c dot && chr_eqb d dot)
            && no_double_dot ((d :: l) ++ [x])).
    rewrite IH.
    change (no_double_dot (c :: d :: l))
      with (negb (chr_eqb c dot && chr_eqb d dot) && no_double_dot (d :: l)).
    change (last_dot (c :: d :: l)) with (last_dot (d :: l)).
    rewrite andb_assoc. reflexivity.
Qed.

Lemma no_double_dot_rev (s : str) : no_double_dot (rev s) = no_double_dot s.
Proof.
  induction s as [|c s IH]; [reflexivity|].
  simpl rev. rewrite no_double_dot_snoc, IH, last_dot_rev.
  destruct s as [|d s].
  - simpl. reflexivity.
  - change (no_double_dot (c :: d :: s))
      with (negb (chr_eqb c dot && chr_eqb d dot) && no_double_dot (d :: s)).
    simpl no_leading_dot. rewrite negb_involutive.
    rewrite andb_comm. f_equal. f_equal. apply andb_comm.
Qed.

Lemma strip_trailing_no_double_dot (s : str) :
  no_double_dot s = true -> no_double_dot (strip_trailing_dot s) = true.
Proof.
  intros H. unfold strip_trailing_dot. rewrite no_double_dot_rev.
  apply strip_leading_no_double_dot. rewrite no_double_dot_rev. assumption.
Qed.

Lemma strip_trailing_last_dot (s : str) :
  no_double_dot s = true -> last_dot (strip_trailing_dot s) = false.
Proof.
  intros H. unfold strip_trailing_dot. rewrite last_dot_rev.
  rewrite strip_leading_no_leading_dot; [reflexivity|].
  rewrite no_double_dot_rev. assumption.
Qed.

Lemma strip_trailing_no_leading_dot (s : str) :
  no_leading_dot s = true -> no_leading_dot (strip_trailing_dot s) = true.
Proof.
  intros H. destruct s as [|c s]; [reflexivity|].
  destruct s as [|d s].
  - rewrite strip_trailing_single. destruct (chr_eqb c dot); [reflexivity|assumption].
  - rewrite strip_trailing_cons by discriminate. exact H.
Qed.

Lemma strip_trailing_fixed (s : str) :
  last_dot s = false -> strip_trailing_dot s = s.
Proof.
  destruct s as [|c s] using rev_ind; [reflexivity|].
  rewrite last_dot_snoc, strip_trailing_snoc. intros ->. reflexivity.
Qed.

Lemma strip_leading_fixed (s : str) :
  no_leading_dot s = true -> strip_leading_dot s = s.
Proof.
  destruct s as [|c s]; [reflexivity|]. simpl.
  intros H. apply negb_true_iff in H. rewrite H. reflexivity.
Qed.

(** The output of the pipeline is well shaped. *)
Lemma sanitize_spec_shape (s : str) : well_shaped (sanitize_spec s) = true.
Proof.
  unfold sanitize_spec, strip_edge_dots.
  set (k := keep_digits_dots (spaces_to_dots (strip_upload_id s))).
  pose proof (collapse_alphabet k (keep_alphabet _)) as Ha.
  pose proof (collapse_no_double_dot k) as Hd.
  set (c := collapse_dots k) in *.
  unfold well_shaped.
  rewrite strip_trailing_alphabet by (apply strip_leading_alphabet; exact Ha).
  rewrite strip_trailing_no_double_dot
    by (apply strip_leading_no_double_dot; exact Hd).
  rewrite strip_trailing_no_leading_dot
    by (apply strip_leading_no_leading_dot; exact Hd).
  rewrite strip_trailing_last_dot
    by (apply strip_leading_no_double_dot; exact Hd).
  reflexivity.
Qed.

Lemma well_shaped_parts (s : str) :
  well_shaped s = true ->
  forallb digit_or_dot s = true /\ no_double_dot s = true /\
  no_leading_dot s = true /\ last_dot s = false.
Proof.
  unfold well_shaped. intros H.
  repeat (apply andb_true_iff in H; destruct H as [H ?]).
  repeat split; try assumption. apply negb_true_iff. assumption.
Qed.

Lemma digit_or_dot_not (c x : ascii) :
  digit_or_dot x = false -> digit_or_dot c = true -> chr_eqb c x = false.
Proof.
  intros Hx Hc. destruct (chr_eqb c x) eqn:E; [|reflexivity].
  apply chr_eqb_eq in E. subst. congruence.
Qed.

(** A well-shaped string goes through the pipeline unchanged. *)
Lemma well_shaped_fixed (s : str) :
  well_shaped s = true -> sanitize_spec s = s.
Proof.
  intros H. destruct (well_shaped_parts s H) as [Ha [Hd [Hl Ht]]].
  unfold sanitize_spec.
  assert (E1 : strip_upload_id s = s).
  { unfold strip_upload_id, Re.sub. apply sub_from_no_match.
    intros st k. unfold Re.pat_upload_id.
    destruct (skipn k s) as [|c r] eqn:Ek; [reflexivity|].
    assert (Hc : In c s).
    { rewrite <- (firstn_skipn k s). apply in_or_app. right.
      rewrite Ek. left. reflexivity. }
    rewrite forallb_forall in Ha. specialize (Ha c Hc).
    rewrite (digit_or_dot_not c underscore eq_refl Ha). reflexivity. }
  assert (E2 : spaces_to_dots s = s).
  { unfold spaces_to_dots. rewrite <- (map_id s) at 2. apply map_ext_in.
    intros c Hc. rewrite forallb_forall in Ha. specialize (Ha c Hc).
    rewrite (digit_or_dot_not c space eq_refl Ha). reflexivity. }
  assert (E3 : keep_digits_dots s = s).
  { unfold keep_digits_dots. clear -Ha. induction s as [|c s IH]; [reflexivity|].
    simpl in Ha. apply andb_true_iff in Ha. destruct Ha as [Hc Hs].
    simpl. unfold digit_or_dot in Hc. rewrite Hc. f_equal. apply IH. assumption. }
  rewrite E1, E2, E3, (no_double_dot_fixed s Hd).
  unfold strip_edge_dots.
  rewrite (strip_leading_fixed s Hl). apply strip_trailing_fixed. assumption.
Qed.

(** The fold over [re_replacements] is the pipeline. *)
Lemma sanitize_is_pipeline (s : str) : sanitize s = sanitize_spec s.
Proof.
  unfold sanitize, sanitize_spec, re_replacements. cbn [fold_left fst snd].
  change (Re.sub Re.pat_upload_id [] s) with (strip_upload_id s).
  rewrite (sub_space true (strip_upload_id s) : Re.sub _ _ _ = _).
  rewrite (sub_not_digit_dot true _ : Re.sub _ _ _ = _).
  rewrite (sub_dots true _ : Re.sub _ _ _ = _).
  apply sub_edge. apply collapse_alphabet, keep_alphabet.
Qed.

End SanitizerShape.

(* ===================================================================== *)
(** * [sorted(..., reverse=True)] and [min] *)
(* ===================================================================== *)

Section SortedFacts.

Context {A K : Type}.
Variable key : A -> K.
Variable lt : K -> K -> bool.

(** [lt] is a strict weak order. *)
Hypothesis lt_asym : forall x y, lt x y = true -> lt y x = false.
Hypothesis lt_negtrans :
  forall x y z, lt x y = false -> lt y z = false -> lt x z = false.

Lemma insert_reverse_perm (x : A) (l : list A) :
  Permutation (insert_reverse key lt x l) (x :: l).
Proof.
  induction l as [|y l IH]; simpl.
  - apply Permutation_refl.
  - destruct (lt (key x) (key y)).
    + apply perm_trans with (y :: x :: l).
      * apply perm_skip. exact IH.
      * apply perm_swap.
    + apply Permutation_refl.
Qed.

Lemma sorted_reverse_perm (l : list A) :
  Permutation (sorted_reverse key lt l) l.
Proof.
  induction l as [|x l IH]; simpl.
  - apply Permutation_refl.
  - apply perm_trans with (x :: sorted_reverse key lt l).
    + apply insert_reverse_perm.
    + apply perm_skip. exact IH.
Qed.

Lemma insert_reverse_sorted (x : A) (l : list A) :
  StronglySorted (not_below key lt) l ->
  StronglySorted (not_below key lt) (insert_reverse key lt x l).
Proof.
  induction l as [|y l IH]; intros Hs; simpl.
  - constructor; constructor.
  - inversion Hs as [|? ? Hs' Hall]; subst.
    destruct (lt (key x) (key y)) eqn:E.
    + constructor.
      * apply IH. exact Hs'.
      * apply Forall_forall. intros z Hz.
        apply (Permutation_in _ (insert_reverse_perm x l)) in Hz.
        destruct Hz as [<- | Hz].
        -- apply lt_asym. exact E.
        -- rewrite Forall_forall in Hall. apply Hall. exact Hz.
    + constructor.
      * exact Hs.
      * constructor.
        -- exact E.
        -- apply Forall_forall. intros z Hz.
           rewrite Forall_forall in Hall.
           apply (lt_negtrans _ (key y)); [exact E | apply Hall; exact Hz].
Qed.

(** The result is in descending order of the keys. *)
Lemma sorted_reverse_sorted (l : list A) :
  StronglySorted (not_below key lt) (sorted_reverse key lt l).
Proof.
  induction l as [|x l IH]; simpl.
  - constructor.
  - apply insert_reverse_sorted. exact IH.
Qed.

Lemma insert_reverse_stable (k : K) (x : A) (l : list A) :
  filter (same_key key lt k) (insert_reverse key lt x l) = filter (same_key key lt k) (x :: l).
Proof.
  induction l as [|y l IH]; [reflexivity|].
  simpl insert_reverse. destruct (lt (key x) (key y)) eqn:E; [|reflexivity].
  simpl filter in *. rewrite IH.
  destruct (same_key key lt k x) eqn:Ex; [|reflexivity].
  assert (Ey : same_key key lt k y = false).
  { unfold same_key in *. apply andb_true_iff in Ex. destruct Ex as [E1 E2].
    apply negb_true_iff in E1, E2.
    destruct (lt (key y) k) eqn:F1; [reflexivity|].
    destruct (lt k (key y)) eqn:F2; [rewrite andb_false_r; reflexivity|].
    rewrite (lt_negtrans _ _ _ E1 F2) in E. discriminate. }
  rewrite Ey. reflexivity.
Qed.

(** The sort is stable: the elements of one rank keep their order. *)
Lemma sorted_reverse_stable (k : K) (l : list A) :
  filter (same_key key lt k) (sorted_reverse key lt l) = filter (same_key key lt k) l.
Proof.
  induction l as [|x l IH]; [reflexivity|].
  simpl sorted_reverse. rewrite insert_reverse_stable.
  simpl. rewrite IH. reflexivity.
Qed.

(** [min] returns an element of its argument that none is below, and the
    first such one. *)
Lemma min_from_in (best : A) (l : list A) :
  In (min_from key lt best l) (best :: l).
Proof.
  revert best. induction l as [|x l IH]; intros best; simpl.
  - left. reflexivity.
  - destruct (lt (key x) (key best)).
    + right. apply IH.
    + destruct (IH best) as [H | H]; [left; exact H | right; right; exact H].
Qed.

Lemma lt_irrefl (k : K) : lt k k = false.
Proof.
  destruct (lt k k) eqn:E; [|reflexivity].
  rewrite (lt_asym _ _ E) in E. discriminate.
Qed.

Lemma min_from_least (best : A) (l : list A) :
  forall y, In y (best :: l) -> not_below key lt y (min_from key lt best l).
Proof.
  unfold not_below. revert best. induction l as [|x l IH]; intros best y Hy.
  - destruct Hy as [<- | []]. apply lt_irrefl.
  - simpl. destruct (lt (key x) (key best)) eqn:E.
    + destruct Hy as [<- | Hy].
      * apply (lt_negtrans _ (key x)).
        -- apply lt_asym. exact E.
        -- apply IH. left. reflexivity.
      * apply IH. exact Hy.
    + destruct Hy as [<- | [<- | Hy]].
      * apply IH. left. reflexivity.
      * apply (lt_negtrans _ (key best)); [exact E|].
        apply IH. left. reflexivity.
      * apply IH. right. exact Hy.
Qed.

End SortedFacts.

(* ===================================================================== *)
(** * Dictionaries *)
(* ===================================================================== *)

Section DictFacts.

Context {V : Type}.
Implicit Types (d : dict V) (k : str) (v : V).

Lemma keys_dict_set d k' v' k :
  In k (keys (dict_set d k' v')) <-> In k (keys d) \/ k = k'.
Proof.
  induction d as [|[k0 v0] d IH]; simpl.
  - split; [intros [H | []]; right; congruence | intros [[] | ->]; left; reflexivity].
  - destruct (str_eqb k0 k') eqn:E; simpl.
    + apply str_eqb_eq in E. subst k0. split; [tauto|].
      intros [H | ->]; [exact H | left; reflexivity].
    + unfold keys in IH. rewrite IH. tauto.
Qed.

Lemma dict_set_fresh d k v :
  ~ In k (keys d) -> dict_set d k v = d ++ [(k, v)].
Proof.
  induction d as [|[k0 v0] d IH]; simpl; intros H; [reflexivity|].
  destruct (str_eqb k0 k) eqn:E.
  - apply str_eqb_eq in E. subst k0. exfalso. apply H. left. reflexivity.
  - rewrite IH; [reflexivity|]. intros Hin. apply H. right. exact Hin.
Qed.

Lemma dict_set_nodup d k v :
  NoDup (keys d) -> NoDup (keys (dict_set d k v)).
Proof.
  induction d as [|[k0 v0] d IH]; simpl; intros H.
  - constructor; [intros [] | constructor].
  - inversion H as [|? ? Hn Hd]; subst.
    destruct (str_eqb k0 k) eqn:E; simpl.
    + constructor; assumption.
    + constructor; [|apply IH; exact Hd].
      intros Hin. apply keys_dict_set in Hin. destruct Hin as [Hin | ->].
      * apply Hn. exact Hin.
      * rewrite str_eqb_refl in E. discriminate.
Qed.

Lemma dict_set_in d k' v' k v :
  In (k, v) (dict_set d k' v') -> (k = k' /\ v = v') \/ In (k, v) d.
Proof.
  induction d as [|[k0 v0] d IH]; simpl.
  - intros [H | []]. left. inversion H. split; reflexivity.
  - destruct (str_eqb k0 k') eqn:E; simpl.
    + apply str_eqb_eq in E. subst k0.
      intros [H | H]; [left; inversion H; split; reflexivity | right; right; exact H].
    + intros [H | H]; [right; left; exact H |].
      destruct (IH H) as [H' | H']; [left; exact H' | right; right; exact H'].
Qed.

Lemma dict_set_same d k v : In (k, v) (dict_set d k v).
Proof.
  induction d as [|[k0 v0] d IH]; simpl.
  - left. reflexivity.
  - destruct (str_eqb k0 k) eqn:E; simpl.
    + apply str_eqb_eq in E. subst k0. left. reflexivity.
    + right. exact IH.
Qed.

Lemma dict_of_items_from (items acc : list (str * V)) :
  NoDup (keys (acc ++ items)) ->
  fold_left (fun d kv => dict_set d (fst kv) (snd kv)) items acc = acc ++ items.
Proof.
  revert acc. induction items as [|[k v] items IH]; intros acc H; simpl.
  - rewrite app_nil_r. reflexivity.
  - assert (Hk : ~ In k (keys acc)).
    { unfold keys in *. rewrite map_app in H. simpl in H.
      apply NoDup_remove_2 in H. intros Hin. apply H.
      apply in_or_app. left. exact Hin. }
    rewrite (dict_set_fresh acc k v Hk).
    rewrite IH; rewrite <- app_assoc; [reflexivity | exact H].
Qed.

(** [dict(items)] keeps items whose keys are all different as they are. *)
Lemma dict_of_items_nodup (items : list (str * V)) :
  NoDup (keys items) -> dict_of_items items = items.
Proof. intros H. apply (dict_of_items_from items []). exact H. Qed.

Lemma dict_get_in d k v :
  NoDup (keys d) -> In (k, v) d -> dict_get d k = Some v.
Proof.
  induction d as [|[k0 v0] d IH]; simpl; intros Hn Hin; [contradiction|].
  inversion Hn as [|? ? Hk Hd]; subst.
  destruct Hin as [H | H].
  - inversion H; subst. rewrite str_eqb_refl. reflexivity.
  - destruct (str_eqb k0 k) eqn:E.
    + apply str_eqb_eq in E. subst k0. exfalso. apply Hk.
      unfold keys. apply (in_map fst) in H. exact H.
    + apply IH; assumption.
Qed.

Lemma dict_get_some d k v : dict_get d k = Some v -> In (k, v) d.
Proof.
  induction d as [|[k0 v0] d IH]; simpl; [discriminate|].
  destruct (str_eqb k0 k) eqn:E.
  - apply str_eqb_eq in E. subst k0. intros H. inversion H. left. reflexivity.
  - intros H. right. apply IH. exact H.
Qed.

(** A dictionary filled by [d[k] = f(k)] for the [k] of a list. *)
Lemma dict_filled (f : str -> V) (l : list str) (acc : dict V) :
  NoDup (keys acc) ->
  (forall k v, In (k, v) acc -> v = f k) ->
  let d := fold_left (fun d k => dict_set d k (f k)) l acc in
  NoDup (keys d) /\
  (forall k v, In (k, v) d -> v = f k /\ (In k (keys acc) \/ In k l)) /\
  (forall k, In k (keys acc) \/ In k l -> In (k, f k) d).
Proof.
  revert acc. induction l as [|x l IH]; intros acc Hn Hf; simpl.
  - repeat split.
    + exact Hn.
    + apply Hf. exact H.
    + left. unfold keys. apply (in_map fst) in H. exact H.
    + intros k [Hk | []]. unfold keys in Hk. apply in_map_iff in Hk.
      destruct Hk as [[k' v'] [<- Hin]]. simpl.
      rewrite <- (Hf _ _ Hin). exact Hin.
  - assert (Hf' : forall k v, In (k, v) (dict_set acc x (f x)) -> v = f k).
    { intros k v H. apply dict_set_in in H. destruct H as [[-> ->] | H];
        [reflexivity | apply Hf; exact H]. }
    destruct (IH (dict_set acc x (f x)) (dict_set_nodup acc x (f x) Hn) Hf')
      as [A [B C]].
    repeat split.
    + exact A.
    + apply (B k v H).
    + destruct (B k v H) as [_ [Hk | Hk]].
      * apply keys_dict_set in Hk. destruct Hk as [Hk | ->];
          [left; exact Hk | right; left; reflexivity].
      * right. right. exact Hk.
    + intros k Hk. apply C. rewrite keys_dict_set.
      destruct Hk as [Hk | [-> | Hk]]; [left; left; exact Hk | left; right; reflexivity
                                       | right; exact Hk].
Qed.

End DictFacts.

(* ===================================================================== *)
(** * The order of the scores and of the versions *)
(* ===================================================================== *)

Section OrderFacts.

Import Kappa.

Lemma q_ltb_asym (x y : Q) : q_ltb x y = true -> q_ltb y x = false.
Proof.
  unfold q_ltb. intros H. apply negb_true_iff in H. apply negb_false_iff.
  apply Qle_bool_iff. destruct (Qlt_le_dec x y) as [Hlt | Hle].
  - apply Qlt_le_weak. exact Hlt.
  - apply Qle_bool_iff in Hle. congruence.
Qed.

Lemma q_ltb_negtrans (x y z : Q) :
  q_ltb x y = false -> q_ltb y z = false -> q_ltb x z = false.
Proof.
  unfold q_ltb. intros H1 H2. apply negb_false_iff in H1, H2.
  apply negb_false_iff. apply Qle_bool_iff in H1, H2. apply Qle_bool_iff.
  apply (Qle_trans _ y); assumption.
Qed.

Lemma q_ltb_false (x y : Q) : q_ltb x y = false <-> (y <= x)%Q.
Proof.
  unfold q_ltb. rewrite negb_false_iff. apply Qle_bool_iff.
Qed.

Import Packaging.

Lemma tuple_compare_refl (x : list N) : tuple_compare x x = Eq.
Proof.
  induction x as [|n x IH]; simpl; [reflexivity|].
  rewrite N.compare_refl. exact IH.
Qed.

Lemma tuple_compare_eq (x y : list N) : tuple_compare x y = Eq -> x = y.
Proof.
  revert y. induction x as [|n x IH]; intros [|m y]; simpl; try discriminate.
  - reflexivity.
  - destruct (N.compare n m) eqn:E; try discriminate.
    apply N.compare_eq in E. subst m. intros H. f_equal. apply IH. exact H.
Qed.

Lemma tuple_compare_antisym (x y : list N) :
  tuple_compare y x = CompOpp (tuple_compare x y).
Proof.
  revert y. induction x as [|n x IH]; intros [|m y]; simpl; try reflexivity.
  rewrite (N.compare_antisym n m).
  destruct (N.compare n m); simpl; [apply IH | reflexivity | reflexivity].
Qed.

Lemma tuple_compare_lt_trans (x y z : list N) :
  tuple_compare x y = Lt -> tuple_compare y z = Lt -> tuple_compare x z = Lt.
Proof.
  revert y z. induction x as [|n x IH]; intros [|m y] [|o z]; simpl;
    try discriminate; try reflexivity.
  destruct (N.compare n m) eqn:E1; destruct (N.compare m o) eqn:E2;
    try discriminate; intros H1 H2.
  - apply N.compare_eq in E1, E2. subst. rewrite N.compare_refl.
    apply (IH y z); assumption.
  - apply N.compare_eq in E1. subst. rewrite E2. reflexivity.
  - apply N.compare_eq in E2. subst. rewrite E1. reflexivity.
  - rewrite N.compare_lt_iff in E1, E2.
    assert (E : (n ?= o)%N = Lt) by (apply N.compare_lt_iff; lia).
    rewrite E. reflexivity.
Qed.

Lemma compare_antisym (v w : version) : compare w v = CompOpp (compare v w).
Proof.
  destruct v, w; simpl; try reflexivity. apply tuple_compare_antisym.
Qed.

(** [v <= w]: [w] is not below [v]. *)
Lemma compare_le_trans (u v w : version) :
  compare u v <> Gt -> compare v w <> Gt -> compare u w <> Gt.
Proof.
  destruct u as [s1|r1], v as [s2|r2], w as [s3|r3]; simpl;
    try congruence.
  intros H1 H2.
  destruct (tuple_compare (release_key r1) (release_key r2)) eqn:E1;
    [| |congruence];
    destruct (tuple_compare (release_key r2) (release_key r3)) eqn:E2;
    try congruence.
  - apply tuple_compare_eq in E1. rewrite E1, E2. discriminate.
  - apply tuple_compare_eq in E1. rewrite E1, E2. discriminate.
  - apply tuple_compare_eq in E2. rewrite <- E2, E1. discriminate.
  - rewrite (tuple_compare_lt_trans _ _ _ E1 E2). discriminate.
Qed.

Lemma version_ltb_asym (v w : version) : ltb v w = true -> ltb w v = false.
Proof.
  unfold ltb. rewrite (compare_antisym v w).
  destruct (compare v w); simpl; congruence.
Qed.

Lemma version_ltb_negtrans (u v w : version) :
  ltb u v = false -> ltb v w = false -> ltb u w = false.
Proof.
  unfold ltb. intros H1 H2.
  assert (A : compare w v <> Gt).
  { rewrite (compare_antisym v w). destruct (compare v w); simpl; congruence. }
  assert (B : compare v u <> Gt).
  { rewrite (compare_antisym u v). destruct (compare u v); simpl; congruence. }
  pose proof (compare_le_trans _ _ _ A B) as C.
  rewrite (compare_antisym u w) in C.
  destruct (compare u w); simpl in *; congruence.
Qed.

End OrderFacts.

(* ===================================================================== *)
(** * A string compared with itself has ratio 1 *)
(* ===================================================================== *)

Lemma j2len_prev_le (f g : nat -> nat) (j : nat) :
  (forall x, f x <= g x) -> Difflib.j2len_prev f j <= Difflib.j2len_prev g j.
Proof. intros H. destruct j; simpl; [lia | apply H]. Qed.

Lemma j2len_prev_bound (f : nat -> nat) (m j : nat) :
  (forall x, f x <= m) -> Difflib.j2len_prev f j <= m.
Proof. intros H. destruct j; simpl; [lia | apply H]. Qed.

Section SelfRatio.

Import Difflib.

Variable s : str.

Let n := length s.

Lemma indices_from_in (c : ascii) (t : str) (i0 j : nat) :
  In j (indices_from c i0 t) <->
  i0 <= j /\ j < i0 + length t /\ chr_at t (j - i0) = c.
Proof.
  revert i0. induction t as [|d t IH]; intros i0; simpl.
  - split; [intros [] | intros [H1 [H2 _]]; lia].
  - assert (Hstep : In j (indices_from c (S i0) t) <->
                    S i0 <= j /\ j < i0 + S (length t) /\
                    chr_at (d :: t) (j - i0) = c).
    { rewrite IH. unfold chr_at. split.
      - intros [H1 [H2 H3]]. repeat split; try lia.
        replace (j - i0) with (S (j - S i0)) by lia. exact H3.
      - intros [H1 [H2 H3]]. repeat split; try lia.
        replace (j - i0) with (S (j - S i0)) in H3 by lia. exact H3. }
    destruct (chr_eqb d c) eqn:E.
    + simpl. rewrite Hstep. apply chr_eqb_eq in E. subst d. split.
      * intros [<- | [H1 [H2 H3]]].
        -- repeat split; try lia. unfold chr_at. rewrite Nat.sub_diag. reflexivity.
        -- repeat split; try lia. exact H3.
      * intros [H1 [H2 H3]]. destruct (Nat.eq_dec i0 j) as [-> | Hne];
          [left; reflexivity | right]. repeat split; try lia. exact H3.
    + rewrite Hstep. split.
      * intros [H1 [H2 H3]]. repeat split; try lia. exact H3.
      * intros [H1 [H2 H3]]. repeat split; try lia; try exact H3.
        destruct (Nat.eq_dec i0 j) as [-> | Hne]; [|lia].
        unfold chr_at in H3. rewrite Nat.sub_diag in H3. simpl in H3.
        subst d. rewrite chr_eqb_refl in E. discriminate.
Qed.

Lemma indices_from_sorted (c : ascii) (t : str) (i0 : nat) :
  StronglySorted lt (indices_from c i0 t).
Proof.
  revert i0. induction t as [|d t IH]; intros i0; simpl.
  - constructor.
  - destruct (chr_eqb d c).
    + constructor; [apply IH|]. apply Forall_forall. intros j Hj.
      apply indices_from_in in Hj. lia.
    + apply IH.
Qed.

Lemma run_live (j : nat) : live s j = true -> run s j = j2len_prev (run s) j + 1.
Proof. destruct j; simpl; intros ->; simpl; lia. Qed.

Lemma run_dead (j : nat) : live s j = false -> run s j = 0.
Proof. destruct j; simpl; intros ->; reflexivity. Qed.

Lemma run_le (j : nat) : run s j <= S j.
Proof.
  induction j as [|j IH]; simpl.
  - destruct (live s 0); lia.
  - destruct (live s (S j)); lia.
Qed.

Lemma scan_row_inv (i : nat) (j2len : nat -> nat) :
  live s i = true ->
  (forall j, j2len j <= run s j) ->
  (forall j, j2len j <= j2len_prev (run s) i) ->
  j2len_prev j2len i = j2len_prev (run s) i ->
  forall js newj2len best,
    (forall j, In j js -> j < n /\ live s j = true) ->
    row_inv s i js newj2len best ->
    let '(new', best') := scan_row 0 n i j2len js newj2len best in
    row_inv s i [] new' best'.
Proof.
  intros Hlive H1 H2 H3.
  pose proof (run_live i Hlive) as Hri.
  induction js as [|j js IH]; intros newj2len best Hjs Hinv.
  - simpl. destruct best as [[bi bj] bs]. simpl in *.
    destruct Hinv as (A & B & C & D & E & F). repeat split; assumption.
  - simpl. destruct (Hjs j (or_introl eq_refl)) as [Hjn Hjl].
    assert (Hbrk : (n <=? j) = false) by (apply Nat.leb_gt; exact Hjn).
    rewrite Hbrk.
    destruct best as [[bi bj] bs].
    set (k := j2len_prev j2len j + 1).
    assert (Hkj : k <= run s j).
    { unfold k. rewrite (run_live j Hjl).
      pose proof (j2len_prev_le j2len (run s) j H1). lia. }
    assert (Hki : k <= run s i).
    { unfold k. rewrite Hri.
      pose proof (j2len_prev_bound j2len _ j H2). lia. }
    destruct Hinv as (A & B & C & D & E & F).
    apply IH.
    + intros j' Hj'. apply Hjs. right. exact Hj'.
    + destruct (Nat.eq_dec j i) as [-> | Hne].
      * (* the diagonal *)
        assert (Hk : k = run s i) by (unfold k; rewrite H3, Hri; reflexivity).
        pose proof (run_le i) as Hle.
        destruct (bs <? k) eqn:Eb.
        -- apply Nat.ltb_lt in Eb. simpl. repeat split; try lia.
           ++ intros j' Hj'. specialize (C j' Hj'). lia.
           ++ intros x. destruct (x =? i) eqn:Ex; [|apply D].
              apply Nat.eqb_eq in Ex. subst x. lia.
           ++ intros x. destruct (x =? i) eqn:Ex; [lia | apply E].
           ++ right. rewrite Nat.eqb_refl. lia.
        -- apply Nat.ltb_ge in Eb. simpl. repeat split; try assumption.
           ++ intros x. destruct (x =? i) eqn:Ex; [|apply D].
              apply Nat.eqb_eq in Ex. subst x. lia.
           ++ intros x. destruct (x =? i) eqn:Ex; [lia | apply E].
           ++ right. rewrite Nat.eqb_refl. lia.
      * (* off the diagonal: the best block stays *)
        assert (Hnb : (bs <? k) = false).
        { apply Nat.ltb_ge. destruct F as [[Hin Hs] | [_ F]]; [|lia].
          destruct Hin as [Hin | Hin]; [congruence|].
          inversion Hs as [|? ? _ Hall]; subst.
          rewrite Forall_forall in Hall. specialize (Hall i Hin).
          specialize (C j Hall). lia. }
        rewrite Hnb. simpl. repeat split; try assumption.
        -- intros x. destruct (x =? j) eqn:Ex; [|apply D].
           apply Nat.eqb_eq in Ex. subst x. exact Hkj.
        -- intros x. destruct (x =? j) eqn:Ex; [exact Hki | apply E].
        -- destruct F as [[Hin Hs] | F].
           ++ left. destruct Hin as [Hin | Hin]; [congruence|].
              split; [exact Hin|]. inversion Hs; assumption.
           ++ right. destruct (i =? j) eqn:Ex.
              ** apply Nat.eqb_eq in Ex. congruence.
              ** exact F.
Qed.

Lemma live_lt (i : nat) :
  i < n -> live s i = negb (popular s (chr_at s i)).
Proof.
  intros H. unfold live. fold n. apply Nat.ltb_lt in H. rewrite H. reflexivity.
Qed.

Lemma scan_rows_inv (m : nat) :
  forall i j2len best,
    i + m <= n -> rows_inv s i j2len best ->
    forall bi bj bs,
      scan_rows s s 0 n (seq i m) j2len best = (bi, bj, bs) ->
      bi = bj /\ bi + bs <= i + m.
Proof.
  induction m as [|m IH]; intros i j2len best Hle Hinv bi bj bs Hres.
  - simpl in Hres. subst best. simpl in Hinv. split; [apply Hinv | lia].
  - simpl in Hres.
    assert (Hi : i < n) by lia.
    pose proof (live_lt i Hi) as Hlv.
    destruct best as [[bi0 bj0] bs0].
    destruct Hinv as (A & B & C & D & E & F).
    destruct (scan_row 0 n i j2len (b2j s (chr_at s i)) (fun _ => 0) (bi0, bj0, bs0))
      as [new' best'] eqn:Erow.
    assert (Hnext : rows_inv s (S i) new' best').
    { unfold b2j in Erow.
      destruct (popular s (chr_at s i)) eqn:Ep.
      - simpl in Erow. inversion Erow; subst new' best'. simpl in Hlv.
        pose proof (run_dead i Hlv) as Hr0. simpl.
        repeat split; try assumption; try lia.
        intros j' Hj'. destruct (Nat.eq_dec j' i) as [-> | Hne]; [lia|].
        apply C. lia.
      - simpl in Hlv.
        pose proof (scan_row_inv i j2len Hlv D E F
                      (indices_from (chr_at s i) 0 s) (fun _ => 0) (bi0, bj0, bs0))
          as Hrow.
        rewrite Erow in Hrow.
        assert (Hjs : forall j, In j (indices_from (chr_at s i) 0 s) ->
                                j < n /\ live s j = true).
        { intros j Hj. apply indices_from_in in Hj. destruct Hj as (_ & Hj & Hc).
          rewrite Nat.sub_0_r in Hc. simpl in Hj. split; [exact Hj|].
          rewrite (live_lt j Hj), Hc, Ep. reflexivity. }
        assert (Hstart : row_inv s i (indices_from (chr_at s i) 0 s) (fun _ => 0)
                                 (bi0, bj0, bs0)).
        { simpl. repeat split; try assumption; try lia.
          left. split; [|apply indices_from_sorted].
          apply indices_from_in. rewrite Nat.sub_0_r. simpl.
          repeat split; [lia | exact Hi]. }
        specialize (Hrow Hjs Hstart).
        destruct best' as [[bi1 bj1] bs1]. simpl in Hrow.
        destruct Hrow as (A' & B' & C' & D' & E' & F').
        destruct F' as [[[] _] | [F1 F2]].
        simpl. repeat split; try assumption.
        intros j' Hj'. destruct (Nat.eq_dec j' i) as [-> | Hne]; [exact F2|].
        apply C'. lia. }
    replace (i + S m) with (S i + m) by lia.
    apply (IH (S i) new' best'); [lia | exact Hnext | exact Hres].
Qed.

Lemma extend_left_self (bi bs : nat) :
  extend_left s s 0 0 bi bi bs = (0, 0, bs + bi).
Proof.
  revert bs. induction bi as [|bi IH]; intros bs; simpl.
  - rewrite Nat.add_0_r. reflexivity.
  - rewrite Nat.sub_0_r, chr_eqb_refl. simpl. rewrite IH. f_equal. lia.
Qed.

Lemma extend_right_self (room bs : nat) :
  bs + room = n -> extend_right s s room n n 0 0 bs = n.
Proof.
  revert bs. induction room as [|room IH]; intros bs H; simpl.
  - lia.
  - assert (Hlt : (bs <? n) = true) by (apply Nat.ltb_lt; lia).
    rewrite Hlt, chr_eqb_refl. simpl. apply IH. lia.
Qed.

(** Against itself, a string is one matching block. *)
Lemma find_longest_match_self : find_longest_match s s 0 n 0 n = (0, 0, n).
Proof.
  unfold find_longest_match. rewrite Nat.sub_0_r.
  destruct (scan_rows s s 0 n (seq 0 n) (fun _ => 0) (0, 0, 0))
    as [[bi bj] bs] eqn:E.
  assert (Hinv : rows_inv s 0 (fun _ => 0) (0, 0, 0)).
  { simpl. repeat split; try lia. }
  destruct (scan_rows_inv n 0 _ _ (Nat.le_refl _) Hinv bi bj bs E) as [-> Hle].
  rewrite extend_left_self. simpl Nat.add.
  rewrite extend_right_self; [reflexivity | lia].
Qed.

Lemma matches_self : matches s s = n.
Proof.
  unfold matches, get_matching_blocks. fold n. simpl matching_blocks.
  rewrite find_longest_match_self.
  destruct (n =? 0) eqn:E.
  - apply Nat.eqb_eq in E. rewrite E. reflexivity.
  - simpl Nat.add. rewrite Nat.ltb_irrefl. simpl. lia.
Qed.

Lemma ratio_self : (ratio s s == 1)%Q.
Proof.
  unfold ratio. rewrite matches_self. fold n.
  destruct (n + n =? 0) eqn:E; [reflexivity|].
  apply Nat.eqb_neq in E. unfold Qeq. simpl Qnum. simpl Qden.
  rewrite Z.mul_1_r, Z.mul_1_l.
  destruct (n + n) as [|k] eqn:Ek; [congruence|].
  replace (2 * n) with (S k) by lia.
  rewrite <- Pos.of_nat_succ. lia.
Qed.

End SelfRatio.

(* ===================================================================== *)
(** * The windows of [get_matching_blocks] shrink *)
(* ===================================================================== *)

Section MatchingBlocksDepth.

Import Difflib.

Variables a b : str.

(** What holds of [j2len] and of the best block inside row [i] of the
    window that starts at [alo]. *)
Lemma scan_row_bounds (alo blo bhi i : nat) (j2len : nat -> nat) :
  alo <= i ->
  (forall j, j2len j <= i - alo) ->
  forall js newj2len bi bj bs,
    alo <= bi -> bi + bs <= S i ->
    forall new' bi' bj' bs',
      scan_row blo bhi i j2len js newj2len (bi, bj, bs) = (new', (bi', bj', bs')) ->
      (forall j, newj2len j <= S i - alo) ->
      (forall j, new' j <= S i - alo) /\ alo <= bi' /\ bi' + bs' <= S i.
Proof.
  intros Hi Hj. induction js as [|j js IH]; intros newj2len bi bj bs Hb1 Hb2
                                                  new' bi' bj' bs' Hres Hnew.
  - simpl in Hres. inversion Hres; subst. repeat split; assumption.
  - simpl in Hres. destruct (j <? blo).
    + apply (IH newj2len bi bj bs Hb1 Hb2 _ _ _ _ Hres Hnew).
    + destruct (bhi <=? j).
      * inversion Hres; subst. repeat split; assumption.
      * assert (Hk : j2len_prev j2len j + 1 <= S i - alo).
        { pose proof (j2len_prev_bound j2len (i - alo) j Hj). lia. }
        destruct (bs <? j2len_prev j2len j + 1) eqn:Eb.
        -- refine (IH _ _ _ _ _ _ _ _ _ _ Hres _); [lia | lia |].
           intros x. destruct (x =? j); [exact Hk | apply Hnew].
        -- refine (IH _ _ _ _ Hb1 Hb2 _ _ _ _ Hres _).
           intros x. destruct (x =? j); [exact Hk | apply Hnew].
Qed.

Lemma scan_rows_bounds (alo blo bhi m : nat) :
  forall i j2len bi bj bs,
    alo <= i -> (forall j, j2len j <= i - alo) ->
    alo <= bi -> bi + bs <= i ->
    forall bi' bj' bs',
      scan_rows a b blo bhi (seq i m) j2len (bi, bj, bs) = (bi', bj', bs') ->
      alo <= bi' /\ bi' + bs' <= i + m.
Proof.
  induction m as [|m IH]; intros i j2len bi bj bs Hi Hj Hb1 Hb2 bi' bj' bs' Hres.
  - simpl in Hres. inversion Hres; subst. lia.
  - simpl in Hres.
    destruct (scan_row blo bhi i j2len (b2j b (chr_at a i)) (fun _ => 0) (bi, bj, bs))
      as [new' [[bi1 bj1] bs1]] eqn:Erow.
    assert (Hb2' : bi + bs <= S i) by lia.
    assert (Hzero : forall j : nat, (fun _ : nat => 0) j <= S i - alo)
      by (intros; lia).
    destruct (scan_row_bounds alo blo bhi i j2len Hi Hj _ _ bi bj bs Hb1
                              Hb2' _ _ _ _ Erow Hzero)
      as (A & B & C).
    replace (i + S m) with (S i + m) by lia.
    assert (Hi' : alo <= S i) by lia.
    exact (IH (S i) new' bi1 bj1 bs1 Hi' A B C bi' bj' bs' Hres).
Qed.

Lemma extend_left_bounds (alo blo : nat) :
  forall bi bj bs bi' bj' bs',
    alo <= bi ->
    extend_left a b alo blo bi bj bs = (bi', bj', bs') ->
    alo <= bi' /\ bi' + bs' = bi + bs.
Proof.
  induction bi as [|bi IH]; intros bj bs bi' bj' bs' Hb Hres; simpl in Hres.
  - inversion Hres; subst. lia.
  - destruct ((alo <? S bi) && (blo <? bj)
              && chr_eqb (chr_at a bi) (chr_at b (bj - 1))) eqn:E.
    + apply andb_true_iff in E. destruct E as [E _].
      apply andb_true_iff in E. destruct E as [E _]. apply Nat.ltb_lt in E.
      destruct (IH _ _ _ _ _ ltac:(lia) Hres). lia.
    + inversion Hres; subst. lia.
Qed.

Lemma extend_right_bounds (ahi bhi bi bj : nat) :
  forall room bs,
    bi + bs <= ahi ->
    bs <= extend_right a b room ahi bhi bi bj bs /\
    bi + extend_right a b room ahi bhi bi bj bs <= ahi.
Proof.
  induction room as [|room IH]; intros bs Hb; simpl.
  - lia.
  - destruct ((bi + bs <? ahi) && (bj + bs <? bhi)
              && chr_eqb (chr_at a (bi + bs)) (chr_at b (bj + bs))) eqn:E.
    + apply andb_true_iff in E. destruct E as [E _].
      apply andb_true_iff in E. destruct E as [E _]. apply Nat.ltb_lt in E.
      destruct (IH (bs + 1) ltac:(lia)). lia.
    + lia.
Qed.

(** The block found in a window of [a] lies in that window. *)
Lemma find_longest_match_bounds (alo ahi blo bhi i j k : nat) :
  alo <= ahi ->
  find_longest_match a b alo ahi blo bhi = (i, j, k) ->
  alo <= i /\ i + k <= ahi.
Proof.
  intros Hw. unfold find_longest_match.
  destruct (scan_rows a b blo bhi (seq alo (ahi - alo)) (fun _ => 0) (alo, blo, 0))
    as [[bi bj] bs] eqn:Es.
  assert (Hzero : forall j : nat, (fun _ : nat => 0) j <= alo - alo)
    by (intros; simpl; lia).
  assert (Hstart : alo + 0 <= alo) by lia.
  destruct (scan_rows_bounds alo blo bhi (ahi - alo) alo (fun _ => 0) alo blo 0
                             (Nat.le_refl _) Hzero (Nat.le_refl _)
                             Hstart _ _ _ Es) as [A B].
  destruct (extend_left a b alo blo bi bj bs) as [[bi1 bj1] bs1] eqn:El.
  destruct (extend_left_bounds alo blo _ _ _ _ _ _ A El) as [C D].
  intros H. inversion H; subst.
  assert (Hroom : i + bs1 <= ahi) by lia.
  destruct (extend_right_bounds ahi bhi i j (ahi - (i + bs1)) bs1 Hroom).
  lia.
Qed.

(** The depth given to [matching_blocks] is never used up: any depth above
    the length of the window gives the same blocks. *)
Lemma matching_blocks_depth (d : nat) :
  forall d' alo ahi blo bhi,
    alo <= ahi -> ahi - alo < d -> ahi - alo < d' ->
    matching_blocks a b d alo ahi blo bhi = matching_blocks a b d' alo ahi blo bhi.
Proof.
  induction d as [|d IH]; intros d' alo ahi blo bhi Hw Hd Hd'; [lia|].
  destruct d' as [|d']; [lia|]. simpl.
  destruct (find_longest_match a b alo ahi blo bhi) as [[i j] k] eqn:E.
  destruct (find_longest_match_bounds _ _ _ _ _ _ _ Hw E) as [A B].
  destruct (k =? 0) eqn:Ek; [reflexivity|]. apply Nat.eqb_neq in Ek.
  f_equal. f_equal.
  - destruct ((i + k <? ahi) && (j + k <? bhi)); [|reflexivity].
    apply IH; lia.
  - destruct ((alo <? i) && (blo <? j)); [|reflexivity].
    apply IH; lia.
Qed.

Lemma get_matching_blocks_depth (d : nat) :
  length a < d ->
  matching_blocks a b d 0 (length a) 0 (length b) = get_matching_blocks a b.
Proof.
  intros H. unfold get_matching_blocks. apply matching_blocks_depth; lia.
Qed.

End MatchingBlocksDepth.

(* ===================================================================== *)
(** * Parsing a sanitized version *)
(* ===================================================================== *)

Section VersionFacts.

Import Sanitizer Packaging.

Lemma parse_release_shape (s : str) :
  forall cur,
    forallb digit_or_dot s = true -> no_double_dot s = true ->
    last_dot s = false ->
    (cur = None -> no_leading_dot s = true /\ s <> []) ->
    exists release, parse_release cur s = Some release.
Proof.
  induction s as [|c s IH]; intros cur Ha Hd Hl Hc.
  - destruct cur as [n|].
    + exists [n]. reflexivity.
    + destruct (Hc eq_refl) as [_ H]. congruence.
  - simpl in Ha. apply andb_true_iff in Ha. destruct Ha as [Hca Hsa].
    pose proof (no_double_dot_tail c s Hd) as Hd'.
    assert (Hl' : s <> [] -> last_dot s = false).
    { intros Hs. destruct s; [congruence | exact Hl]. }
    cbn [parse_release]. destruct (is_digit c) eqn:Edig.
    + destruct s as [|e s'].
      * eexists. reflexivity.
      * apply (IH _ Hsa Hd' (Hl' ltac:(discriminate))). discriminate.
    + unfold digit_or_dot in Hca. rewrite Edig in Hca. simpl in Hca.
      rewrite Hca. destruct cur as [n|].
      * destruct s as [|e s'].
        -- simpl in Hl. congruence.
        -- assert (He : chr_eqb e dot = false).
           { change (no_double_dot (c :: e :: s'))
               with (negb (chr_eqb c dot && chr_eqb e dot)
                     && no_double_dot (e :: s')) in Hd.
             apply andb_true_iff in Hd. destruct Hd as [Hd _].
             rewrite Hca in Hd. simpl in Hd. apply negb_true_iff. exact Hd. }
           destruct (IH None Hsa Hd' (Hl' ltac:(discriminate))) as [r Hr].
           { intros _. split; [|discriminate]. simpl. rewrite He. reflexivity. }
           rewrite Hr. eexists. reflexivity.
      * destruct (Hc eq_refl) as [Hlead _]. simpl in Hlead.
        rewrite Hca in Hlead. discriminate.
Qed.

(** A sanitized version is empty or parses as a release. *)
Lemma parse_sanitized (pkg : str) :
  sanitize pkg = [] \/ exists release, parse (sanitize pkg) = Version release.
Proof.
  rewrite sanitize_is_pipeline.
  destruct (well_shaped_parts _ (sanitize_spec_shape pkg)) as (Ha & Hd & Hld & Hl).
  destruct (sanitize_spec pkg) as [|c s] eqn:E; [left; reflexivity | right].
  destruct (parse_release_shape (c :: s) None Ha Hd Hl) as [r Hr].
  - intros _. split; [exact Hld | discriminate].
  - exists r. unfold parse. rewrite Hr. reflexivity.
Qed.

(** *** The key of a release and semantic-version comparison *)

Lemma dropwhile_snoc {A : Type} (f : A -> bool) (l : list A) (x : A) :
  dropwhile f (l ++ [x]) =
  match dropwhile f l with
  | [] => if f x then [] else [x]
  | l' => l' ++ [x]
  end.
Proof.
  induction l as [|y l IH]; simpl.
  - reflexivity.
  - destruct (f y); [exact IH | reflexivity].
Qed.

Lemma release_key_cons (n : N) (r : list N) :
  release_key (n :: r) =
  match release_key r with
  | [] => if (0 =? n)%N then [] else [n]
  | k => n :: k
  end.
Proof.
  unfold release_key. simpl rev. rewrite dropwhile_snoc.
  destruct (dropwhile (N.eqb 0) (rev r)) as [|y l] eqn:E.
  - cbn [rev app]. destruct (0 =? n)%N; reflexivity.
  - rewrite rev_app_distr. simpl.
    destruct (rev l ++ [y]) eqn:E2; [|reflexivity].
    destruct (rev l); discriminate.
Qed.

Lemma zeros_compare_key (r : list N) :
  zeros_compare r = match release_key r with [] => Eq | _ :: _ => Lt end.
Proof.
  induction r as [|n r IH]; [reflexivity|].
  rewrite release_key_cons. cbn [zeros_compare].
  destruct n as [|p].
  - change (0 ?= 0)%N with Eq. change (0 =? 0)%N with true.
    rewrite IH. destruct (release_key r); reflexivity.
  - change (0 ?= N.pos p)%N with Lt. change (0 =? N.pos p)%N with false.
    destruct (release_key r); reflexivity.
Qed.

Lemma tuple_compare_nil_l (k : list N) :
  tuple_compare [] k = match k with [] => Eq | _ :: _ => Lt end.
Proof. destruct k; reflexivity. Qed.

Lemma tuple_compare_nil_r (k : list N) :
  tuple_compare k [] = match k with [] => Eq | _ :: _ => Gt end.
Proof. destruct k; reflexivity. Qed.

Lemma tuple_compare_cons (n m : N) (x y : list N) :
  tuple_compare (n :: x) (m :: y) =
  match (n ?= m)%N with
  | Eq => tuple_compare x y
  | o => o
  end.
Proof. reflexivity. Qed.

(** Comparing the keys of two releases is comparing the releases
    component by component, missing components being 0. *)
Lemma release_key_semver (x y : list N) :
  tuple_compare (release_key x) (release_key y) = semver_compare x y.
Proof.
  revert y. induction x as [|n x IH]; intros y.
  - change (release_key []) with (@nil N). rewrite tuple_compare_nil_l.
    cbn [semver_compare]. rewrite zeros_compare_key. reflexivity.
  - destruct y as [|m y].
    + change (release_key []) with (@nil N). rewrite tuple_compare_nil_r.
      cbn [semver_compare]. rewrite zeros_compare_key.
      destruct (release_key (n :: x)); reflexivity.
    + cbn [semver_compare]. rewrite <- IH. rewrite !release_key_cons.
      destruct (n ?= m)%N eqn:E.
      * apply N.compare_eq in E. subst m.
        destruct (release_key x) as [|a kx], (release_key y) as [|b ky];
          destruct (0 =? n)%N eqn:E0;
          rewrite ?tuple_compare_cons, ?N.compare_refl,
                  ?tuple_compare_nil_l, ?tuple_compare_nil_r;
          reflexivity.
      * assert (Hm : (0 =? m)%N = false) by
          (apply N.eqb_neq; rewrite N.compare_lt_iff in E; lia).
        rewrite Hm.
        destruct (release_key x) as [|a kx], (release_key y) as [|b ky];
          destruct (0 =? n)%N;
          rewrite ?tuple_compare_cons, ?E, ?tuple_compare_nil_l; reflexivity.
      * assert (Hn : (0 =? n)%N = false) by
          (apply N.eqb_neq; rewrite N.compare_gt_iff in E; lia).
        rewrite Hn.
        destruct (release_key x) as [|a kx], (release_key y) as [|b ky];
          destruct (0 =? m)%N;
          rewrite ?tuple_compare_cons, ?E, ?tuple_compare_nil_r; reflexivity.
Qed.

End VersionFacts.

(* ===================================================================== *)
(** * The stages of the dynamic lookup *)
(* ===================================================================== *)

Section LookupFacts.

Import Kappa.

Variable self : processor.

Lemma fold_left_items {V : Type} (f : str -> V) (l : list str) (acc : dict V) :
  fold_left (fun d kv => dict_set d (fst kv) (snd kv))
            (map (fun k => (k, f k)) l) acc =
  fold_left (fun d k => dict_set d k (f k)) l acc.
Proof.
  revert acc. induction l as [|x l IH]; intros acc; simpl; [reflexivity|].
  apply IH.
Qed.

(** [similarity_scores] holds every package name once, with its score. *)
Lemma similarity_scores_spec :
  NoDup (keys (similarity_scores self)) /\
  (forall pkg r, In (pkg, r) (similarity_scores self) ->
                 r = score self pkg /\ In pkg (all_pkg_names self)) /\
  (forall pkg, In pkg (all_pkg_names self) ->
               In (pkg, score self pkg) (similarity_scores self)).
Proof.
  destruct (dict_filled (score self) (all_pkg_names self) [])
    as [A [B C]]; [constructor | intros k v [] |].
  repeat split.
  - exact A.
  - apply (B pkg r H).
  - destruct (B pkg r H) as [_ [[] | Hin]]. exact Hin.
  - intros pkg Hin. apply C. right. exact Hin.
Qed.

Lemma sorted_keys_nodup {V K : Type} (key : str * V -> K) (lt : K -> K -> bool)
    (d : dict V) :
  NoDup (keys d) -> NoDup (keys (sorted_reverse key lt d)).
Proof.
  intros H. unfold keys in *.
  apply (Permutation_NoDup (l := map fst d)); [|exact H].
  apply Permutation_map, Permutation_sym, sorted_reverse_perm.
Qed.

(** Sorting leaves a dictionary: no key is lost or repeated. *)
Lemma sorted_similar_pkgs_eq :
  sorted_similar_pkgs self = sorted_reverse snd q_ltb (similarity_scores self).
Proof.
  unfold sorted_similar_pkgs. apply dict_of_items_nodup.
  apply sorted_keys_nodup. apply similarity_scores_spec.
Qed.

Lemma sorted_similar_pkgs_in (pkg : str) (r : Q) :
  In (pkg, r) (sorted_similar_pkgs self) <-> In (pkg, r) (similarity_scores self).
Proof.
  rewrite sorted_similar_pkgs_eq. split; intros H.
  - apply (Permutation_in _ (sorted_reverse_perm snd q_ltb _)). exact H.
  - apply (Permutation_in _ (Permutation_sym (sorted_reverse_perm snd q_ltb _))).
    exact H.
Qed.

Lemma sorted_similar_pkgs_nodup : NoDup (keys (sorted_similar_pkgs self)).
Proof.
  rewrite sorted_similar_pkgs_eq. apply sorted_keys_nodup.
  apply similarity_scores_spec.
Qed.

(** The similarity filter: the package names of the catalog that score at
    least the limit. *)
Lemma possible_pkgs_in (pkg : str) :
  In pkg (possible_pkgs self) <->
  In pkg (all_pkg_names self) /\ Qle_bool ratio_limit (score self pkg) = true.
Proof.
  destruct similarity_scores_spec as [_ [B C]].
  unfold possible_pkgs. rewrite filter_In. split.
  - intros [Hk Hr]. unfold keys in Hk. apply in_map_iff in Hk.
    destruct Hk as [[k r] [Hfst Hin]]. simpl in Hfst. subst k.
    rewrite (dict_get_in _ _ _ sorted_similar_pkgs_nodup Hin) in Hr.
    apply sorted_similar_pkgs_in in Hin. destruct (B _ _ Hin) as [-> Hn].
    split; assumption.
  - intros [Hn Hr]. pose proof (C pkg Hn) as Hin.
    apply sorted_similar_pkgs_in in Hin. split.
    + unfold keys. apply in_map_iff. exists (pkg, score self pkg).
      split; [reflexivity | exact Hin].
    + rewrite (dict_get_in _ _ _ sorted_similar_pkgs_nodup Hin). exact Hr.
Qed.

(** [pkgs_versions] holds each name once, with its sanitized version. *)
Lemma pkgs_versions_spec (pkgs : list str) :
  NoDup (keys (pkgs_versions pkgs)) /\
  (forall pkg vers, In (pkg, vers) (pkgs_versions pkgs) ->
                    vers = Sanitizer.sanitize pkg /\ In pkg pkgs) /\
  (forall pkg, In pkg pkgs ->
               In (pkg, Sanitizer.sanitize pkg) (pkgs_versions pkgs)).
Proof.
  unfold pkgs_versions, dict_of_items. rewrite fold_left_items.
  destruct (dict_filled Sanitizer.sanitize pkgs [])
    as [A [B C]]; [constructor | intros k v [] |].
  repeat split.
  - exact A.
  - apply (B pkg vers H).
  - destruct (B pkg vers H) as [_ [[] | Hin]]. exact Hin.
  - intros pkg Hin. apply C. right. exact Hin.
Qed.

Lemma pkgs_versions_sorted_eq (pkgs : list str) :
  pkgs_versions_sorted pkgs =
  sorted_reverse (fun k => Packaging.parse (snd k)) Packaging.ltb
                 (pkgs_versions pkgs).
Proof.
  unfold pkgs_versions_sorted. apply dict_of_items_nodup.
  apply sorted_keys_nodup. apply pkgs_versions_spec.
Qed.

(** *** What the lookup returns is in the catalog *)

Lemma pick_custom_app_in (sorted : dict str) (provided : option str)
    (app : custom_app) :
  pick_custom_app self sorted provided = Ok app -> In app (custom_apps self).
Proof.
  unfold pick_custom_app. destruct sorted as [|[first vers] rest]; [discriminate|].
  destruct (if 1 <? length (highest_vers ((first, vers) :: rest) vers)
            then oldest_app _ else Ok first) as [name|e]; [|discriminate].
  cbn [bind].
  set (entries := filter (fun a => contains name (file_key a)) (custom_apps self)).
  assert (Hsub : forall l, (forall a, In a l -> In a (custom_apps self)) ->
                           match l with
                           | custom_app :: _ => Ok custom_app
                           | [] => Raise StopIteration
                           end = Ok app -> In app (custom_apps self)).
  { intros [|a l] Hl H; [discriminate|]. inversion H; subst. apply Hl. left. reflexivity. }
  apply Hsub.
  assert (He : forall a, In a entries -> In a (custom_apps self)).
  { intros a Ha. apply filter_In in Ha. apply Ha. }
  destruct (1 <? length entries); [|exact He].
  destruct provided as [p|]; [|exact He].
  intros a Ha. apply filter_In in Ha. apply He. apply Ha.
Qed.

Lemma find_lib_item_dynamic_in (possible_apps : list custom_app) (app : custom_app) :
  _find_lib_item_dynamic self possible_apps = Ok (Found app) ->
  In app (custom_apps self).
Proof.
  unfold _find_lib_item_dynamic.
  destruct (scoped_pkgs self possible_apps) as [pkgs provided].
  destruct (pick_custom_app self (pkgs_versions_sorted pkgs) provided)
    as [a|[|]] eqn:E; try discriminate.
  intros H. inversion H; subst. apply (pick_custom_app_in _ _ _ E).
Qed.

Lemma app_picker_in (app : custom_app) :
  In app (app_picker self) ->
  In app (custom_apps self) /\ name app = custom_app_name self.
Proof.
  unfold app_picker. rewrite filter_In. intros [H1 H2].
  apply str_eqb_eq in H2. split; [exact H1 | symmetry; exact H2].
Qed.

Lemma find_lib_item_match_in (app : custom_app) :
  _find_lib_item_match self = Ok (Found app) -> In app (custom_apps self).
Proof.
  unfold _find_lib_item_match.
  destruct (app_picker self) as [|a picked] eqn:Ep.
  - destruct (default_auto_create self); [discriminate|].
    destruct (default_dynamic_lookup self); [|discriminate].
    apply find_lib_item_dynamic_in.
  - assert (Hin : forall x, In x (a :: picked) -> In x (custom_apps self)).
    { intros x Hx. rewrite <- Ep in Hx. apply app_picker_in. exact Hx. }
    destruct (1 <? length (a :: picked)).
    + destruct (narrows self) as [cat|].
      * destruct (app_picker_by_ss cat (a :: picked)) as [|b [|c l]] eqn:Es.
        -- destruct (default_dynamic_lookup self);
             [apply find_lib_item_dynamic_in|].
           destruct (mapM report (a :: picked)); discriminate.
        -- intros H. inversion H; subst. apply Hin.
           assert (Hb : In app (app_picker_by_ss cat (a :: picked)))
             by (rewrite Es; left; reflexivity).
           unfold app_picker_by_ss in Hb. apply filter_In in Hb. apply Hb.
        -- destruct (default_dynamic_lookup self);
             [apply find_lib_item_dynamic_in|].
           destruct (mapM report (a :: picked)); discriminate.
      * destruct (default_dynamic_lookup self);
          [apply find_lib_item_dynamic_in|].
        destruct (mapM report (a :: picked)); discriminate.
    + intros H. inversion H; subst. apply Hin. left. reflexivity.
Qed.

End LookupFacts.

(* ===================================================================== *)
(** * The stages, each on its own *)
(* ===================================================================== *)

Section StageFacts.

Import Kappa.

Lemma pat_upload_id_cons (st : bool) (c : ascii) (rest : str) :
  Re.pat_upload_id st (c :: rest) =
  if chr_eqb c underscore
     && (length (firstn 8 rest) =? 8)
     && forallb is_word (firstn 8 rest)
     && Re.lookahead_any_pkg (skipn 8 rest)
  then Some 9 else None.
Proof. reflexivity. Qed.

(** Step (1) of the sanitizer on a name made of a stem without underscore,
    an underscore, eight word characters and [.pkg]: the underscore and
    the eight characters go. *)
Lemma strip_upload_id_suffix (stem ident : str) :
  ~ In underscore stem -> length ident = 8 -> forallb is_word ident = true ->
  Sanitizer.strip_upload_id (stem ++ underscore :: ident ++ dot_pkg)
  = stem ++ dot_pkg.
Proof.
  intros Hstem Hlen Hword. unfold Sanitizer.strip_upload_id, Re.sub.
  assert (Hf : firstn 8 (ident ++ dot_pkg) = ident).
  { rewrite <- Hlen. rewrite firstn_app, Nat.sub_diag, firstn_O, app_nil_r.
    apply firstn_all. }
  assert (Hs : skipn 8 (ident ++ dot_pkg) = dot_pkg).
  { rewrite <- Hlen. rewrite skipn_app, Nat.sub_diag, skipn_all. reflexivity. }
  generalize true as st. induction stem as [|c stem IH]; intros st.
  - cbn [app]. rewrite sub_from_cons, pat_upload_id_cons.
    rewrite Hf, Hs, Hlen, Hword, chr_eqb_refl.
    change (Re.lookahead_any_pkg dot_pkg) with true.
    cbn [andb Nat.eqb]. cbv iota. rewrite Hs. reflexivity.
  - cbn [app]. rewrite sub_from_cons, pat_upload_id_cons.
    assert (Hc : chr_eqb c underscore = false).
    { apply chr_eqb_neq. intros ->. apply Hstem. left. reflexivity. }
    rewrite Hc. cbn [andb]. cbv iota.
    f_equal. apply IH. intros Hin. apply Hstem. right. exact Hin.
Qed.

(** *** The oldest of the tied packages *)

Lemma pair_ltb_asym (x y : Z * Z) : pair_ltb x y = true -> pair_ltb y x = false.
Proof.
  destruct x as [x1 x2], y as [y1 y2]. unfold pair_ltb. simpl.
  destruct (Z.ltb_spec x1 y1), (Z.eqb_spec x1 y1), (Z.ltb_spec x2 y2),
    (Z.ltb_spec y1 x1), (Z.eqb_spec y1 x1), (Z.ltb_spec y2 x2);
    simpl; intros; try reflexivity; try discriminate; lia.
Qed.

Lemma pair_ltb_negtrans (x y z : Z * Z) :
  pair_ltb x y = false -> pair_ltb y z = false -> pair_ltb x z = false.
Proof.
  destruct x as [x1 x2], y as [y1 y2], z as [z1 z2]. unfold pair_ltb. simpl.
  destruct (Z.ltb_spec x1 y1), (Z.eqb_spec x1 y1), (Z.ltb_spec x2 y2),
    (Z.ltb_spec y1 z1), (Z.eqb_spec y1 z1), (Z.ltb_spec y2 z2),
    (Z.ltb_spec x1 z1), (Z.eqb_spec x1 z1), (Z.ltb_spec x2 z2);
    simpl; intros; try reflexivity; try discriminate; lia.
Qed.

Lemma mapM_ok {A B : Type} (f : A -> result B) (l : list A) (ys : list B) :
  mapM f l = Ok ys -> Forall2 (fun x y => f x = Ok y) l ys.
Proof.
  revert ys. induction l as [|x l IH]; intros ys H; simpl in H.
  - inversion H. constructor.
  - destruct (f x) as [y|e] eqn:Ef; [|discriminate]. simpl in H.
    destruct (mapM f l) as [ys'|e]; [|discriminate]. simpl in H.
    inversion H; subst. constructor; [exact Ef | apply IH; reflexivity].
Qed.

(** [min] over the tied packages: the package returned has the earliest
    upload and, among those uploaded at that instant, the earliest
    modification; every time was read by [parse_dt]. *)
Lemma oldest_app_minimal (updated : dict (str * str)) (oldest : str) :
  oldest_app updated = Ok oldest ->
  exists keyed o,
    Forall2 (fun entry k =>
               fst k = fst entry /\
               parse_dt (fst (snd entry)) = Ok (fst (snd k)) /\
               parse_dt (snd (snd entry)) = Ok (snd (snd k)))
            updated keyed /\
    In o keyed /\ fst o = oldest /\
    forall y, In y keyed -> pair_ltb (snd y) (snd o) = false.
Proof.
  unfold oldest_app. intros H.
  destruct (mapM age_key updated) as [keyed|e] eqn:Em; [|discriminate].
  simpl in H. destruct keyed as [|k0 keyed]; [discriminate|]. simpl in H.
  inversion H as [Ho]. exists (k0 :: keyed), (min_from snd pair_ltb k0 keyed).
  repeat split.
  - apply mapM_ok in Em. revert Em. apply Forall2_impl.
    intros [pkg [up md]] k Hk. unfold age_key in Hk. simpl in Hk.
    destruct (parse_dt up) as [u|e] eqn:Eu; [|discriminate]. simpl in Hk.
    destruct (parse_dt md) as [m|e] eqn:Emd; [|discriminate]. simpl in Hk.
    inversion Hk; subst. simpl. repeat split; assumption.
  - apply min_from_in.
  - intros y Hy.
    apply (min_from_least snd pair_ltb pair_ltb_asym pair_ltb_negtrans k0 keyed y Hy).
Qed.

(** *** Several hits by name *)

(** With several hits, the category resolves the lookup exactly when one
    hit is left by it; otherwise all the hits go to the dynamic lookup, or
    into the report of the duplicates. *)
Lemma several_hits (self : processor) :
  1 < length (app_picker self) ->
  let picked := app_picker self in
  let survivors :=
    match narrows self with
    | Some cat => app_picker_by_ss cat picked
    | None => []
    end in
  _find_lib_item_match self =
  match survivors with
  | [app] => Ok (Found app)
  | _ =>
      if default_dynamic_lookup self then _find_lib_item_dynamic self picked
      else bind (mapM report picked) (fun reported => Ok (ReturnNone reported))
  end.
Proof.
  intros Hlen. cbv zeta. unfold _find_lib_item_match.
  destruct (app_picker self) as [|a l]; [simpl in Hlen; lia|].
  apply Nat.ltb_lt in Hlen. rewrite Hlen.
  destruct (narrows self) as [cat|]; [|reflexivity].
  destruct (app_picker_by_ss cat (a :: l)) as [|b [|c r]]; reflexivity.
Qed.

(** The report of the duplicates lists every hit, when each was created on
    a fraction of a second. *)
Lemma report_all (picked : list custom_app) :
  (forall app, In app picked ->
               exists dt, Datetime.strptime (created_at app) Datetime.fmt_fraction
                          = Ok dt) ->
  exists reported,
    mapM report picked = Ok reported /\ map dup_id reported = map id picked.
Proof.
  induction picked as [|a l IH]; intros H.
  - exists []. split; reflexivity.
  - destruct (H a (or_introl eq_refl)) as [dt Hdt].
    destruct IH as [r [Hr Hid]]; [intros app Hin; apply H; right; exact Hin|].
    eexists. simpl. unfold report at 1. rewrite Hdt. simpl. rewrite Hr. simpl.
    split; [reflexivity|]. simpl. rewrite Hid. reflexivity.
Qed.

End StageFacts.

(** *** The scenarios of section 8 *)

Example scenario_category :
  Kappa._find_lib_item_match Scenarios.two_chromes
  = Ok (Kappa.Found Scenarios.chrome_self_service).
Proof. vm_compute. reflexivity. Qed.

Example scenario_newest_version :
  Kappa._find_lib_item_match Scenarios.two_versions
  = Ok (Kappa.Found Scenarios.app_130).
Proof. vm_compute. reflexivity. Qed.

Example scenario_no_match :
  Kappa.update_custom_app Scenarios.quoted_name_unknown = Ok Kappa.NoMatch.
Proof. vm_compute. reflexivity. Qed.

Example scenario_three_hits :
  exists reported,
    Kappa.update_custom_app Scenarios.three_chromes_fraction
    = Ok (Kappa.Ambiguous reported) /\ length reported = 3.
Proof. eexists. split; vm_compute; reflexivity. Qed.

Example scenario_tie_break :
  Kappa._find_lib_item_match Scenarios.two_uploads
  = Ok (Kappa.Found Scenarios.app_210_feb).
Proof. vm_compute. reflexivity. Qed.

(* ===================================================================== *)
(** * The sanitizer (sections 4.2 and 8) *)
(* ===================================================================== *)


(** C7: the version sanitizer is idempotent: applied to its own output it
    returns that output unchanged, for every string. *)
Theorem sanitize_idempotent (maybepkg : str) :
  Sanitizer.sanitize (Sanitizer.sanitize maybepkg) = Sanitizer.sanitize maybepkg.
Proof.
  rewrite (sanitize_is_pipeline maybepkg).
  rewrite sanitize_is_pipeline.
  apply well_shaped_fixed. apply sanitize_spec_shape.
Qed.

(* ===================================================================== *)
(** * The order of the versions (section 4.3) *)
(* ===================================================================== *)

(** C1: for every input of the version ordering, the step returns the
    candidates in descending order of their parsed sanitized versions and
    loses none; every sanitized version is either empty, and then below
    every release (the lowest possible version, no error), or a release that
    compares with any other by semantic-version comparison. *)
Theorem version_order_never_fails (pkgs : list str) :
  let sorted := Kappa.pkgs_versions_sorted pkgs in
  Permutation sorted (Kappa.pkgs_versions pkgs) /\
  StronglySorted
    (fun x y =>
       Packaging.ltb (Packaging.parse (snd x)) (Packaging.parse (snd y)) = false)
    sorted /\
  forall pkg vers,
    In (pkg, vers) sorted ->
    vers = Sanitizer.sanitize pkg /\
    ((vers = [] /\
      forall release,
        Packaging.compare (Packaging.parse vers) (Packaging.Version release) = Lt)
     \/
     (exists release,
        Packaging.parse vers = Packaging.Version release /\
        forall release',
          Packaging.compare (Packaging.Version release) (Packaging.Version release')
          = Packaging.semver_compare release release')).
Proof.
  intros sorted. unfold sorted. rewrite pkgs_versions_sorted_eq.
  split; [apply sorted_reverse_perm|]. split.
  - apply (sorted_reverse_sorted (fun k : str * str => Packaging.parse (snd k))
                                 Packaging.ltb).
    + apply version_ltb_asym.
    + apply version_ltb_negtrans.
  - intros pkg vers Hin.
    apply (Permutation_in _ (sorted_reverse_perm _ _ _)) in Hin.
    destruct (pkgs_versions_spec pkgs) as [_ [B _]].
    destruct (B pkg vers Hin) as [-> _]. split; [reflexivity|].
    destruct (parse_sanitized pkg) as [E | [release E]].
    + left. rewrite E. split; [reflexivity|]. intros release. reflexivity.
    + right. exists release. split; [exact E|].
      intros release'. apply release_key_semver.
Qed.

(* ===================================================================== *)
(** * The resolver (section 4.5) *)
(* ===================================================================== *)

Lemma app_picker_nil (self : Kappa.processor) :
  (forall app, In app (Kappa.custom_apps self) ->
               Kappa.name app <> Kappa.custom_app_name self) <->
  Kappa.app_picker self = [].
Proof.
  unfold Kappa.app_picker. split.
  - intros H. induction (Kappa.custom_apps self) as [|a l IH]; [reflexivity|].
    simpl. destruct (str_eqb (Kappa.custom_app_name self) (Kappa.name a)) eqn:E.
    + apply str_eqb_eq in E. exfalso. apply (H a); [left; reflexivity | congruence].
    + apply IH. intros app Hin. apply H. right. exact Hin.
  - intros H app Hin Hname.
    assert (Hp : In app (filter (fun a => str_eqb (Kappa.custom_app_name self)
                                                  (Kappa.name a))
                                (Kappa.custom_apps self))).
    { apply filter_In. split; [exact Hin|]. apply str_eqb_eq. congruence. }
    rewrite H in Hp. destruct Hp.
Qed.

(** C2: when no entry of the catalog has the target name, the resolver
    gives CreateNew if auto-create is on, whatever the dynamic-lookup flag;
    otherwise it goes on to the dynamic lookup if that flag is on; and with
    both flags off it gives NoMatch. *)
Theorem zero_hits_policy (self : Kappa.processor) :
  (forall app, In app (Kappa.custom_apps self) ->
               Kappa.name app <> Kappa.custom_app_name self) ->
  (Kappa.default_auto_create self = true ->
   Kappa._find_lib_item_match self = Ok Kappa.ReturnFalse /\
   Kappa.update_custom_app self = Ok Kappa.CreateNew) /\
  (Kappa.default_auto_create self = false ->
   Kappa.default_dynamic_lookup self = true ->
   Kappa._find_lib_item_match self = Kappa._find_lib_item_dynamic self []) /\
  (Kappa.default_auto_create self = false ->
   Kappa.default_dynamic_lookup self = false ->
   Kappa._find_lib_item_match self = Ok Kappa.ReturnFalse /\
   Kappa.update_custom_app self = Ok Kappa.NoMatch).
Proof.
  intros H. apply app_picker_nil in H.
  unfold Kappa.update_custom_app, Kappa._find_lib_item_match. rewrite H.
  repeat split; intros; repeat match goal with
                               | E : _ = true |- _ => rewrite E
                               | E : _ = false |- _ => rewrite E
                               end; reflexivity.
Qed.

Lemma zero_hits_policy_witness :
  (forall app, In app (Kappa.custom_apps Scenarios.tied_versions) ->
               Kappa.name app <> Kappa.custom_app_name Scenarios.tied_versions) /\
  Kappa._find_lib_item_match Scenarios.tied_versions =
  Kappa._find_lib_item_dynamic Scenarios.tied_versions [].
Proof.
  assert (H : forall app, In app (Kappa.custom_apps Scenarios.tied_versions) ->
                          Kappa.name app <> Kappa.custom_app_name Scenarios.tied_versions).
  { apply app_picker_nil. reflexivity. }
  split; [exact H|].
  apply (zero_hits_policy Scenarios.tied_versions H); reflexivity.
Defined.

(** C6: for every catalog and every combination of the policy flags, the
    resolver returns at most one custom app, and a custom app it returns is
    an element of the catalog it was given. *)
Theorem lookup_returns_catalog_entry (self : Kappa.processor) (app : Kappa.custom_app) :
  Kappa._find_lib_item_match self = Ok (Kappa.Found app) ->
  In app (Kappa.custom_apps self) /\
  Kappa.update_custom_app self = Ok (Kappa.Matched app) /\
  forall app', Kappa._find_lib_item_match self = Ok (Kappa.Found app') -> app' = app.
Proof.
  intros H. split; [apply find_lib_item_match_in; exact H|]. split.
  - unfold Kappa.update_custom_app. rewrite H. reflexivity.
  - intros app' H'. rewrite H in H'. inversion H'. reflexivity.
Qed.

Lemma lookup_returns_catalog_entry_witness :
  Kappa._find_lib_item_match Scenarios.with_disk_image
  = Ok (Kappa.Found Scenarios.firefox_pkg) /\
  In Scenarios.firefox_pkg (Kappa.custom_apps Scenarios.with_disk_image).
Proof.
  assert (H : Kappa._find_lib_item_match Scenarios.with_disk_image
              = Ok (Kappa.Found Scenarios.firefox_pkg)) by (vm_compute; reflexivity).
  split; [exact H|].
  apply (lookup_returns_catalog_entry Scenarios.with_disk_image
                                      Scenarios.firefox_pkg H).
Defined.

(* ===================================================================== *)
(** * The similarity ranking and filter (sections 4.1 and 4.5) *)
(* ===================================================================== *)

Section RankingFacts.

Import Kappa.

Lemma str_eqb_sym (a b : str) : str_eqb a b = str_eqb b a.
Proof.
  destruct (str_eqb a b) eqn:E1, (str_eqb b a) eqn:E2; try reflexivity.
  - apply str_eqb_eq in E1. subst. rewrite str_eqb_refl in E2. discriminate.
  - apply str_eqb_eq in E2. subst. rewrite str_eqb_refl in E1. discriminate.
Qed.

Lemma filter_and {A : Type} (p q : A -> bool) (l : list A) :
  filter p (filter q l) = filter (fun x => q x && p x) l.
Proof.
  induction l as [|x l IH]; simpl; [reflexivity|].
  destruct (q x); simpl; [|exact IH]. destruct (p x); rewrite IH; reflexivity.
Qed.

Lemma distinct_filter (g : str -> bool) (l : list str) :
  distinct (filter g l) = filter g (distinct l).
Proof.
  induction l as [|x l IH]; [reflexivity|]. simpl.
  destruct (g x) eqn:Eg; simpl.
  - rewrite IH, !filter_and. f_equal. apply filter_ext. intros y. apply andb_comm.
  - rewrite IH, filter_and. apply filter_ext_in. intros y _.
    destruct (str_eqb x y) eqn:E; [|reflexivity].
    apply str_eqb_eq in E. subst y. rewrite Eg. reflexivity.
Qed.

Lemma keys_dict_set_known {V : Type} (d : dict V) (k : str) (v : V) :
  existsb (str_eqb k) (keys d) = true -> keys (dict_set d k v) = keys d.
Proof.
  induction d as [|[k0 v0] d IH]; simpl; [discriminate|].
  rewrite str_eqb_sym. destruct (str_eqb k0 k) eqn:E; simpl; [reflexivity|].
  intros H. rewrite IH by exact H. reflexivity.
Qed.

Lemma existsb_not_in (k : str) (ks : list str) :
  existsb (str_eqb k) ks = false -> ~ In k ks.
Proof.
  intros H Hin. assert (E : exists x, In x ks /\ str_eqb k x = true).
  { exists k. split; [exact Hin | apply str_eqb_refl]. }
  apply existsb_exists in E. congruence.
Qed.

(** The keys of a dictionary filled in a loop are the keys it had, then
    the new ones in the order they first come. *)
Lemma keys_filled {V : Type} (f : str -> V) (l : list str) (acc : dict V) :
  keys (fold_left (fun d k => dict_set d k (f k)) l acc) =
  keys acc ++ distinct (filter (fun p => negb (existsb (str_eqb p) (keys acc))) l).
Proof.
  revert acc. induction l as [|x l IH]; intros acc; simpl.
  - rewrite app_nil_r. reflexivity.
  - rewrite IH. destruct (existsb (str_eqb x) (keys acc)) eqn:E; simpl.
    + rewrite (keys_dict_set_known acc x (f x) E). reflexivity.
    + rewrite (dict_set_fresh acc x (f x) (existsb_not_in _ _ E)).
      unfold keys at 1. rewrite map_app. simpl. rewrite <- app_assoc. simpl.
      f_equal. f_equal. rewrite !distinct_filter, filter_and.
      apply filter_ext. intros y. unfold keys. rewrite map_app, existsb_app.
      simpl. rewrite orb_false_r, negb_orb, (str_eqb_sym y x). reflexivity.
Qed.

(** The order of discovery: each package name at its first place in
    [all_pkg_names]. *)
Lemma similarity_scores_keys (self : processor) :
  keys (similarity_scores self) = distinct (all_pkg_names self).
Proof.
  unfold similarity_scores. rewrite keys_filled. simpl.
  f_equal. clear. induction (all_pkg_names self) as [|x l IH]; simpl; congruence.
Qed.

Lemma same_score (r : Q) (x : str * Q) :
  same_key snd q_ltb r x = Qeq_bool (snd x) r.
Proof.
  unfold same_key, q_ltb. rewrite !negb_involutive.
  destruct (Qeq_bool (snd x) r) eqn:E.
  - apply Qeq_bool_iff in E. apply andb_true_iff.
    split; apply Qle_bool_iff; rewrite E; apply Qle_refl.
  - destruct (Qle_bool r (snd x)) eqn:E1, (Qle_bool (snd x) r) eqn:E2;
      try reflexivity.
    apply Qle_bool_iff in E1, E2.
    pose proof (Qle_antisym _ _ E2 E1) as Heq.
    apply Qeq_bool_iff in Heq. congruence.
Qed.

Lemma StronglySorted_weaken {A : Type} (R R' : A -> A -> Prop) (l : list A) :
  (forall x y, R x y -> R' x y) -> StronglySorted R l -> StronglySorted R' l.
Proof.
  intros H Hs. induction Hs as [|x l Hs IH Hall]; constructor.
  - exact IH.
  - apply Forall_forall. intros y Hy. rewrite Forall_forall in Hall.
    apply H, Hall, Hy.
Qed.

(** [basename] keeps the extension. *)
Lemma endswith_basename (p : str) :
  endswith dot_pkg (basename p) = endswith dot_pkg p.
Proof.
  unfold endswith, basename. rewrite rev_involutive.
  generalize (rev p) as r. intros r.
  change (rev dot_pkg) with (lit "gkp.").
  destruct r as [|c1 r]; [reflexivity|]. cbn [take_until].
  destruct (chr_eqb c1 "/") eqn:E1.
  { apply chr_eqb_eq in E1. subst c1. reflexivity. }
  destruct r as [|c2 r]; [reflexivity|]. cbn [take_until].
  destruct (chr_eqb c2 "/") eqn:E2.
  { apply chr_eqb_eq in E2. subst c2. cbn. rewrite !andb_false_r. reflexivity. }
  destruct r as [|c3 r]; [reflexivity|]. cbn [take_until].
  destruct (chr_eqb c3 "/") eqn:E3.
  { apply chr_eqb_eq in E3. subst c3. cbn. rewrite !andb_false_r. reflexivity. }
  destruct r as [|c4 r]; [reflexivity|]. cbn [take_until].
  destruct (chr_eqb c4 "/") eqn:E4.
  { apply chr_eqb_eq in E4. subst c4. cbn. rewrite !andb_false_r. reflexivity. }
  cbn. reflexivity.
Qed.

Lemma all_pkg_names_in (self : processor) (pkg : str) :
  In pkg (all_pkg_names self) <->
  exists app, In app (custom_apps self) /\
              endswith dot_pkg (file_key app) = true /\
              basename (file_key app) = pkg.
Proof.
  unfold all_pkg_names. rewrite in_map_iff. split.
  - intros [app [Hb Hin]]. apply filter_In in Hin. exists app. tauto.
  - intros [app [Hin [He Hb]]]. exists app. split; [exact Hb|].
    apply filter_In. tauto.
Qed.

End RankingFacts.

(** C9: for every catalog and every name of the new package, the ranking
    is in non-increasing order of the scores, candidates of equal score
    keep the order in which they were discovered, and a candidate whose
    name without the upload identifier is the name of the new package has
    score 1. *)
Theorem similarity_ranking (self : Kappa.processor) :
  let ranked := Kappa.sorted_similar_pkgs self in
  StronglySorted (fun x y => (snd y <= snd x)%Q) ranked /\
  Permutation ranked (Kappa.similarity_scores self) /\
  keys (Kappa.similarity_scores self) = Kappa.distinct (Kappa.all_pkg_names self) /\
  (forall r,
     filter (fun x => Qeq_bool (snd x) r) ranked =
     filter (fun x => Qeq_bool (snd x) r) (Kappa.similarity_scores self)) /\
  (forall pkg r,
     In (pkg, r) ranked ->
     Sanitizer.strip_upload_id pkg = Kappa.pkg_name self -> (r == 1)%Q).
Proof.
  intros ranked. unfold ranked. rewrite sorted_similar_pkgs_eq.
  split; [|split; [|split; [|split]]].
  - apply (StronglySorted_weaken (not_below snd Kappa.q_ltb)).
    + intros x y H. apply q_ltb_false. exact H.
    + apply sorted_reverse_sorted; [apply q_ltb_asym | apply q_ltb_negtrans].
  - apply sorted_reverse_perm.
  - apply similarity_scores_keys.
  - intros r.
    rewrite (filter_ext _ (same_key snd Kappa.q_ltb r))
      by (intros x; symmetry; apply same_score).
    rewrite (filter_ext (fun x => Qeq_bool (snd x) r) (same_key snd Kappa.q_ltb r))
      by (intros x; symmetry; apply same_score).
    apply (sorted_reverse_stable snd Kappa.q_ltb q_ltb_negtrans).
  - intros pkg r Hin Hname.
    apply (Permutation_in _ (sorted_reverse_perm _ _ _)) in Hin.
    destruct (similarity_scores_spec self) as [_ [B _]].
    destruct (B pkg r Hin) as [-> _]. unfold Kappa.score.
    rewrite Hname. apply ratio_self.
Qed.

(** C5, as the specification states it, fails on a catalog that holds a disk
    image: the file name of the image scores 30/34 against the name of the
    new package, which is above the limit, and is no candidate. *)
Lemma similarity_filter_counterexample :
  In Scenarios.firefox_dmg (Kappa.custom_apps Scenarios.with_disk_image) /\
  ~ (In (basename (Kappa.file_key Scenarios.firefox_dmg))
        (Kappa.possible_pkgs Scenarios.with_disk_image)
     <->
     (Kappa.ratio_limit <=
      Kappa.score Scenarios.with_disk_image
                  (basename (Kappa.file_key Scenarios.firefox_dmg)))%Q).
Proof.
  split; [left; reflexivity|].
  intros [_ H].
  assert (Hs : (Kappa.ratio_limit <=
                Kappa.score Scenarios.with_disk_image
                            (basename (Kappa.file_key Scenarios.firefox_dmg)))%Q).
  { apply Qle_bool_iff. vm_compute. reflexivity. }
  specialize (H Hs). vm_compute in H.
  destruct H as [H | []]. discriminate H.
Qed.

(** C5 (amended): for every catalog, the package file name of an entry
    passes the similarity filter if and only if the [file_key] of the entry
    ends in [.pkg] and the file name, without the upload identifier, scores
    at least 0.85 against the file name of the new package. *)
Theorem similarity_filter_pkg_only (self : Kappa.processor) (app : Kappa.custom_app) :
  In app (Kappa.custom_apps self) ->
  (In (basename (Kappa.file_key app)) (Kappa.possible_pkgs self)
   <->
   endswith Kappa.dot_pkg (Kappa.file_key app) = true /\
   (Kappa.ratio_limit <= Kappa.score self (basename (Kappa.file_key app)))%Q).
Proof.
  intros Hin. rewrite possible_pkgs_in, all_pkg_names_in, Qle_bool_iff. split.
  - intros [[app' [_ [He Hb]]] Hs]. split; [|exact Hs].
    rewrite <- endswith_basename, <- Hb, endswith_basename. exact He.
  - intros [He Hs]. split; [|exact Hs]. exists app. tauto.
Qed.

Lemma similarity_filter_pkg_only_witness :
  In Scenarios.firefox_pkg (Kappa.custom_apps Scenarios.with_disk_image) /\
  In (basename (Kappa.file_key Scenarios.firefox_pkg))
     (Kappa.possible_pkgs Scenarios.with_disk_image).
Proof.
  assert (H : In Scenarios.firefox_pkg (Kappa.custom_apps Scenarios.with_disk_image))
    by (right; left; reflexivity).
  split; [exact H|].
  apply (similarity_filter_pkg_only Scenarios.with_disk_image Scenarios.firefox_pkg H).
  split; [reflexivity|]. apply Qle_bool_iff. vm_compute. reflexivity.
Defined.

(* ===================================================================== *)
(** * The escaped name (kandji_customize_create_update) *)
(* ===================================================================== *)

Section EscapeFacts.

Import Kappa.

Lemma escape_name_concat (s : str) :
  escape_name s =
  concat (map (fun c => if chr_eqb c quote then escaped_quote else [c]) s).
Proof.
  unfold escape_name. induction s as [|c s IH]; simpl; [reflexivity|].
  rewrite IH. reflexivity.
Qed.

Lemma escape_name_length (s : str) : length s <= length (escape_name s).
Proof.
  unfold escape_name. induction s as [|c s IH]; simpl; [lia|].
  rewrite length_app. destruct (chr_eqb c quote); simpl; lia.
Qed.

Lemma escape_name_longer (s : str) :
  In quote s -> length s < length (escape_name s).
Proof.
  induction s as [|c s IH]; intros H; [destruct H|].
  unfold escape_name. simpl. rewrite length_app.
  fold (escape_name s). pose proof (escape_name_length s) as Hle.
  destruct H as [-> | H].
  - rewrite chr_eqb_refl. simpl. lia.
  - specialize (IH H). destruct (chr_eqb c quote); simpl; lia.
Qed.

End EscapeFacts.

(** C10: before the lookup by name runs, every single quote of the target
    name is replaced by the four characters of the shell escape; the names
    of the catalog are compared with the escaped target, so that an entry
    whose name is the target as it was, with a single quote in it, is no
    exact-name hit. *)
Theorem quote_escaped_before_lookup (self : Kappa.processor) :
  let escaped := Kappa.escape_name (Kappa.custom_app_name self) in
  Kappa.kandji_customize_create_update self =
    (if Kappa.recipe_create_new self then Ok Kappa.CreateNew
     else Kappa.update_custom_app (Kappa.with_name self escaped)) /\
  escaped =
    concat (map (fun c => if chr_eqb c quote
                          then [quote; "\"%char; quote; quote] else [c])
                (Kappa.custom_app_name self)) /\
  Kappa.app_picker (Kappa.with_name self escaped) =
    filter (fun app => str_eqb escaped (Kappa.name app)) (Kappa.custom_apps self) /\
  (In quote (Kappa.custom_app_name self) ->
   forall app,
     In app (Kappa.custom_apps self) ->
     Kappa.name app = Kappa.custom_app_name self ->
     ~ In app (Kappa.app_picker (Kappa.with_name self escaped))).
Proof.
  intros escaped. split; [reflexivity|]. split; [apply escape_name_concat|].
  split; [reflexivity|].
  intros Hq app Hin Hname Hpick.
  apply app_picker_in in Hpick. destruct Hpick as [_ Hp]. simpl in Hp.
  pose proof (escape_name_longer _ Hq) as Hlen.
  fold escaped in Hlen. rewrite <- Hp, Hname in Hlen. lia.
Qed.

(* ===================================================================== *)
(** * Two catalogs on which the lookup goes wrong *)
(* ===================================================================== *)

(** C3: on the catalog [tied_versions], two candidates share the highest
    sanitized version 2.1.0 and every timestamp has the format with a
    fraction; the candidate of version 1.2.1.0, whose version string
    contains ["2.1.0"], is taken into the tie and, being the oldest upload,
    is what the lookup returns, in place of the older of the two 2.1.0
    packages. *)
Theorem tie_break_takes_lower_version :
  map snd (Kappa.pkgs_versions_sorted (Kappa.possible_pkgs Scenarios.tied_versions))
  = [lit "2.1.0"; lit "2.1.0"; lit "1.2.1.0"] /\
  Kappa.highest_vers
    (Kappa.pkgs_versions_sorted (Kappa.possible_pkgs Scenarios.tied_versions))
    (lit "2.1.0")
  = [lit "App-2.1.0_aaaaaaaa.pkg"; lit "App-2.1.0_bbbbbbbb.pkg";
     lit "App-1.2.1.0_cccccccc.pkg"] /\
  Kappa._find_lib_item_match Scenarios.tied_versions
  = Ok (Kappa.Found Scenarios.app_1210).
Proof. repeat split; vm_compute; reflexivity. Qed.

(** C4: on the catalog [three_chromes], three custom apps have the target
    name, no category narrows them and the dynamic lookup is off; one of
    them was created on a full second, its [created_at] has no fraction, and
    the lookup raises [ValueError] while it writes the report of the
    duplicates.  With a fraction in every [created_at] the same catalog is
    reported as three duplicates. *)
Theorem duplicates_report_raises :
  length (Kappa.app_picker Scenarios.three_chromes) = 3 /\
  Kappa.parse_dt (Kappa.created_at Scenarios.chrome_1) = Ok 63841082400000000%Z /\
  Kappa._find_lib_item_match Scenarios.three_chromes = Raise ValueError /\
  Kappa.update_custom_app Scenarios.three_chromes = Raise ValueError /\
  exists reported,
    Kappa.update_custom_app Scenarios.three_chromes_fraction
    = Ok (Kappa.Ambiguous reported) /\
    map Kappa.dup_id reported
    = map Kappa.id (Kappa.app_picker Scenarios.three_chromes_fraction).
Proof.
  repeat split; try (vm_compute; reflexivity).
  eexists. split; vm_compute; reflexivity.
Qed.

(* ===================================================================== *)
(** * The settings of a run *)
(* ===================================================================== *)

(** X1: the translation of an enforcement between the names of the config
    file and those of the API is its own inverse: translating a value that
    was returned gives back the value that was passed, in lower case. *)
Theorem parse_enforcement_involution (enforcement parsed : str) :
  Configs._parse_enforcement enforcement = Some parsed ->
  Configs._parse_enforcement parsed = Some (Configs.lower enforcement).
Proof.
  unfold Configs._parse_enforcement at 1. cbv zeta.
  destruct (str_eqb (Configs.lower enforcement) Configs.audit_enforce) eqn:E1.
  { apply str_eqb_eq in E1. intros H. inversion H. rewrite E1. reflexivity. }
  destruct (str_eqb (Configs.lower enforcement) Configs.self_service) eqn:E2.
  { apply str_eqb_eq in E2. intros H. inversion H. rewrite E2. reflexivity. }
  destruct (str_eqb (Configs.lower enforcement) Configs.continuously_enforce) eqn:E3.
  { apply str_eqb_eq in E3. intros H. inversion H. rewrite E3. reflexivity. }
  destruct (str_eqb (Configs.lower enforcement) Kappa.no_enforcement) eqn:E4.
  { apply str_eqb_eq in E4. intros H. inversion H. rewrite E4. reflexivity. }
  destruct (str_eqb (Configs.lower enforcement) Configs.install_once) eqn:E5.
  { apply str_eqb_eq in E5. intros H. inversion H. rewrite E5. reflexivity. }
  discriminate.
Qed.

Lemma parse_enforcement_involution_witness :
  Configs._parse_enforcement (lit "Audit_Enforce")
  = Some Configs.continuously_enforce /\
  Configs._parse_enforcement Configs.continuously_enforce
  = Some Configs.audit_enforce.
Proof.
  split; [reflexivity|].
  apply (parse_enforcement_involution (lit "Audit_Enforce")
                                      Configs.continuously_enforce).
  reflexivity.
Defined.

Section ConfigFacts.

Import Configs.

Lemma parse_enforcement_cases (enforcement : str) :
  match _parse_enforcement enforcement with
  | Some parsed =>
      (lower enforcement = audit_enforce /\ parsed = continuously_enforce) \/
      (lower enforcement = self_service /\ parsed = Kappa.no_enforcement) \/
      (lower enforcement = continuously_enforce /\ parsed = audit_enforce) \/
      (lower enforcement = Kappa.no_enforcement /\ parsed = self_service) \/
      (lower enforcement = install_once /\ parsed = install_once)
  | None => True
  end.
Proof.
  unfold _parse_enforcement. cbv zeta.
  destruct (str_eqb (lower enforcement) audit_enforce) eqn:E1.
  { apply str_eqb_eq in E1. auto. }
  destruct (str_eqb (lower enforcement) self_service) eqn:E2.
  { apply str_eqb_eq in E2. auto. }
  destruct (str_eqb (lower enforcement) continuously_enforce) eqn:E3.
  { apply str_eqb_eq in E3. auto. }
  destruct (str_eqb (lower enforcement) Kappa.no_enforcement) eqn:E4.
  { apply str_eqb_eq in E4. auto 6. }
  destruct (str_eqb (lower enforcement) install_once) eqn:E5.
  { apply str_eqb_eq in E5. auto 7. }
  exact I.
Qed.

(** The four calls of [name_to_id], in closed form: for each environment
    the name of the recipe, else that of the recipe map, else the
    default. *)
Lemma populate_self_service_eq (self_service : list category)
    (default_ss test_default_ss map_ss map_test recipe_ss recipe_test : option str) :
  let first_named (a b : option str) :=
    match a with
    | Some n => Some n
    | None => b
    end in
  _populate_self_service self_service default_ss test_default_ss
                         map_ss map_test recipe_ss recipe_test
  = mk_category_ids
      (ss_assignment self_service (first_named recipe_ss map_ss) default_ss)
      (ss_assignment self_service (first_named recipe_test map_test)
                     test_default_ss).
Proof.
  cbv zeta. unfold _populate_self_service.
  cbn [combine fold_left fst snd]. unfold name_to_id.
  cbn [ss_category_id test_category_id].
  assert (Hnone : forall d, ss_assignment self_service None d
                            = if truthy d then next_id self_service d else None)
    by reflexivity.
  assert (Hself : forall n d,
             match ss_assignment self_service n d with
             | Some id => Some id
             | None => ss_assignment self_service None d
             end = ss_assignment self_service n d).
  { intros n d. rewrite Hnone. unfold ss_assignment.
    destruct (next_id self_service n); [reflexivity|].
    destruct (truthy d); [|reflexivity].
    destruct (next_id self_service d); reflexivity. }
  destruct recipe_ss as [rs|], recipe_test as [rt|];
    destruct map_ss as [ms|], map_test as [mt|];
    rewrite ?Hself; try reflexivity;
    repeat match goal with
           | |- context [match ss_assignment self_service None ?d with
                         | Some id => Some id
                         | None => ss_assignment self_service None ?d
                         end] =>
               rewrite (Hself None d)
           end; reflexivity.
Qed.

Lemma next_id_listed (self_service : list category) (ss_name : option str)
    (id : str) :
  next_id self_service ss_name = Some id ->
  exists category,
    In category self_service /\ category_id category = id /\
    ss_name = Some (category_name category).
Proof.
  unfold next_id. destruct ss_name as [wanted|]; [|discriminate].
  destruct (find _ self_service) as [category|] eqn:E; [|discriminate].
  intros H. inversion H. apply find_some in E. destruct E as [Hin Hname].
  apply str_eqb_eq in Hname. exists category. repeat split; congruence.
Qed.

Lemma ss_assignment_listed (self_service : list category)
    (ss_name ss_default : option str) (id : str) :
  ss_assignment self_service ss_name ss_default = Some id ->
  exists category,
    In category self_service /\ category_id category = id /\
    (ss_name = Some (category_name category) \/
     ss_default = Some (category_name category)).
Proof.
  unfold ss_assignment.
  destruct (next_id self_service ss_name) as [found|] eqn:E.
  - intros H. inversion H; subst.
    destruct (next_id_listed _ _ _ E) as [c [H1 [H2 H3]]].
    exists c. auto.
  - destruct (truthy ss_default); [|discriminate]. intros H.
    destruct (next_id_listed _ _ _ H) as [c [H1 [H2 H3]]].
    exists c. auto.
Qed.

(** *** Dictionaries: reading after writing *)

Lemma dict_get_set_same {V : Type} (d : dict V) (k : str) (v : V) :
  dict_get (dict_set d k v) k = Some v.
Proof.
  induction d as [|[k0 v0] d IH]; simpl.
  - rewrite str_eqb_refl. reflexivity.
  - destruct (str_eqb k0 k) eqn:E; simpl; rewrite E; [reflexivity | exact IH].
Qed.

Lemma dict_get_set_other {V : Type} (d : dict V) (k k' : str) (v : V) :
  k <> k' -> dict_get (dict_set d k' v) k = dict_get d k.
Proof.
  intros Hne. induction d as [|[k0 v0] d IH]; simpl.
  - destruct (str_eqb k' k) eqn:E; [|reflexivity].
    apply str_eqb_eq in E. congruence.
  - destruct (str_eqb k0 k') eqn:E; simpl.
    + apply str_eqb_eq in E. subst k0.
      destruct (str_eqb k' k) eqn:E'; [|reflexivity].
      apply str_eqb_eq in E'. congruence.
    + destruct (str_eqb k0 k); [reflexivity | exact IH].
Qed.

Lemma dict_set_not_nil {V : Type} (d : dict V) (k : str) (v : V) :
  dict_set d k v <> [].
Proof.
  destruct d as [|[k0 v0] d]; simpl; [discriminate|].
  destruct (str_eqb k0 k); discriminate.
Qed.

Lemma keys_dict_pop {V : Type} (d : dict V) (k k' : str) :
  In k (keys (dict_pop d k')) <-> In k (keys d) /\ k <> k'.
Proof.
  unfold dict_pop, keys. rewrite in_map_iff. split.
  - intros [[k0 v0] [Hk Hin]]. simpl in Hk. subst k0.
    apply filter_In in Hin. destruct Hin as [Hin Hne]. simpl in Hne. split.
    + apply in_map_iff. exists (k, v0). split; [reflexivity | exact Hin].
    + intros ->. rewrite str_eqb_refl in Hne. discriminate.
  - intros [Hin Hne]. apply in_map_iff in Hin.
    destruct Hin as [[k0 v0] [Hk Hin]]. simpl in Hk. subst k0.
    exists (k, v0). split; [reflexivity|]. apply filter_In. split; [exact Hin|].
    simpl. destruct (str_eqb k k') eqn:E; [|reflexivity].
    apply str_eqb_eq in E. congruence.
Qed.

(** *** [str.replace] *)

Lemma startswith_contains (sub s : str) :
  startswith sub s = true -> contains sub s = true.
Proof. intros H. destruct s; simpl; rewrite H; reflexivity. Qed.

Lemma contains_cons (sub : str) (c : ascii) (s : str) :
  contains sub (c :: s) = startswith sub (c :: s) || contains sub s.
Proof. reflexivity. Qed.

Lemma replace_absent (old new s : str) :
  contains old s = false -> replace old new s = s.
Proof.
  unfold replace. induction s as [|c s IH]; intros H; [reflexivity|].
  rewrite contains_cons in H. apply orb_false_iff in H. destruct H as [H1 H2].
  cbn [replace_from]. rewrite H1. f_equal. apply IH. exact H2.
Qed.

Lemma replace_from_skip (old new : str) (k : nat) (s rest : str) :
  length s = k -> replace_from old new k (s ++ rest) = replace_from old new 0 rest.
Proof.
  revert k. induction s as [|c s IH]; intros k Hk; simpl in Hk; subst k.
  - reflexivity.
  - cbn [app length replace_from]. apply IH. reflexivity.
Qed.

Lemma startswith_app (p s : str) : startswith p (p ++ s) = true.
Proof.
  induction p as [|c p IH]; [reflexivity|].
  simpl. rewrite chr_eqb_refl. exact IH.
Qed.

Lemma replace_occurrence (old new rest : str) (c : ascii) (old' : str) :
  old = c :: old' ->
  replace old new (old ++ rest) = new ++ replace old new rest.
Proof.
  intros ->. unfold replace. cbn [app]. cbn [replace_from].
  change (c :: old' ++ rest) with ((c :: old') ++ rest).
  rewrite startswith_app. f_equal.
  cbn [length]. rewrite Nat.sub_succ, Nat.sub_0_r.
  apply replace_from_skip. reflexivity.
Qed.

Lemma replace_before (old new : str) (c : ascii) (old' pre s : str) :
  old = c :: old' -> ~ In c pre ->
  replace old new (pre ++ s) = pre ++ replace old new s.
Proof.
  intros -> Hpre. unfold replace. induction pre as [|d pre IH]; [reflexivity|].
  cbn [app replace_from startswith].
  assert (Hd : chr_eqb c d = false).
  { apply chr_eqb_neq. intros ->. apply Hpre. left. reflexivity. }
  rewrite Hd. cbn [andb]. f_equal. apply IH.
  intros Hin. apply Hpre. right. exact Hin.
Qed.

End ConfigFacts.

(** X2: the enforcement that [_set_defaults_enforcements] assigns is
    [no_enforcement] as soon as the expression over the categories of the
    recipe map and of the recipe is not [None]; and it is one of the three
    values of the API, unless no category is given and the config file
    names its type by the API name [continuously_enforce] or
    [no_enforcement], which the translation then turns into [audit_enforce]
    or [self_service]. *)
Theorem enforcement_is_api_value (config_type : str)
    (map_ss recipe_ss recipe_test : option str) :
  let categories := Configs.py_or map_ss (Configs.py_or recipe_ss recipe_test) in
  let enforcement :=
    Configs.custom_app_enforcement config_type map_ss recipe_ss recipe_test in
  (categories <> None -> enforcement = Kappa.no_enforcement) /\
  (In enforcement Configs.api_enforcements \/
   (categories = None /\
    ((Configs.lower config_type = Configs.continuously_enforce /\
      enforcement = Configs.audit_enforce) \/
     (Configs.lower config_type = Kappa.no_enforcement /\
      enforcement = Configs.self_service)))).
Proof.
  cbv zeta. unfold Configs.custom_app_enforcement.
  destruct (Configs.py_or map_ss (Configs.py_or recipe_ss recipe_test)) as [c|].
  - split; [reflexivity|]. left. right. left. reflexivity.
  - split; [intros H; exfalso; apply H; reflexivity|].
    pose proof (parse_enforcement_cases config_type) as H.
    destruct (Configs._parse_enforcement config_type) as [parsed|].
    + destruct H as [[H1 ->] | [[H1 ->] | [[H1 ->] | [[H1 ->] | [H1 ->]]]]].
      * left. left. reflexivity.
      * left. right. left. reflexivity.
      * right. split; [reflexivity|]. left. split; [exact H1 | reflexivity].
      * right. split; [reflexivity|]. right. split; [exact H1 | reflexivity].
      * left. right. right. left. reflexivity.
    + left. right. right. left. reflexivity.
Qed.

(** X3: after [_populate_self_service], the category id of each
    environment is that of the category the recipe names, else of the one
    the recipe map names, else of the default category; a category that is
    named but not listed falls back to the default one, and the id is
    [None] when that is not listed either.  The name of the recipe map is
    not read when the recipe names a category. *)
Theorem self_service_precedence (self_service : list Configs.category)
    (default_ss test_default_ss map_ss map_test recipe_ss recipe_test : option str) :
  let first_named (a b : option str) :=
    match a with
    | Some n => Some n
    | None => b
    end in
  let ids :=
    Configs._populate_self_service self_service default_ss test_default_ss
                                   map_ss map_test recipe_ss recipe_test in
  Configs.ss_category_id ids
  = Configs.ss_assignment self_service (first_named recipe_ss map_ss) default_ss /\
  Configs.test_category_id ids
  = Configs.ss_assignment self_service (first_named recipe_test map_test)
                          test_default_ss.
Proof.
  cbv zeta. rewrite populate_self_service_eq. split; reflexivity.
Qed.

(** X4: a category id that [_populate_self_service] assigns is the id of a
    category of the listing, and that category bears a name of the recipe,
    of the recipe map or of the defaults. *)
Theorem category_id_is_listed (self_service : list Configs.category)
    (default_ss test_default_ss map_ss map_test recipe_ss recipe_test : option str)
    (id : str) :
  let ids :=
    Configs._populate_self_service self_service default_ss test_default_ss
                                   map_ss map_test recipe_ss recipe_test in
  Configs.ss_category_id ids = Some id \/ Configs.test_category_id ids = Some id ->
  exists category,
    In category self_service /\ Configs.category_id category = id /\
    In (Some (Configs.category_name category))
       [recipe_ss; map_ss; default_ss; recipe_test; map_test; test_default_ss].
Proof.
  cbv zeta. rewrite populate_self_service_eq.
  cbn [Configs.ss_category_id Configs.test_category_id].
  intros [H | H]; apply ss_assignment_listed in H;
    destruct H as [c [H1 [H2 H3]]]; exists c; (split; [exact H1|]);
    (split; [exact H2|]); simpl.
  - destruct H3 as [H3 | H3].
    + destruct recipe_ss as [rs|]; [left; exact H3|].
      right. left. exact H3.
    + right. right. left. exact H3.
  - destruct H3 as [H3 | H3].
    + destruct recipe_test as [rt|]; [do 3 right; left; exact H3|].
      do 4 right. left. exact H3.
    + do 5 right. left. exact H3.
Qed.

Lemma category_id_is_listed_witness :
  exists category,
    In category [Configs.mk_category (lit "7") (lit "Apps");
                 Configs.mk_category (lit "9") (lit "Browsers")] /\
    Configs.category_id category = lit "9" /\
    In (Some (Configs.category_name category))
       [Some (lit "Browsers"); Some (lit "Missing"); Some (lit "Apps");
        None; None; None].
Proof.
  apply (category_id_is_listed
           [Configs.mk_category (lit "7") (lit "Apps");
            Configs.mk_category (lit "9") (lit "Browsers")]
           (Some (lit "Apps")) None (Some (lit "Missing")) None
           (Some (lit "Browsers")) None (lit "9")).
  left. reflexivity.
Defined.

(** X5: once [_populate_recipe_map] and [_set_custom_name] have run,
    [self.app_names] is never empty and holds neither category of the
    recipe map; a name of the recipe stands under its key whatever the
    recipe map had there; and the key [undefined] is there, alone and with
    [self.custom_app_name], exactly when neither the recipe map nor the
    recipe gave a name. *)
Theorem app_names_after_configuration (use_recipe_map : bool)
    (recipe_map : option (dict (dict str))) (recipe_name : str)
    (mapped : Configs.mapping)
    (recipe_custom_name recipe_test_name default_custom_name : option str)
    (name_in_recipe : str) :
  Configs._populate_recipe_map use_recipe_map recipe_map recipe_name
  = Some mapped ->
  let configured :=
    Configs._set_custom_name (Configs.app_names mapped) recipe_custom_name
                             recipe_test_name default_custom_name
                             name_in_recipe in
  fst configured <> [] /\
  ~ In Configs.ss_category (keys (fst configured)) /\
  ~ In Configs.test_category (keys (fst configured)) /\
  (forall name, recipe_custom_name = Some name ->
                dict_get (fst configured) Configs.prod_name = Some name) /\
  (forall name, recipe_test_name = Some name ->
                dict_get (fst configured) Configs.test_name = Some name) /\
  match snd configured with
  | Some name =>
      Configs.app_names mapped = [] /\ recipe_custom_name = None /\
      recipe_test_name = None /\ fst configured = [(Configs.undefined, name)]
  | None =>
      Configs.app_names mapped <> [] \/ recipe_custom_name <> None \/
      recipe_test_name <> None
  end.
Proof.
  intros Hmap. cbv zeta.
  assert (Hpop : ~ In Configs.ss_category (keys (Configs.app_names mapped)) /\
                 ~ In Configs.test_category (keys (Configs.app_names mapped))).
  { unfold Configs._populate_recipe_map in Hmap.
    assert (Hfin : forall apps : dict str,
               let m := Configs.dict_pop (Configs.dict_pop apps Configs.ss_category)
                                         Configs.test_category in
               ~ In Configs.ss_category (keys m) /\
               ~ In Configs.test_category (keys m)).
    { intros apps. cbv zeta. split; intros H; apply keys_dict_pop in H.
      - destruct H as [H _]. apply keys_dict_pop in H. destruct H as [_ H].
        apply H. reflexivity.
      - destruct H as [_ H]. apply H. reflexivity. }
    destruct use_recipe_map.
    - destruct recipe_map as [entries|]; [|discriminate].
      injection Hmap as Hm. rewrite <- Hm. exact (Hfin _).
    - injection Hmap as Hm. rewrite <- Hm. exact (Hfin []). }
  destruct Hpop as [Hss Htest].
  unfold Configs._set_custom_name.
  set (names1 := match recipe_custom_name with
                 | Some name => dict_set (Configs.app_names mapped) Configs.prod_name name
                 | None => Configs.app_names mapped
                 end).
  set (names2 := match recipe_test_name with
                 | Some name => dict_set names1 Configs.test_name name
                 | None => names1
                 end).
  assert (Hk1 : forall k, In k (keys names1) ->
                          In k (keys (Configs.app_names mapped)) \/ k = Configs.prod_name).
  { intros k. unfold names1. destruct recipe_custom_name; [apply keys_dict_set | auto]. }
  assert (Hk2 : forall k, In k (keys names2) ->
                          In k (keys (Configs.app_names mapped)) \/
                          k = Configs.prod_name \/ k = Configs.test_name).
  { intros k. unfold names2. destruct recipe_test_name.
    - intros H. apply keys_dict_set in H. destruct H as [H | H]; [|auto].
      apply Hk1 in H. tauto.
    - intros H. apply Hk1 in H. tauto. }
  assert (Hprod : forall name, recipe_custom_name = Some name ->
                               dict_get names2 Configs.prod_name = Some name).
  { intros name ->. unfold names2, names1. destruct recipe_test_name.
    - rewrite dict_get_set_other by discriminate. apply dict_get_set_same.
    - apply dict_get_set_same. }
  assert (Htst : forall name, recipe_test_name = Some name ->
                              dict_get names2 Configs.test_name = Some name).
  { intros name ->. unfold names2. apply dict_get_set_same. }
  destruct names2 as [|kv names] eqn:E2.
  - cbn [fst snd dict_set]. repeat split.
    + discriminate.
    + intros [H | []]. discriminate H.
    + intros [H | []]. discriminate H.
    + intros name Hn. apply Hprod in Hn. discriminate Hn.
    + intros name Hn. apply Htst in Hn. discriminate Hn.
    + unfold names2, names1 in E2.
      destruct recipe_test_name; [exfalso; exact (dict_set_not_nil _ _ _ E2)|].
      destruct recipe_custom_name; [exfalso; exact (dict_set_not_nil _ _ _ E2)|].
      exact E2.
    + unfold names2 in E2.
      destruct recipe_test_name; [exfalso; exact (dict_set_not_nil _ _ _ E2)|].
      unfold names1 in E2.
      destruct recipe_custom_name; [exfalso; exact (dict_set_not_nil _ _ _ E2)|].
      reflexivity.
    + unfold names2 in E2.
      destruct recipe_test_name; [exfalso; exact (dict_set_not_nil _ _ _ E2)|].
      reflexivity.
  - cbn [fst snd]. repeat split.
    + discriminate.
    + intros H. apply Hk2 in H.
      destruct H as [H | [H | H]]; [exact (Hss H) | discriminate H | discriminate H].
    + intros H. apply Hk2 in H.
      destruct H as [H | [H | H]]; [exact (Htest H) | discriminate H | discriminate H].
    + exact Hprod.
    + exact Htst.
    + unfold names2, names1 in E2.
      destruct recipe_test_name; [right; right; discriminate|].
      destruct recipe_custom_name; [right; left; discriminate|].
      left. rewrite E2. discriminate.
Qed.

Lemma app_names_after_configuration_witness :
  dict_get
    (fst (Configs._set_custom_name
            [(Configs.prod_name, lit "Firefox (map)")]
            (Some (lit "Firefox")) None None (lit "Firefox")))
    Configs.prod_name
  = Some (lit "Firefox").
Proof.
  destruct (app_names_after_configuration
              true
              (Some [(lit "Firefox.pkg",
                      [(Configs.prod_name, lit "Firefox (map)");
                       (Configs.ss_category, lit "Browsers")])])
              (lit "Firefox.pkg.recipe")
              (Configs.mk_mapping [(Configs.prod_name, lit "Firefox (map)")]
                                  (Some (lit "Browsers")) None)
              (Some (lit "Firefox")) None None (lit "Firefox")
              eq_refl) as [_ [_ [_ [H _]]]].
  apply H. reflexivity.
Defined.

(** X6: the default name of a custom app.  A naming of the config file in
    which [APPNAME] stands once, after a text without the letter A, gives
    that text, the name of the recipe and what follows; a naming without
    [APPNAME] is the name of every custom app, whatever the recipe. *)
Theorem default_custom_app_name (before after name_in_recipe : str) :
  ~ In "A"%char before ->
  contains (lit "APPNAME") after = false ->
  snd (Configs._set_custom_name [] None None
         (Some (before ++ lit "APPNAME" ++ after)) name_in_recipe)
  = Some (before ++ name_in_recipe ++ after) /\
  snd (Configs._set_custom_name [] None None (Some after) name_in_recipe)
  = Some after.
Proof.
  intros Hbefore Hafter. unfold Configs._set_custom_name. cbn [snd]. split.
  - f_equal.
    rewrite (replace_before (lit "APPNAME") name_in_recipe "A"%char
                            (lit "PPNAME") before _ eq_refl Hbefore).
    rewrite (replace_occurrence (lit "APPNAME") name_in_recipe after "A"%char
                                (lit "PPNAME") eq_refl).
    rewrite (replace_absent _ _ _ Hafter). reflexivity.
  - f_equal. apply replace_absent. exact Hafter.
Qed.

Lemma default_custom_app_name_witness :
  snd (Configs._set_custom_name [] None None
         (Some (lit "Kandji: APPNAME (AutoPkg)")) (lit "Firefox"))
  = Some (lit "Kandji: Firefox (AutoPkg)").
Proof.
  apply (default_custom_app_name (lit "Kandji: ") (lit " (AutoPkg)") (lit "Firefox")).
  - intros H. simpl in H. intuition discriminate.
  - reflexivity.
Defined.

(* ===================================================================== *)
(** * The lookup of a token *)
(* ===================================================================== *)

(** X7: where a token comes from.  [_retrieve_token] returns a token
    exactly when the environment keystore is on and holds a non-empty
    token under the name or its upper-case form, whatever the keychain
    holds; or when that fails, the keychain keystore is on and the
    keychain holds the token.  An empty token of the environment is never
    returned. *)
Theorem token_sources (upper : str -> str) (environ security : str -> option str)
    (environment keychain : bool) (item_name token : str) :
  Tokens._retrieve_token upper environ security environment keychain item_name
  = Some token
  <->
  (environment = true /\ token <> [] /\
   Tokens._env_token_get upper environ item_name = Some token) \/
  ((environment = false \/
    Tokens._env_token_get upper environ item_name = None \/
    Tokens._env_token_get upper environ item_name = Some []) /\
   keychain = true /\ security item_name = Some token).
Proof.
  unfold Tokens._retrieve_token, Tokens._keychain_token_get. cbv zeta.
  destruct environment.
  - destruct (Tokens._env_token_get upper environ item_name) as [[|c t]|];
      cbn [Configs.truthy]; split.
    + destruct keychain; [|discriminate]. intros H. right. auto.
    + intros [[_ [H1 H2]] | [_ [-> H]]]; [inversion H2; subst; congruence | exact H].
    + intros H. inversion H; subst. left. repeat split. discriminate.
    + intros [[_ [_ H]] | [[H | [H | H]] _]]; try discriminate; exact H.
    + destruct keychain; [|discriminate]. intros H. right. auto.
    + intros [[_ [_ H]] | [_ [-> H]]]; [discriminate | exact H].
  - cbn [Configs.truthy]. split.
    + destruct keychain; [|discriminate]. intros H. right. auto.
    + intros [[H _] | [_ [-> H]]]; [discriminate | exact H].
Qed.

(* ===================================================================== *)
(** * The customization of the audit script *)
(* ===================================================================== *)

Section AuditFacts.

Import AuditScript.

(** *** Substrings across a separator *)

Lemma startswith_sep (m x y : str) (q : ascii) :
  ~ In q m -> startswith m (x ++ q :: y) = startswith m x.
Proof.
  revert x. induction m as [|a m IH]; intros x Hq; [destruct x; reflexivity|].
  assert (Ha : chr_eqb a q = false).
  { apply chr_eqb_neq. intros ->. apply Hq. left. reflexivity. }
  destruct x as [|d x]; cbn [app startswith].
  - rewrite Ha. reflexivity.
  - rewrite IH; [reflexivity|]. intros H. apply Hq. right. exact H.
Qed.

Lemma contains_nil (m : str) : m <> [] -> contains m [] = false.
Proof. destruct m; [congruence | reflexivity]. Qed.

(** A substring without [q] lies on one side of a [q]. *)
Lemma contains_sep (m x y : str) (q : ascii) :
  m <> [] -> ~ In q m ->
  contains m (x ++ q :: y) = contains m x || contains m y.
Proof.
  intros Hm Hq. induction x as [|c x IH].
  - cbn [app]. rewrite contains_cons.
    pose proof (startswith_sep m [] y q Hq) as Hs. cbn [app] in Hs.
    rewrite Hs, (contains_nil m Hm).
    destruct m; [congruence | reflexivity].
  - cbn [app]. rewrite !contains_cons, IH.
    change (c :: x ++ q :: y) with ((c :: x) ++ q :: y).
    rewrite (startswith_sep m (c :: x) y q Hq). apply orb_assoc.
Qed.

Lemma startswith_end (m' x y : str) (e : ascii) :
  ~ In e m' ->
  startswith (m' ++ [e]) (x ++ e :: y) = startswith (m' ++ [e]) (x ++ [e]).
Proof.
  revert x. induction m' as [|a m' IH]; intros x He.
  - destruct x as [|d x]; cbn [app startswith].
    + rewrite chr_eqb_refl. reflexivity.
    + destruct (x ++ e :: y), (x ++ [e]); reflexivity.
  - assert (Ha : chr_eqb a e = false).
    { apply chr_eqb_neq. intros ->. apply He. left. reflexivity. }
    destruct x as [|d x]; cbn [app startswith].
    + rewrite Ha. reflexivity.
    + rewrite IH; [reflexivity|]. intros H. apply He. right. exact H.
Qed.

(** A substring that ends in its only [e] does not go past an [e]. *)
Lemma contains_end (m' x y : str) (e : ascii) :
  ~ In e m' ->
  contains (m' ++ [e]) (x ++ e :: y)
  = contains (m' ++ [e]) (x ++ [e]) || contains (m' ++ [e]) y.
Proof.
  intros He.
  assert (Hm : m' ++ [e] <> []) by (destruct m'; discriminate).
  induction x as [|c x IH].
  - cbn [app]. rewrite !contains_cons.
    pose proof (startswith_end m' [] y e He) as Hs. cbn [app] in Hs.
    rewrite Hs, (contains_nil _ Hm), orb_false_r. reflexivity.
  - cbn [app]. rewrite !contains_cons, IH.
    change (c :: x ++ e :: y) with ((c :: x) ++ e :: y).
    rewrite (startswith_end m' (c :: x) y e He). cbn [app]. apply orb_assoc.
Qed.

(** *** [rstrip] *)

Lemma dropwhile_idem {A : Type} (f : A -> bool) (l : list A) :
  Packaging.dropwhile f (Packaging.dropwhile f l) = Packaging.dropwhile f l.
Proof.
  induction l as [|x l IH]; [reflexivity|].
  simpl. destruct (f x) eqn:E; [exact IH|]. simpl. rewrite E. reflexivity.
Qed.

Lemma dropwhile_split {A : Type} (f : A -> bool) (l : list A) :
  exists dropped,
    l = dropped ++ Packaging.dropwhile f l /\ forallb f dropped = true.
Proof.
  induction l as [|x l [dropped [H1 H2]]]; [exists []; auto|].
  simpl. destruct (f x) eqn:E.
  - exists (x :: dropped). simpl. rewrite E, H2. split; [f_equal; exact H1 | reflexivity].
  - exists []. auto.
Qed.

Lemma dropwhile_stop {A : Type} (f : A -> bool) (a b : list A) (e : A) :
  f e = false ->
  Packaging.dropwhile f (a ++ e :: b) = Packaging.dropwhile f a ++ e :: b.
Proof.
  intros He. induction a as [|c a IH]; simpl.
  - rewrite He. reflexivity.
  - destruct (f c); [exact IH | reflexivity].
Qed.

Lemma rstrip_idem (line : str) : rstrip (rstrip line) = rstrip line.
Proof.
  unfold rstrip. rewrite rev_involutive, dropwhile_idem. reflexivity.
Qed.

Lemma rstrip_space (line : str) (w : ascii) :
  is_space w = true -> rstrip (line ++ [w]) = rstrip line.
Proof.
  intros Hw. unfold rstrip. rewrite rev_app_distr. simpl. rewrite Hw. reflexivity.
Qed.

(** What is stripped lies behind a character that is no whitespace. *)
Lemma rstrip_behind (x y : str) (e : ascii) :
  is_space e = false -> rstrip (x ++ e :: y) = x ++ e :: rstrip y.
Proof.
  intros He. unfold rstrip. rewrite rev_app_distr. cbn [rev].
  rewrite <- app_assoc. cbn [app].
  rewrite (dropwhile_stop is_space (rev y) (rev x) e He).
  rewrite rev_app_distr. cbn [rev]. rewrite rev_involutive, <- app_assoc.
  reflexivity.
Qed.

Lemma rstrip_split (line : str) :
  exists stripped,
    line = rstrip line ++ stripped /\ forallb is_space stripped = true.
Proof.
  unfold rstrip.
  destruct (dropwhile_split is_space (rev line)) as [dropped [H1 H2]].
  exists (rev dropped). split.
  - rewrite <- rev_app_distr, <- H1, rev_involutive. reflexivity.
  - rewrite forallb_forall in *. intros c Hc. apply H2. apply in_rev. exact Hc.
Qed.

(** A substring without whitespace does not lie in what is stripped. *)
Lemma contains_rstrip (m line : str) :
  m <> [] -> forallb (fun c => negb (is_space c)) m = true ->
  contains m (rstrip line) = contains m line.
Proof.
  intros Hm Hfree.
  destruct (rstrip_split line) as [stripped [H1 H2]].
  rewrite H1 at 2. generalize (rstrip line) as kept. clear H1.
  assert (Hq : forall w, is_space w = true -> ~ In w m).
  { intros w Hw Hin. rewrite forallb_forall in Hfree.
    apply Hfree in Hin. rewrite Hw in Hin. discriminate. }
  assert (Hspaces : forall ws, forallb is_space ws = true -> contains m ws = false).
  { induction ws as [|w ws IH]; intros H; [apply contains_nil; exact Hm|].
    simpl in H. apply andb_true_iff in H. destruct H as [Hw Hws].
    change (w :: ws) with ([] ++ w :: ws).
    rewrite (contains_sep m [] ws w Hm (Hq w Hw)), (contains_nil m Hm).
    apply IH. exact Hws. }
  intros kept. destruct stripped as [|w ws]; [rewrite app_nil_r; reflexivity|].
  simpl in H2. apply andb_true_iff in H2. destruct H2 as [Hw Hws].
  rewrite (contains_sep m kept ws w Hm (Hq w Hw)), (Hspaces ws Hws).
  rewrite orb_false_r. reflexivity.
Qed.

(** *** The keys in a line that was written *)

Lemma key_cases (key : str) :
  In key keys_of_script ->
  key = key_app_name \/ key = key_bundle_id \/ key = key_pkg_id \/
  key = key_version \/ key = key_timestamp \/ key = key_days.
Proof.
  intros H. simpl in H. intuition auto.
Qed.

Lemma key_shape (key : str) :
  In key keys_of_script ->
  key <> [] /\ ~ In dquote key /\
  forallb (fun c => negb (is_space c)) key = true /\
  exists stem, key = stem ++ ["="%char] /\ ~ In "="%char stem.
Proof.
  intros H. apply key_cases in H.
  destruct H as [-> | [-> | [-> | [-> | [-> | ->]]]]];
    (split; [discriminate|]);
    (split; [intros H; simpl in H; intuition discriminate|]);
    (split; [reflexivity|]).
  - exists (lit "APP_NAME"). split; [reflexivity|].
    intros H; simpl in H; intuition discriminate.
  - exists (lit "BUNDLE_ID"). split; [reflexivity|].
    intros H; simpl in H; intuition discriminate.
  - exists (lit "PKG_ID"). split; [reflexivity|].
    intros H; simpl in H; intuition discriminate.
  - exists (lit "MINIMUM_ENFORCED_VERSION"). split; [reflexivity|].
    intros H; simpl in H; intuition discriminate.
  - exists (lit "CREATION_TIMESTAMP"). split; [reflexivity|].
    intros H; simpl in H; intuition discriminate.
  - exists (lit "DAYS_UNTIL_ENFORCEMENT"). split; [reflexivity|].
    intros H; simpl in H; intuition discriminate.
Qed.

Lemma key_free_spec (val key : str) :
  key_free val = true -> In key keys_of_script -> contains key val = false.
Proof.
  unfold key_free. rewrite forallb_forall. intros H Hin.
  apply H in Hin. apply negb_true_iff in Hin. exact Hin.
Qed.

Lemma rstrip_assign (key val : str) : rstrip (assign key val) = assign key val.
Proof.
  unfold assign.
  replace (key ++ dquote :: val ++ [dquote])
    with ((key ++ dquote :: val) ++ dquote :: [])
    by (rewrite <- app_assoc; reflexivity).
  rewrite (rstrip_behind _ [] dquote eq_refl). reflexivity.
Qed.

(** In [KEY="val"] a key occurs exactly when it occurs in [KEY], for a
    [val] that holds no key. *)
Lemma contains_assign (key written_key val : str) :
  In key keys_of_script -> key_free val = true ->
  contains key (assign written_key val) = contains key written_key.
Proof.
  intros Hkey Hval. destruct (key_shape key Hkey) as [Hne [Hq _]].
  unfold assign. rewrite (contains_sep key written_key _ dquote Hne Hq).
  rewrite (contains_sep key val [] dquote Hne Hq).
  rewrite (key_free_spec val key Hval Hkey), (contains_nil key Hne).
  rewrite !orb_false_r. reflexivity.
Qed.

(** The same for [DAYS_UNTIL_ENFORCEMENT=val], after [rstrip]. *)
Lemma contains_days (key val : str) :
  In key keys_of_script -> key_free val = true ->
  contains key (rstrip (key_days ++ val)) = contains key key_days.
Proof.
  intros Hkey Hval.
  destruct (key_shape key Hkey) as [Hne [_ [Hsp [stem [Hstem He]]]]].
  change (key_days ++ val)
    with (lit "DAYS_UNTIL_ENFORCEMENT" ++ "="%char :: val).
  rewrite (rstrip_behind _ val "="%char eq_refl).
  rewrite Hstem at 1. rewrite (contains_end stem _ (rstrip val) "="%char He).
  rewrite <- Hstem. rewrite (contains_rstrip key val Hne Hsp).
  rewrite (key_free_spec val key Hval Hkey), orb_false_r. reflexivity.
Qed.

Ltac key_in :=
  unfold keys_of_script; cbn [In]; auto 10.

Lemma contains_key (key written_key : str) :
  In key keys_of_script -> In written_key keys_of_script ->
  contains key written_key = str_eqb key written_key.
Proof.
  intros H1 H2. apply key_cases in H1. apply key_cases in H2.
  destruct H1 as [-> | [-> | [-> | [-> | [-> | ->]]]]];
    destruct H2 as [-> | [-> | [-> | [-> | [-> | ->]]]]]; reflexivity.
Qed.

Ltac tests_of_assign key val Hval :=
  rewrite (contains_assign key_app_name key val),
          (contains_assign key_bundle_id key val),
          (contains_assign key_pkg_id key val),
          (contains_assign key_version key val),
          (contains_assign key_timestamp key val),
          (contains_assign key_days key val)
    by (try exact Hval; key_in);
  rewrite (contains_key key_app_name key), (contains_key key_bundle_id key),
          (contains_key key_pkg_id key), (contains_key key_version key),
          (contains_key key_timestamp key), (contains_key key_days key)
    by key_in.

(** *** A second run over a line that was written *)

Section Again.

Variable v : values.
Variable epoch_now : str.
Hypothesis Hfree : values_key_free v epoch_now = true.

Lemma values_key_free_parts :
  known_key_free (app_name v) = true /\ known_key_free (bundle_id v) = true /\
  known_key_free (pkg_id v) = true /\ known_key_free (app_vers v) = true /\
  key_free epoch_now = true /\
  match delays v with
  | Some (test_delay, prod_delay) =>
      key_free (format test_delay) = true /\ key_free (format prod_delay) = true
  | None => True
  end.
Proof.
  unfold values_key_free in Hfree.
  repeat (apply andb_true_iff in Hfree; destruct Hfree as [Hfree ?]).
  repeat split; try assumption.
  destruct (delays v) as [[t p]|]; [|exact I].
  apply andb_true_iff. assumption.
Qed.

Lemma again_assign (key val : str) :
  In key keys_of_script -> key_free val = true ->
  (key = key_app_name /\ app_name v = Some val) \/
  (key = key_bundle_id /\ bundle_id v = Some val) \/
  (key = key_pkg_id /\ pkg_id v = Some val) \/
  (key = key_version /\ app_vers v = Some val) \/
  (key = key_timestamp /\ epoch_now = val) ->
  customize_line v epoch_now (assign key val) = Some (assign key val).
Proof.
  intros Hkey Hval Hcase. unfold customize_line, customize_stripped.
  rewrite rstrip_assign. tests_of_assign key val Hval.
  destruct Hcase as [[-> Hv] | [[-> Hv] | [[-> Hv] | [[-> Hv] | [-> Hv]]]]];
    try rewrite Hv;
    repeat match goal with
           | |- context [str_eqb ?a ?b] =>
               first [change (str_eqb a b) with true
                     | change (str_eqb a b) with false]
           end;
    cbv iota; reflexivity.
Qed.

Lemma again_days (val : str) (test_delay prod_delay : value) :
  key_free val = true -> delays v = Some (test_delay, prod_delay) ->
  customize_line v epoch_now (key_days ++ val)
  = Some (if test_app v then key_days ++ format test_delay
          else if prod_app v then key_days ++ format prod_delay
          else if truthy prod_delay then key_days ++ format prod_delay
          else rstrip (key_days ++ val)).
Proof.
  intros Hval Hd. unfold customize_line, customize_stripped.
  rewrite (contains_days key_app_name val), (contains_days key_bundle_id val),
          (contains_days key_pkg_id val), (contains_days key_version val),
          (contains_days key_timestamp val), (contains_days key_days val)
    by (try exact Hval; key_in).
  rewrite Hd.
  change (contains key_app_name key_days) with false.
  change (contains key_bundle_id key_days) with false.
  change (contains key_pkg_id key_days) with false.
  change (contains key_version key_days) with false.
  change (contains key_timestamp key_days) with false.
  change (contains key_days key_days) with true.
  reflexivity.
Qed.

Lemma some_eq {A : Type} (x y : A) : Some x = Some y -> x = y.
Proof. intros H. injection H as H. exact H. Qed.

(** A line that was printed is printed again as it is. *)
Lemma customize_line_again (line printed : str) :
  customize_line v epoch_now line = Some printed ->
  customize_line v epoch_now printed = Some printed.
Proof.
  intros H. destruct values_key_free_parts as [F1 [F2 [F3 [F4 [F5 F6]]]]].
  assert (H0 : customize_line v epoch_now (rstrip line) = Some printed).
  { unfold customize_line in *. rewrite rstrip_idem. exact H. }
  unfold customize_line, customize_stripped in H.
  assert (Hsame : printed = rstrip line ->
                  customize_line v epoch_now printed = Some printed).
  { intros ->. exact H0. }
  clear H0.
  destruct (contains key_app_name (rstrip line)) eqn:T1;
    [destruct (app_name v) as [val|] eqn:V1;
     [apply some_eq in H; subst printed; apply again_assign; [key_in | exact F1 | auto]|]|];
  (destruct (contains key_bundle_id (rstrip line)) eqn:T2;
    [destruct (bundle_id v) as [val|] eqn:V2;
     [apply some_eq in H; subst printed; apply again_assign; [key_in | exact F2 | auto]|]|]);
  (destruct (contains key_pkg_id (rstrip line)) eqn:T3;
    [destruct (pkg_id v) as [val|] eqn:V3;
     [apply some_eq in H; subst printed; apply again_assign; [key_in | exact F3 | auto]|]|]);
  (destruct (contains key_version (rstrip line)) eqn:T4;
    [destruct (app_vers v) as [val|] eqn:V4;
     [apply some_eq in H; subst printed; apply again_assign; [key_in | exact F4 | auto 6]|]|]);
  (destruct (contains key_timestamp (rstrip line)) eqn:T5;
    [apply some_eq in H; subst printed; apply again_assign; [key_in | exact F5 | auto 7]|]);
  (destruct (contains key_days (rstrip line)) eqn:T6;
    [|apply some_eq in H; apply Hsame; symmetry; exact H]);
  (destruct (delays v) as [[test_delay prod_delay]|] eqn:Vd; [|discriminate H]);
  destruct F6 as [Ft Fp];
  (destruct (test_app v) eqn:Et;
    [apply some_eq in H; subst printed; rewrite (again_days _ _ _ Ft Vd), Et; reflexivity|]);
  (destruct (prod_app v) eqn:Ep;
    [apply some_eq in H; subst printed; rewrite (again_days _ _ _ Fp Vd), Et, Ep; reflexivity|]);
  (destruct (truthy prod_delay) eqn:Ed;
    [apply some_eq in H; subst printed; rewrite (again_days _ _ _ Fp Vd), Et, Ep, Ed; reflexivity|]);
  apply some_eq in H; apply Hsame; symmetry; exact H.
Qed.

Lemma customize_line_newline (line : str) :
  customize_line v epoch_now (line ++ [newline]) = customize_line v epoch_now line.
Proof.
  unfold customize_line. rewrite (rstrip_space line newline eq_refl). reflexivity.
Qed.

End Again.

Lemma customize_cons (v : values) (epoch_now : str) (line : str)
    (script printed : list str) :
  _customize_audit_for_upload v epoch_now (line :: script) = Some printed ->
  exists first rest,
    printed = first :: rest /\ customize_line v epoch_now line = Some first /\
    _customize_audit_for_upload v epoch_now script = Some rest.
Proof.
  cbn [_customize_audit_for_upload].
  destruct (customize_line v epoch_now line) as [first|]; [|discriminate].
  destruct (_customize_audit_for_upload v epoch_now script) as [rest|];
    [|discriminate].
  intros H. inversion H. exists first, rest. auto.
Qed.

End AuditFacts.

(** X8: the customization prints one line for each line of the audit
    script; a line in which none of the six keys occurs is printed as it
    is, without the whitespace at its end. *)
Theorem customization_keeps_other_lines (v : AuditScript.values)
    (epoch_now : str) (script printed : list str) :
  AuditScript._customize_audit_for_upload v epoch_now script = Some printed ->
  Forall2 (fun line out =>
             AuditScript.key_free line = true -> out = AuditScript.rstrip line)
          script printed.
Proof.
  revert printed. induction script as [|line script IH]; intros printed H.
  - inversion H. constructor.
  - apply customize_cons in H. destruct H as [first [rest [-> [Hl Hr]]]].
    constructor; [|apply IH; exact Hr].
    intros Hfree. unfold AuditScript.customize_line, AuditScript.customize_stripped in Hl.
    assert (Hk : forall key, In key AuditScript.keys_of_script ->
                             contains key (AuditScript.rstrip line) = false).
    { intros key Hin. destruct (key_shape key Hin) as [Hne [_ [Hsp _]]].
      rewrite (contains_rstrip key line Hne Hsp).
      apply (key_free_spec line key Hfree Hin). }
    rewrite !Hk in Hl by (unfold AuditScript.keys_of_script; simpl; tauto).
    inversion Hl. reflexivity.
Qed.

Lemma customization_keeps_other_lines_witness :
  Forall2 (fun line out =>
             AuditScript.key_free line = true -> out = AuditScript.rstrip line)
          [lit "#!/bin/zsh  "; lit "APP_NAME=''"]
          [lit "#!/bin/zsh"; AuditScript.assign AuditScript.key_app_name (lit "Firefox.app")].
Proof.
  apply (customization_keeps_other_lines
           (AuditScript.mk_values (Some (lit "Firefox.app")) None None None None
                                  false true)
           (lit "1700000000")).
  reflexivity.
Defined.



(* ===================================================================== *)
(** * The loop of [main] *)
(* ===================================================================== *)

Section RunFacts.

Import Run.

(** What [_set_custom_name] leaves: the default name alone, under
    [undefined] and in [self.custom_app_name]; or names under the keys of
    the recipe map, [prod_name] and [test_name]. *)
Lemma set_custom_name_cases (app_names : dict str)
    (recipe_custom_name recipe_test_name default_custom_name : option str)
    (name_in_recipe : str) :
  let configured :=
    Configs._set_custom_name app_names recipe_custom_name recipe_test_name
                             default_custom_name name_in_recipe in
  (exists name, configured = ([(Configs.undefined, name)], Some name)) \/
  (snd configured = None /\
   forall k, In k (keys (fst configured)) ->
             In k (keys app_names) \/ k = Configs.prod_name \/ k = Configs.test_name).
Proof.
  cbv zeta. unfold Configs._set_custom_name.
  set (names1 := match recipe_custom_name with
                 | Some name => dict_set app_names Configs.prod_name name
                 | None => app_names
                 end).
  set (names2 := match recipe_test_name with
                 | Some name => dict_set names1 Configs.test_name name
                 | None => names1
                 end).
  assert (Hk1 : forall k, In k (keys names1) ->
                          In k (keys app_names) \/ k = Configs.prod_name).
  { intros k. unfold names1. destruct recipe_custom_name; [apply keys_dict_set | auto]. }
  assert (Hk2 : forall k, In k (keys names2) ->
                          In k (keys app_names) \/
                          k = Configs.prod_name \/ k = Configs.test_name).
  { intros k. unfold names2. destruct recipe_test_name.
    - intros H. apply keys_dict_set in H. destruct H as [H | H]; [|auto].
      apply Hk1 in H. tauto.
    - intros H. apply Hk1 in H. tauto. }
  destruct names2 as [|kv names].
  - left. eexists. reflexivity.
  - right. split; [reflexivity | exact Hk2].
Qed.

(** The parts of a round. *)
Lemma round_parts (s s' : session) (events : list event) :
  kandji_customize_create_update s = Returns (s', events) ->
  exists name choice self sent,
    custom_app_name s = Some name /\
    Kappa.kandji_customize_create_update (Kappa.with_name (settings s) name)
    = Ok choice /\
    request s (Kappa.with_name (settings s) (Kappa.escape_name name)) choice
    = (self, sent) /\
    s' = mk_session (Some (Kappa.escape_name name)) (test_app s) (prod_app s)
                    (test_category_id s) self /\
    events =
      (if continuously_enforced (Kappa.custom_app_enforcement (settings s))
       then [CustomizeAudit] else [])
      ++ sent
      ++ (if continuously_enforced (Kappa.custom_app_enforcement self)
          then [RestoreAudit] else []).
Proof.
  unfold kandji_customize_create_update.
  destruct (custom_app_name s) as [name|]; [|discriminate].
  destruct (Kappa.kandji_customize_create_update _) as [choice|e] eqn:Ec;
    [|discriminate].
  destruct (request s _ choice) as [self sent] eqn:Er.
  intros H. inversion H. exists name, choice, self, sent.
  repeat split; assumption.
Qed.

Lemma request_sending (s : session) (self self' : Kappa.processor)
    (choice : Kappa.outcome) (sent : list event) :
  request s self choice = (self', sent) ->
  sending (continuously_enforced (Kappa.custom_app_enforcement self)) sent
          (continuously_enforced (Kappa.custom_app_enforcement self')).
Proof.
  unfold request. destruct choice as [app| | |].
  - destruct (continuously_enforced (Kappa.install_enforcement app)) eqn:E2.
    + destruct (str_eqb (Kappa.custom_app_enforcement self) (Kappa.install_enforcement app)) eqn:E3;
        cbn [negb]; intros H; inversion H; subst.
      * apply str_eqb_eq in E3. rewrite E3, E2. constructor.
      * cbn [with_enforcement Kappa.custom_app_enforcement]. rewrite E2.
        destruct (continuously_enforced (Kappa.custom_app_enforcement self)) eqn:E1;
          [|constructor].
        unfold continuously_enforced in E1, E2.
        apply str_eqb_eq in E1. apply str_eqb_eq in E2.
        rewrite E1, E2, str_eqb_refl in E3. discriminate.
    + intros H. inversion H; subst.
      destruct (continuously_enforced (Kappa.custom_app_enforcement self')); constructor.
  - intros H. inversion H; subst. unfold create_custom_app.
    constructor. reflexivity.
  - intros H. inversion H; subst. constructor.
  - intros H. inversion H; subst. constructor.
Qed.

Section ReplayFacts.

Variable customized : list str -> list str.

Lemma replay_app (first second : list event) :
  forall (f f' f'' : files) (sent sent' : list (list str)),
    replay customized first f = Some (f', sent) ->
    replay customized second f' = Some (f'', sent') ->
    replay customized (first ++ second) f = Some (f'', sent ++ sent').
Proof.
  induction first as [|ev first IH]; intros f f' f'' sent sent' H1 H2.
  - simpl in H1. inversion H1; subst. exact H2.
  - cbn [app replay] in *. destruct ev as [| |name enf audit cat|app audit].
    + apply (IH _ _ _ _ _ H1 H2).
    + destruct (snd f) as [backup|]; [|discriminate].
      apply (IH _ _ _ _ _ H1 H2).
    + destruct (replay customized first f) as [[g sent0]|] eqn:E; [|discriminate].
      cbn [option_map fst snd] in H1. inversion H1; subst.
      rewrite (IH _ _ _ _ _ E H2). cbn [option_map fst snd].
      destruct audit; reflexivity.
    + destruct (replay customized first f) as [[g sent0]|] eqn:E; [|discriminate].
      cbn [option_map fst snd] in H1. inversion H1; subst.
      rewrite (IH _ _ _ _ _ E H2). cbn [option_map fst snd].
      destruct audit; reflexivity.
Qed.

(** A round leaves the files of the audit script as they were, and sends
    the script only as it was customized in that round. *)
Lemma round_replay (s s' : session) (events : list event) (script : list str) :
  kandji_customize_create_update s = Returns (s', events) ->
  exists sent,
    replay customized events (script, None) = Some ((script, None), sent) /\
    Forall (eq (customized script)) sent.
Proof.
  intros H. apply round_parts in H.
  destruct H as [name [choice [self [sent [_ [_ [Hr [_ ->]]]]]]]].
  apply request_sending in Hr.
  cbn [Kappa.with_name Kappa.custom_app_enforcement] in Hr.
  revert Hr.
  generalize (continuously_enforced (Kappa.custom_app_enforcement (settings s)))
    as before.
  generalize (continuously_enforced (Kappa.custom_app_enforcement self)) as after.
  intros after before Hr.
  destruct Hr as [before | before n e c Hb | before app | app | app];
    try (destruct before); eexists; (split; [reflexivity|]);
    repeat constructor.
Qed.

End ReplayFacts.

(** *** The names *)

Lemma round_name (s s' : session) (events : list event) :
  kandji_customize_create_update s = Returns (s', events) ->
  exists name,
    custom_app_name s = Some name /\
    custom_app_name s' = Some (Kappa.escape_name name) /\
    test_app s' = test_app s /\ prod_app s' = prod_app s.
Proof.
  intros H. apply round_parts in H.
  destruct H as [name [choice [self [sent [Hn [_ [_ [-> _]]]]]]]].
  exists name. repeat split. exact Hn.
Qed.

Lemma select_named (s : session) (key value : str) :
  named key ->
  custom_app_name (select s key value) = Some value /\
  test_app (select s key value) = str_eqb key Configs.test_name /\
  prod_app (select s key value) = str_eqb key Configs.prod_name.
Proof.
  intros [-> | ->]; repeat split.
Qed.

(** *** The enforcement *)

Lemma select_settings (s : session) (key value : str) :
  settings (select s key value) = settings s.
Proof.
  unfold select. destruct (str_eqb key Configs.test_name); [reflexivity|].
  destruct (str_eqb key Configs.prod_name); reflexivity.
Qed.

Lemma round_enforced (s s' : session) (events : list event) :
  continuously_enforced (Kappa.custom_app_enforcement (settings s)) = true ->
  kandji_customize_create_update s = Returns (s', events) ->
  continuously_enforced (Kappa.custom_app_enforcement (settings s')) = true /\
  enforced_round events.
Proof.
  intros Hce H. apply round_parts in H.
  destruct H as [name [choice [self [sent [_ [_ [Hr [-> ->]]]]]]]].
  pose proof Hr as Hs. apply request_sending in Hs.
  cbn [Kappa.with_name Kappa.custom_app_enforcement] in Hs.
  rewrite Hce in *. cbn [settings].
  assert (Hafter : continuously_enforced (Kappa.custom_app_enforcement self) = true)
    by (inversion Hs; reflexivity).
  split; [exact Hafter|]. rewrite Hafter. split; [reflexivity|].
  intros n e a c Hin. cbn [app] in Hin. destruct Hin as [Hin | Hin]; [discriminate|].
  apply in_app_or in Hin. destruct Hin as [Hin | [Hin | []]]; [|discriminate].
  unfold request in Hr. destruct choice as [app| | |].
  - destruct (continuously_enforced (Kappa.install_enforcement app));
      [destruct (negb _)|]; inversion Hr; subst;
      repeat (destruct Hin as [Hin | Hin]; [discriminate|]); destruct Hin.
  - inversion Hr; subst. destruct Hin as [Hin | []].
    unfold create_custom_app in Hin.
    cbn [Kappa.with_name Kappa.custom_app_enforcement] in Hin.
    rewrite Hce in Hin. inversion Hin; subst.
    unfold continuously_enforced in Hce. apply str_eqb_eq in Hce.
    repeat split. exact Hce.
  - inversion Hr; subst. destruct Hin.
  - inversion Hr; subst. destruct Hin.
Qed.

Lemma round_patch_with_script (s s' : session) (events : list event)
    (patched : Kappa.custom_app) :
  kandji_customize_create_update s = Returns (s', events) ->
  In (Patch patched true) events ->
  continuously_enforced (Kappa.custom_app_enforcement (settings s')) = true.
Proof.
  intros H Hin. apply round_parts in H.
  destruct H as [name [choice [self [sent [_ [_ [Hr [-> ->]]]]]]]].
  apply request_sending in Hr.
  cbn [Kappa.with_name Kappa.custom_app_enforcement] in Hr. cbn [settings].
  revert Hr Hin.
  generalize (continuously_enforced (Kappa.custom_app_enforcement (settings s)))
    as before.
  generalize (continuously_enforced (Kappa.custom_app_enforcement self)) as after.
  intros after before Hr Hin.
  destruct Hr as [before | before n e c Hb | before other | other | other];
    try reflexivity; destruct before; try reflexivity; exfalso;
    simpl in Hin;
    repeat match goal with
           | H : _ \/ _ |- _ => destruct H as [H | H]; try discriminate H
           | H : False |- _ => destruct H
           end.
Qed.

End RunFacts.

(** X10: the loop of [main] leaves the audit script as it found it.  In
    every round that returns, with its request answered, the customization
    and the restoration go in pairs, the backup is there when it is moved
    back, and a request that takes the audit script takes it as the
    customization of that round wrote it, not the script as shipped and
    not a script customized twice. *)
Theorem audit_script_restored (customized : list str -> list str)
    (app_names : dict str) :
  forall (s : Run.session) (rounds : list (Run.session * list Run.event))
         (script : list str),
    Run.main_loop s app_names = Run.Returns rounds ->
    exists sent,
      Run.replay customized (concat (map snd rounds)) (script, None)
      = Some ((script, None), sent) /\
      Forall (eq (customized script)) sent.
Proof.
  induction app_names as [|[key value] rest IH]; intros s rounds script H.
  - inversion H. exists []. split; [reflexivity | constructor].
  - cbn [Run.main_loop] in H.
    destruct (Run.kandji_customize_create_update (Run.select s key value))
      as [[s1 events]|e] eqn:E; [|discriminate].
    cbn [Run.and_then fst] in H.
    destruct (Run.main_loop s1 rest) as [later|e] eqn:El; [|discriminate].
    cbn [Run.and_then] in H. inversion H; subst.
    destruct (round_replay customized _ _ _ script E) as [sent1 [R1 F1]].
    destruct (IH _ _ script El) as [sent2 [R2 F2]].
    exists (sent1 ++ sent2). cbn [map concat snd]. split.
    + apply (replay_app customized _ _ _ _ _ _ _ R1 R2).
    + apply Forall_app. split; assumption.
Qed.

Lemma audit_script_restored_witness :
  exists sent,
    Run.replay (map AuditScript.rstrip)
               (concat (map snd [Sessions.first_round; Sessions.second_round]))
               ([lit "APP_NAME=''  "], None)
    = Some (([lit "APP_NAME=''  "], None), sent) /\
    Forall (eq (map AuditScript.rstrip [lit "APP_NAME=''  "])) sent.
Proof.
  apply (audit_script_restored (map AuditScript.rstrip) Sessions.names
                               Sessions.start).
  vm_compute. reflexivity.
Defined.

(** X11: every name that the settings give is escaped once before its
    round, whatever the rounds before did.  When the keys of the recipe map
    are [prod_name] and [test_name] only, the loop of [main] over what
    [_set_custom_name] left looks up, for each entry, the value with its
    single quotes escaped, as a test app under [test_name], as a
    production app under [prod_name], and as neither for the default
    name. *)
Theorem configured_names_escaped_once (map_names : dict str)
    (recipe_custom_name recipe_test_name default_custom_name : option str)
    (name_in_recipe : str) (test_category_id : option str)
    (settings : Kappa.processor)
    (rounds : list (Run.session * list Run.event)) :
  (forall key, In key (keys map_names) -> Run.named key) ->
  let configured :=
    Configs._set_custom_name map_names recipe_custom_name recipe_test_name
                             default_custom_name name_in_recipe in
  Run.main_loop (Run.mk_session (snd configured) false false test_category_id
                                settings)
                (fst configured)
  = Run.Returns rounds ->
  map (fun round => (Run.custom_app_name (fst round), Run.test_app (fst round),
                     Run.prod_app (fst round)))
      rounds
  = map (fun kv => (Some (Kappa.escape_name (snd kv)),
                    str_eqb (fst kv) Configs.test_name,
                    str_eqb (fst kv) Configs.prod_name))
        (fst configured).
Proof.
  intros Hmap. cbv zeta.
  destruct (set_custom_name_cases map_names recipe_custom_name recipe_test_name
                                  default_custom_name name_in_recipe)
    as [[name ->] | [_ Hkeys]].
  - cbn [fst snd Run.main_loop]. intros H.
    destruct (Run.kandji_customize_create_update _) as [[s1 events]|e] eqn:E;
      [|discriminate].
    cbn [Run.and_then] in H. inversion H; subst. cbn [map fst snd]. f_equal.
    destruct (round_name _ _ _ E) as [n [Hn [Hn' [Ht Hp]]]].
    rewrite Hn', Ht, Hp. inversion Hn. reflexivity.
  - assert (Hnamed : forall key,
               In key (keys (fst (Configs._set_custom_name
                                    map_names recipe_custom_name recipe_test_name
                                    default_custom_name name_in_recipe))) ->
               Run.named key).
    { intros key Hin. apply Hkeys in Hin.
      destruct Hin as [Hin | Hin]; [apply Hmap; exact Hin | exact Hin]. }
    revert Hnamed.
    generalize (Run.mk_session
                  (snd (Configs._set_custom_name
                          map_names recipe_custom_name recipe_test_name
                          default_custom_name name_in_recipe))
                  false false test_category_id settings) as s.
    generalize (fst (Configs._set_custom_name
                       map_names recipe_custom_name recipe_test_name
                       default_custom_name name_in_recipe)) as app_names.
    intros app_names. revert rounds.
    induction app_names as [|[key value] rest IH]; intros rounds s Hnamed H.
    + inversion H. reflexivity.
    + cbn [Run.main_loop] in H.
      destruct (Run.kandji_customize_create_update (Run.select s key value))
        as [[s1 events]|e] eqn:E; [|discriminate].
      cbn [Run.and_then fst] in H.
      destruct (Run.main_loop s1 rest) as [later|e] eqn:El; [|discriminate].
      cbn [Run.and_then] in H. inversion H; subst.
      cbn [map fst snd]. f_equal.
      * destruct (round_name _ _ _ E) as [name [Hn [Hn' [Ht Hp]]]].
        destruct (select_named s key value (Hnamed key (or_introl eq_refl)))
          as [S1 [S2 S3]].
        rewrite Hn', Ht, Hp, S2, S3. rewrite S1 in Hn. inversion Hn. reflexivity.
      * apply (IH later s1); [|exact El].
        intros k Hk. apply Hnamed. right. exact Hk.
Qed.

Lemma configured_names_escaped_once_witness :
  map (fun round => (Run.custom_app_name (fst round), Run.test_app (fst round),
                     Run.prod_app (fst round)))
      [Sessions.first_round; Sessions.second_round]
  = [(Some (lit "Firefox (Test)"), true, false);
     (Some (lit "Firefox"), false, true)].
Proof.
  apply (configured_names_escaped_once
           [(Configs.test_name, lit "Firefox (Test)")]
           (Some (lit "Firefox")) None None (lit "Firefox") None
           Sessions.settings [Sessions.first_round; Sessions.second_round]).
  - intros key [<- | []]. right. reflexivity.
  - vm_compute. reflexivity.
Defined.

(** X12: the enforcement of Kandji, once taken over, stays for the names
    that follow.  When the first round updates a custom app with the audit
    script (its enforcement in Kandji is [continuously_enforce]), every
    later round of the loop customizes the audit script first, and a
    custom app it creates is created with [continuously_enforce] and the
    audit script, without a Self Service category, whatever enforcement
    the config file gave. *)
Theorem enforcement_override_persists (s : Run.session) (key value : str)
    (rest : dict str) (first : Run.session * list Run.event)
    (later : list (Run.session * list Run.event)) :
  Run.main_loop s ((key, value) :: rest) = Run.Returns (first :: later) ->
  (exists patched, In (Run.Patch patched true) (snd first)) ->
  Forall (fun round => Run.enforced_round (snd round)) later.
Proof.
  cbn [Run.main_loop]. intros H [patched Hin].
  destruct (Run.kandji_customize_create_update (Run.select s key value))
    as [[s1 events]|e] eqn:E; [|discriminate].
  cbn [Run.and_then fst] in H.
  destruct (Run.main_loop s1 rest) as [rounds|e] eqn:El; [|discriminate].
  cbn [Run.and_then] in H. inversion H; subst. cbn [snd] in Hin.
  pose proof (round_patch_with_script _ _ _ _ E Hin) as Hce.
  clear E Hin H. revert s1 later Hce El.
  induction rest as [|[k v] rest IH]; intros s1 later Hce El.
  - inversion El. constructor.
  - cbn [Run.main_loop] in El.
    destruct (Run.kandji_customize_create_update (Run.select s1 k v))
      as [[s2 events2]|e] eqn:E2; [|discriminate].
    cbn [Run.and_then fst] in El.
    destruct (Run.main_loop s2 rest) as [rounds2|e] eqn:El2; [|discriminate].
    cbn [Run.and_then] in El. inversion El; subst.
    rewrite <- (select_settings s1 k v) in Hce.
    destruct (round_enforced _ _ _ Hce E2) as [Hce2 He].
    constructor; [exact He | apply (IH s2 rounds2 Hce2 El2)].
Qed.

Lemma enforcement_override_persists_witness :
  Forall (fun round => Run.enforced_round (snd round)) [Sessions.second_round].
Proof.
  apply (enforcement_override_persists
           Sessions.start Configs.test_name (lit "Firefox (Test)")
           [(Configs.prod_name, lit "Firefox")]
           Sessions.first_round [Sessions.second_round]).
  - vm_compute. reflexivity.
  - exists Sessions.firefox_test. right. left. reflexivity.
Defined.

(** X13: a round of the loop makes at most one request, the second try
    after HTTP 503 apart, and it creates a custom app only when the recipe
    asks for a new one or auto-create is on; the name of an app it creates
    is the name of the round with its single quotes escaped. *)
Theorem creation_needs_permission (s s' : Run.session)
    (events : list Run.event) :
  Run.kandji_customize_create_update s = Run.Returns (s', events) ->
  length (filter Run.is_request events) <= 1 /\
  forall name enforcement audit_script cat,
    In (Run.Post name enforcement audit_script cat) events ->
    (Kappa.recipe_create_new (Run.settings s) = true \/
     Kappa.default_auto_create (Run.settings s) = true) /\
    Run.custom_app_name s' = Some name /\
    exists given, Run.custom_app_name s = Some given /\
                  name = Kappa.escape_name given.
Proof.
  intros H. apply round_parts in H.
  destruct H as [given [choice [self [sent [Hn [Hc [Hr [-> ->]]]]]]]].
  assert (Hcause : choice = Kappa.CreateNew ->
                   Kappa.recipe_create_new (Run.settings s) = true \/
                   Kappa.default_auto_create (Run.settings s) = true).
  { intros ->. unfold Kappa.kandji_customize_create_update in Hc.
    cbn [Kappa.with_name Kappa.recipe_create_new Kappa.custom_app_name] in Hc.
    destruct (Kappa.recipe_create_new (Run.settings s)); [left; reflexivity|].
    right. unfold Kappa.update_custom_app in Hc.
    destruct (Kappa._find_lib_item_match _) as [[found| |reported]|e];
      try discriminate Hc.
    cbn [bind Kappa.with_name Kappa.default_auto_create] in Hc.
    destruct (Kappa.default_auto_create (Run.settings s));
      [reflexivity | discriminate Hc]. }
  assert (Hsent : (sent = [] /\ True) \/
                  (exists patched audit,
                      sent = [Run.Patch patched audit] \/
                      sent = [Run.CustomizeAudit; Run.Patch patched audit]) \/
                  (choice = Kappa.CreateNew /\
                   sent = [Run.create_custom_app
                             s (Kappa.with_name (Run.settings s)
                                                (Kappa.escape_name given))])).
  { unfold Run.request in Hr. destruct choice as [found| | |].
    - right. left. exists found.
      destruct (Run.continuously_enforced (Kappa.install_enforcement found));
        [destruct (negb _)|]; inversion Hr; subst; eexists; auto.
    - right. right. inversion Hr. auto.
    - left. inversion Hr. auto.
    - left. inversion Hr. auto. }
  split.
  - destruct (Run.continuously_enforced
                (Kappa.custom_app_enforcement (Run.settings s)));
      destruct (Run.continuously_enforced (Kappa.custom_app_enforcement self));
      destruct Hsent as [[-> _] | [[patched [audit [-> | ->]]] | [_ ->]]];
      simpl; lia.
  - intros name enforcement audit cat Hin.
    assert (Hpost : In (Run.Post name enforcement audit cat) sent).
    { apply in_app_or in Hin. destruct Hin as [Hin | Hin].
      - destruct (Run.continuously_enforced
                    (Kappa.custom_app_enforcement (Run.settings s)));
          simpl in Hin; [destruct Hin as [Hin | []]; discriminate Hin | destruct Hin].
      - apply in_app_or in Hin. destruct Hin as [Hin | Hin]; [exact Hin|].
        destruct (Run.continuously_enforced (Kappa.custom_app_enforcement self));
          simpl in Hin; [destruct Hin as [Hin | []]; discriminate Hin | destruct Hin]. }
    destruct Hsent as [[-> _] | [[patched [a [-> | ->]]] | [-> ->]]].
    + destruct Hpost.
    + destruct Hpost as [Hp | []]. discriminate Hp.
    + destruct Hpost as [Hp | [Hp | []]]; discriminate.
    + destruct Hpost as [Hp | []]. unfold Run.create_custom_app in Hp.
      inversion Hp; subst. cbn [Run.custom_app_name Kappa.with_name
                                Kappa.custom_app_name].
      split; [apply Hcause; reflexivity|]. split; [reflexivity|].
      exists given. split; [exact Hn | reflexivity].
Qed.

Lemma creation_needs_permission_witness :
  length (filter Run.is_request (snd Sessions.second_round)) <= 1 /\
  forall name enforcement audit_script cat,
    In (Run.Post name enforcement audit_script cat) (snd Sessions.second_round) ->
    (Kappa.recipe_create_new
       (Run.settings (Run.select (fst Sessions.first_round) Configs.prod_name
                                 (lit "Firefox"))) = true \/
     Kappa.default_auto_create
       (Run.settings (Run.select (fst Sessions.first_round) Configs.prod_name
                                 (lit "Firefox"))) = true) /\
    Run.custom_app_name (fst Sessions.second_round) = Some name /\
    exists given,
      Run.custom_app_name (Run.select (fst Sessions.first_round)
                                      Configs.prod_name (lit "Firefox"))
      = Some given /\
      name = Kappa.escape_name given.
Proof.
  apply (creation_needs_permission
           (Run.select (fst Sessions.first_round) Configs.prod_name (lit "Firefox"))
           (fst Sessions.second_round) (snd Sessions.second_round)).
  vm_compute. reflexivity.
Defined.

(* ===================================================================== *)
(** * More on the lookup *)
(* ===================================================================== *)

Section MoreLookupFacts.

Import Kappa.

Lemma Forall2_in_l {A B : Type} (R : A -> B -> Prop) (l : list A) (l' : list B) :
  Forall2 R l l' -> forall x, In x l -> exists y, In y l' /\ R x y.
Proof.
  induction 1 as [|a b l l' Hab _ IH]; intros x Hin; [destruct Hin|].
  destruct Hin as [<- | Hin].
  - exists b. split; [left; reflexivity | exact Hab].
  - destruct (IH x Hin) as [y [Hy Hr]]. exists y. split; [right; exact Hy | exact Hr].
Qed.

Lemma Forall2_in_r {A B : Type} (R : A -> B -> Prop) (l : list A) (l' : list B) :
  Forall2 R l l' -> forall y, In y l' -> exists x, In x l /\ R x y.
Proof.
  induction 1 as [|a b l l' Hab _ IH]; intros y Hin; [destruct Hin|].
  destruct Hin as [<- | Hin].
  - exists a. split; [left; reflexivity | exact Hab].
  - destruct (IH y Hin) as [x [Hx Hr]]. exists x. split; [right; exact Hx | exact Hr].
Qed.

Variable self : processor.

(** The packages with a time of upload are among the tied ones. *)
Lemma pkg_custom_app_updated_keys (highest : list str) (pkg : str) :
  In pkg (keys (pkg_custom_app_updated self highest)) -> In pkg highest.
Proof.
  unfold pkg_custom_app_updated.
  assert (H : forall (acc : dict (str * str)),
             In pkg (keys (fold_left
                             (fun updated p =>
                                match app_record self p with
                                | Some record =>
                                    dict_set updated p
                                             (file_updated record, updated_at record)
                                | None => updated
                                end) highest acc)) ->
             In pkg (keys acc) \/ In pkg highest).
  { induction highest as [|p highest IH]; intros acc Hin; [left; exact Hin|].
    cbn [fold_left] in Hin. apply IH in Hin. destruct Hin as [Hin | Hin].
    - destruct (app_record self p); [|left; exact Hin].
      apply keys_dict_set in Hin. destruct Hin as [Hin | ->].
      + left. exact Hin.
      + right. left. reflexivity.
    - right. right. exact Hin. }
  intros Hin. apply H in Hin. destruct Hin as [[] | Hin]. exact Hin.
Qed.

Lemma oldest_app_key (updated : dict (str * str)) (oldest : str) :
  oldest_app updated = Ok oldest -> In oldest (keys updated).
Proof.
  intros H. apply oldest_app_minimal in H.
  destruct H as [keyed [o [Hf [Ho [<- _]]]]].
  destruct (Forall2_in_r _ _ _ Hf o Ho) as [entry [Hin [Hk _]]].
  rewrite Hk. unfold keys. apply in_map. exact Hin.
Qed.

(** The custom app that is picked holds, in its [file_key], the name of a
    package of the sorted versions. *)
Lemma pick_custom_app_pkg (sorted : dict str) (provided : option str)
    (app : custom_app) :
  pick_custom_app self sorted provided = Ok app ->
  exists pkg,
    In pkg (keys sorted) /\ contains pkg (file_key app) = true /\
    let entries := filter (fun a => contains pkg (file_key a)) (custom_apps self) in
    In app entries /\
    (1 < length entries ->
     match provided with
     | Some target => contains target (name app) = true
     | None => True
     end).
Proof.
  unfold pick_custom_app. destruct sorted as [|[first vers] rest]; [discriminate|].
  set (sorted := (first, vers) :: rest).
  destruct (if 1 <? length (highest_vers sorted vers)
            then oldest_app (pkg_custom_app_updated self (highest_vers sorted vers))
            else Ok first) as [pkg|e] eqn:Ep; [|discriminate].
  cbn [bind]. intros H. exists pkg.
  assert (Hkey : In pkg (keys sorted)).
  { destruct (1 <? length (highest_vers sorted vers)).
    - apply oldest_app_key in Ep. apply pkg_custom_app_updated_keys in Ep.
      unfold highest_vers in Ep. apply filter_In in Ep. apply Ep.
    - inversion Ep; subst. left. reflexivity. }
  split; [exact Hkey|].
  set (entries := filter (fun a => contains pkg (file_key a)) (custom_apps self)) in *.
  assert (Hentry : In app entries /\
                   (1 < length entries ->
                    match provided with
                    | Some target => contains target (name app) = true
                    | None => True
                    end)).
  { destruct (1 <? length entries) eqn:El.
    - destruct provided as [target|].
      + destruct (filter _ entries) as [|found others] eqn:Ef; [discriminate|].
        inversion H; subst found.
        assert (Hin : In app (filter (fun a => contains target (name a)) entries))
          by (rewrite Ef; left; reflexivity).
        apply filter_In in Hin. destruct Hin as [Hin Hname].
        split; [exact Hin | intros _; exact Hname].
      + destruct entries as [|found others]; [discriminate|].
        inversion H; subst found. split; [left; reflexivity | intros _; exact I].
    - apply Nat.ltb_ge in El.
      destruct entries as [|found others]; [discriminate|].
      inversion H; subst found. split; [left; reflexivity|].
      intros Hlen. lia. }
  destruct Hentry as [Hin Hname]. split; [|split; assumption].
  unfold entries in Hin. apply filter_In in Hin. apply Hin.
Qed.

Lemma pkgs_versions_sorted_keys (pkgs : list str) (pkg : str) :
  In pkg (keys (pkgs_versions_sorted pkgs)) -> In pkg pkgs.
Proof.
  rewrite pkgs_versions_sorted_eq. unfold keys. intros H.
  apply in_map_iff in H. destruct H as [[k vers] [Hk Hin]]. simpl in Hk. subst k.
  apply (Permutation_in _ (sorted_reverse_perm _ _ _)) in Hin.
  destruct (pkgs_versions_spec pkgs) as [_ [B _]].
  apply (B pkg vers Hin).
Qed.

(** The packages that the lookup considers are candidates; with seeds of
    which one holds a candidate in its [file_key], they are candidates
    that a seed holds. *)
Lemma scoped_pkgs_spec (possible_apps : list custom_app) (pkg : str) :
  In pkg (fst (scoped_pkgs self possible_apps)) ->
  In pkg (possible_pkgs self) /\
  ((exists seed candidate,
       In seed possible_apps /\ In candidate (possible_pkgs self) /\
       contains candidate (file_key seed) = true) ->
   exists seed, In seed possible_apps /\ contains pkg (file_key seed) = true).
Proof.
  unfold scoped_pkgs. destruct possible_apps as [|first others].
  - cbn [fst]. intros H. split; [exact H|]. intros [seed [_ [[] _]]].
  - set (seeds := first :: others).
    set (matching := flat_map (fun possible =>
                                 filter (fun p => contains p (file_key possible))
                                        (possible_pkgs self)) seeds).
    assert (Hm : forall p, In p matching <->
                           exists seed, In seed seeds /\ In p (possible_pkgs self) /\
                                        contains p (file_key seed) = true).
    { intros p. unfold matching. rewrite in_flat_map. split.
      - intros [seed [Hs Hp]]. apply filter_In in Hp. exists seed. tauto.
      - intros [seed [Hs [Hp Hc]]]. exists seed. split; [exact Hs|].
        apply filter_In. tauto. }
    cbn [fst]. destruct matching as [|m ms] eqn:Em.
    + intros H. split; [exact H|]. intros [seed [candidate [Hs [Hc Hk]]]].
      exfalso. apply (proj2 (Hm candidate)). exists seed. tauto.
    + intros H. apply Hm in H. destruct H as [seed [Hs [Hp Hc]]].
      split; [exact Hp|]. intros _. exists seed. tauto.
Qed.

Lemma contains_refl (s : str) : contains s s = true.
Proof.
  apply startswith_contains. rewrite <- (app_nil_r s) at 2. apply startswith_app.
Qed.

Lemma distinct_same (target : str) (names : list str) :
  names <> [] -> (forall n, In n names -> n = target) ->
  distinct names = [target].
Proof.
  induction names as [|n names IH]; intros Hne Hall; [congruence|].
  assert (Hn : n = target) by (apply Hall; left; reflexivity). subst n.
  cbn [distinct]. destruct names as [|n' names'].
  - reflexivity.
  - rewrite IH; [|discriminate | intros n Hin; apply Hall; right; exact Hin].
    cbn [filter]. rewrite str_eqb_refl. reflexivity.
Qed.

End MoreLookupFacts.

(** X14: with several custom apps of the target name and dynamic lookup
    off, the lookup returns a custom app only on the ground of the Self
    Service category: the enforcement of the run is [no_enforcement], and
    the app returned is the one hit that is shown in Self Service under
    the category of the run.  No hit is picked for its place in the
    catalog. *)
Theorem several_hits_need_the_category (self : Kappa.processor)
    (app : Kappa.custom_app) :
  1 < length (Kappa.app_picker self) ->
  Kappa.default_dynamic_lookup self = false ->
  Kappa._find_lib_item_match self = Ok (Kappa.Found app) ->
  Kappa.custom_app_enforcement self = Kappa.no_enforcement /\
  Kappa.name app = Kappa.custom_app_name self /\
  Kappa.show_in_self_service app = true /\
  Kappa.self_service_category_id app = Kappa.ss_category_id self /\
  forall other,
    In other (Kappa.app_picker self) ->
    Kappa.show_in_self_service other = true ->
    Kappa.self_service_category_id other = Kappa.ss_category_id self ->
    other = app.
Proof.
  intros Hlen Hdyn H. rewrite (several_hits self Hlen) in H. cbv zeta in H.
  rewrite Hdyn in H. unfold Kappa.narrows in H.
  destruct (Kappa.ss_category_id self) as [[|c cat]|] eqn:Ecat;
    try (destruct (mapM Kappa.report (Kappa.app_picker self)); discriminate H).
  destruct (str_eqb (Kappa.custom_app_enforcement self) Kappa.no_enforcement) eqn:Eenf;
    [|destruct (mapM Kappa.report (Kappa.app_picker self)); discriminate H].
  destruct (Kappa.app_picker_by_ss (c :: cat) (Kappa.app_picker self))
    as [|found [|second others]] eqn:Ess;
    try (destruct (mapM Kappa.report (Kappa.app_picker self)); discriminate H).
  inversion H; subst found.
  assert (Hin : forall x, In x (Kappa.app_picker_by_ss (c :: cat) (Kappa.app_picker self))
                          <-> x = app).
  { intros x. rewrite Ess. simpl. intuition congruence. }
  assert (Happ : In app (Kappa.app_picker_by_ss (c :: cat) (Kappa.app_picker self)))
    by (apply Hin; reflexivity).
  unfold Kappa.app_picker_by_ss in Happ. apply filter_In in Happ.
  destruct Happ as [Hpicked Hcond]. apply andb_true_iff in Hcond.
  destruct Hcond as [Hshow Hsame].
  apply str_eqb_eq in Eenf. split; [exact Eenf|].
  split; [apply (app_picker_in self app Hpicked)|]. split; [exact Hshow|]. split.
  - destruct (Kappa.self_service_category_id app) as [id|]; [|discriminate].
    apply str_eqb_eq in Hsame. congruence.
  - intros other Ho Hs Hc. apply Hin. unfold Kappa.app_picker_by_ss.
    apply filter_In. split; [exact Ho|]. rewrite Hs, Hc. apply str_eqb_refl.
Qed.

Lemma several_hits_need_the_category_witness :
  Kappa.custom_app_enforcement Scenarios.two_chromes = Kappa.no_enforcement /\
  Kappa.name Scenarios.chrome_self_service
  = Kappa.custom_app_name Scenarios.two_chromes /\
  Kappa.show_in_self_service Scenarios.chrome_self_service = true /\
  Kappa.self_service_category_id Scenarios.chrome_self_service
  = Kappa.ss_category_id Scenarios.two_chromes /\
  forall other,
    In other (Kappa.app_picker Scenarios.two_chromes) ->
    Kappa.show_in_self_service other = true ->
    Kappa.self_service_category_id other = Kappa.ss_category_id Scenarios.two_chromes ->
    other = Scenarios.chrome_self_service.
Proof.
  apply (several_hits_need_the_category Scenarios.two_chromes
                                        Scenarios.chrome_self_service).
  - vm_compute. lia.
  - reflexivity.
  - vm_compute. reflexivity.
Defined.

(** X15: a custom app that the dynamic lookup returns is in the catalog,
    and its [file_key] holds the file name of a package of the catalog
    that passed the similarity filter: a name that ends the [file_key] of
    an entry ending in [.pkg] and that scores 0.85 or more against the
    new package. *)
Theorem dynamic_match_is_a_candidate (self : Kappa.processor)
    (possible_apps : list Kappa.custom_app) (app : Kappa.custom_app) :
  Kappa._find_lib_item_dynamic self possible_apps = Ok (Kappa.Found app) ->
  In app (Kappa.custom_apps self) /\
  exists pkg,
    contains pkg (Kappa.file_key app) = true /\
    In pkg (Kappa.all_pkg_names self) /\
    Qle_bool Kappa.ratio_limit (Kappa.score self pkg) = true.
Proof.
  intros H. split; [apply (find_lib_item_dynamic_in self possible_apps app H)|].
  unfold Kappa._find_lib_item_dynamic in H.
  pose proof (scoped_pkgs_spec self possible_apps) as Hscoped.
  destruct (Kappa.scoped_pkgs self possible_apps) as [pkgs provided].
  cbn [fst] in Hscoped.
  destruct (Kappa.pick_custom_app self (Kappa.pkgs_versions_sorted pkgs) provided)
    as [found|[|]] eqn:E; try discriminate H.
  inversion H; subst found.
  destruct (pick_custom_app_pkg self _ _ _ E) as [pkg [Hkey [Hc _]]].
  exists pkg. split; [exact Hc|].
  apply pkgs_versions_sorted_keys in Hkey.
  destruct (Hscoped pkg Hkey) as [Hp _].
  apply possible_pkgs_in in Hp. exact Hp.
Qed.

Lemma dynamic_match_is_a_candidate_witness :
  In Scenarios.app_130 (Kappa.custom_apps Scenarios.two_versions) /\
  exists pkg,
    contains pkg (Kappa.file_key Scenarios.app_130) = true /\
    In pkg (Kappa.all_pkg_names Scenarios.two_versions) /\
    Qle_bool Kappa.ratio_limit (Kappa.score Scenarios.two_versions pkg) = true.
Proof.
  apply (dynamic_match_is_a_candidate Scenarios.two_versions []).
  vm_compute. reflexivity.
Defined.







(** X19: a sanitized version is made of digits and of single dots between
    digits: no other character is left, no two dots follow each other, and
    no dot begins or ends it; a sanitized version without a digit is
    empty. *)
Theorem sanitized_version_shape (maybepkg : str) :
  forallb Sanitizer.digit_or_dot (Sanitizer.sanitize maybepkg) = true /\
  Sanitizer.no_double_dot (Sanitizer.sanitize maybepkg) = true /\
  Sanitizer.no_leading_dot (Sanitizer.sanitize maybepkg) = true /\
  Sanitizer.last_dot (Sanitizer.sanitize maybepkg) = false /\
  (existsb is_digit (Sanitizer.sanitize maybepkg) = false ->
   Sanitizer.sanitize maybepkg = []).
Proof.
  rewrite sanitize_is_pipeline.
  pose proof (sanitize_spec_shape maybepkg) as H.
  apply well_shaped_parts in H. destruct H as [Ha [Hd [Hl Ht]]].
  repeat split; try assumption.
  intros Hnone.
  destruct (Sanitizer.sanitize_spec maybepkg) as [|c rest]; [reflexivity|].
  exfalso. cbn [existsb] in Hnone.
  apply orb_false_iff in Hnone. destruct Hnone as [Hc _].
  cbn [forallb] in Ha. apply andb_true_iff in Ha. destruct Ha as [Hca _].
  unfold Sanitizer.digit_or_dot in Hca. rewrite Hc in Hca. cbn [orb] in Hca.
  cbn [Sanitizer.no_leading_dot] in Hl. rewrite Hca in Hl. discriminate Hl.
Qed.

(** X20: the escape of the single quotes loses nothing: two names are
    escaped to the same string only when they are the same name, so that
    the lookup by the escaped name tells apart what the names told
    apart. *)
Theorem escape_name_injective (a b : str) :
  Kappa.escape_name a = Kappa.escape_name b <-> a = b.
Proof.
  split; [|intros ->; reflexivity].
  revert b. induction a as [|c a IH]; intros [|d b] H.
  - reflexivity.
  - exfalso. unfold Kappa.escape_name in H. cbn [replace_chr] in H.
    destruct (chr_eqb d quote); discriminate H.
  - exfalso. unfold Kappa.escape_name in H. cbn [replace_chr] in H.
    destruct (chr_eqb c quote); discriminate H.
  - unfold Kappa.escape_name in H. cbn [replace_chr] in H.
    fold (Kappa.escape_name a) in H. fold (Kappa.escape_name b) in H.
    destruct (chr_eqb c quote) eqn:Ec, (chr_eqb d quote) eqn:Ed.
    + apply chr_eqb_eq in Ec. apply chr_eqb_eq in Ed. subst c d.
      cbn [Kappa.escaped_quote app] in H. inversion H as [Hrest].
      f_equal. apply IH. exact Hrest.
    + exfalso. cbn [Kappa.escaped_quote app] in H. inversion H as [[Hd Hrest]].
      subst d. rewrite chr_eqb_refl in Ed. discriminate.
    + exfalso. cbn [Kappa.escaped_quote app] in H. inversion H as [[Hc Hrest]].
      subst c. rewrite chr_eqb_refl in Ec. discriminate.
    + cbn [app] in H. inversion H as [[Hc Hrest]]. f_equal. apply IH. exact Hrest.
Qed.

(* ===================================================================== *)
(** * The matching blocks lie side by side *)
(* ===================================================================== *)

Section RatioBounds.

Import Difflib.

Variables a b : str.

(** Inside a row, the lengths kept for [b[j]] do not reach back before
    [blo], and the best block lies in the window of [b]. *)
Lemma scan_row_window (blo bhi i : nat) (j2len : nat -> nat) :
  (forall j, j2len j <= j + 1 - blo) ->
  forall js newj2len bi bj bs,
    (forall j, newj2len j <= j + 1 - blo) ->
    blo <= bj -> bj + bs <= bhi ->
    forall new' bi' bj' bs',
      scan_row blo bhi i j2len js newj2len (bi, bj, bs) = (new', (bi', bj', bs')) ->
      (forall j, new' j <= j + 1 - blo) /\ blo <= bj' /\ bj' + bs' <= bhi.
Proof.
  intros Hj. induction js as [|j js IH];
    intros newj2len bi bj bs Hnew Hb1 Hb2 new' bi' bj' bs' Hres.
  - simpl in Hres. inversion Hres; subst. repeat split; assumption.
  - simpl in Hres. destruct (j <? blo) eqn:Elo.
    + apply (IH newj2len bi bj bs Hnew Hb1 Hb2 _ _ _ _ Hres).
    + destruct (bhi <=? j) eqn:Ehi.
      * inversion Hres; subst. repeat split; assumption.
      * apply Nat.ltb_ge in Elo. apply Nat.leb_gt in Ehi.
        assert (Hk : j2len_prev j2len j + 1 <= j + 1 - blo).
        { destruct j as [|j']; cbn [j2len_prev]; [lia|]. specialize (Hj j'). lia. }
        assert (Hnew' : forall x,
                   (if x =? j then j2len_prev j2len j + 1 else newj2len x)
                   <= x + 1 - blo).
        { intros x. destruct (x =? j) eqn:Ex; [|apply Hnew].
          apply Nat.eqb_eq in Ex. subst x. exact Hk. }
        destruct (bs <? j2len_prev j2len j + 1).
        -- refine (IH _ _ _ _ Hnew' _ _ _ _ _ _ Hres); lia.
        -- exact (IH _ _ _ _ Hnew' Hb1 Hb2 _ _ _ _ Hres).
Qed.

Lemma scan_rows_window (blo bhi : nat) (rows : list nat) :
  forall j2len bi bj bs,
    (forall j, j2len j <= j + 1 - blo) ->
    blo <= bj -> bj + bs <= bhi ->
    forall bi' bj' bs',
      scan_rows a b blo bhi rows j2len (bi, bj, bs) = (bi', bj', bs') ->
      blo <= bj' /\ bj' + bs' <= bhi.
Proof.
  induction rows as [|i rows IH]; intros j2len bi bj bs Hj Hb1 Hb2 bi' bj' bs' Hres.
  - simpl in Hres. inversion Hres; subst. split; assumption.
  - simpl in Hres.
    destruct (scan_row blo bhi i j2len (b2j b (chr_at a i)) (fun _ => 0) (bi, bj, bs))
      as [new' [[bi1 bj1] bs1]] eqn:Erow.
    assert (Hzero : forall j : nat, (fun _ : nat => 0) j <= j + 1 - blo)
      by (intros; lia).
    destruct (scan_row_window blo bhi i j2len Hj _ _ bi bj bs Hzero Hb1 Hb2
                              _ _ _ _ Erow) as (A & B & C).
    exact (IH new' bi1 bj1 bs1 A B C bi' bj' bs' Hres).
Qed.

Lemma extend_left_window (alo blo : nat) :
  forall bi bj bs bi' bj' bs',
    blo <= bj ->
    extend_left a b alo blo bi bj bs = (bi', bj', bs') ->
    blo <= bj' /\ bj' + bs' = bj + bs.
Proof.
  induction bi as [|bi IH]; intros bj bs bi' bj' bs' Hb Hres; simpl in Hres.
  - inversion Hres; subst. lia.
  - destruct ((alo <? S bi) && (blo <? bj)
              && chr_eqb (chr_at a bi) (chr_at b (bj - 1))) eqn:E.
    + apply andb_true_iff in E. destruct E as [E _].
      apply andb_true_iff in E. destruct E as [_ E]. apply Nat.ltb_lt in E.
      assert (Hb' : blo <= bj - 1) by lia.
      destruct (IH _ _ _ _ _ Hb' Hres). lia.
    + inversion Hres; subst. lia.
Qed.

Lemma extend_right_window (ahi bhi bi bj : nat) :
  forall room bs,
    bj + bs <= bhi ->
    bj + extend_right a b room ahi bhi bi bj bs <= bhi.
Proof.
  induction room as [|room IH]; intros bs Hb; simpl.
  - exact Hb.
  - destruct ((bi + bs <? ahi) && (bj + bs <? bhi)
              && chr_eqb (chr_at a (bi + bs)) (chr_at b (bj + bs))) eqn:E.
    + apply andb_true_iff in E. destruct E as [E _].
      apply andb_true_iff in E. destruct E as [_ E]. apply Nat.ltb_lt in E.
      apply IH. lia.
    + exact Hb.
Qed.

(** The block found in a window of [b] lies in that window. *)
Lemma find_longest_match_window (alo ahi blo bhi i j k : nat) :
  blo <= bhi ->
  find_longest_match a b alo ahi blo bhi = (i, j, k) ->
  blo <= j /\ j + k <= bhi.
Proof.
  intros Hw. unfold find_longest_match.
  destruct (scan_rows a b blo bhi (seq alo (ahi - alo)) (fun _ => 0) (alo, blo, 0))
    as [[bi bj] bs] eqn:Es.
  assert (Hzero : forall j : nat, (fun _ : nat => 0) j <= j + 1 - blo)
    by (intros; lia).
  assert (Hstart : blo + 0 <= bhi) by lia.
  destruct (scan_rows_window blo bhi _ _ alo blo 0 Hzero (Nat.le_refl _) Hstart
                             _ _ _ Es) as [A B].
  destruct (extend_left a b alo blo bi bj bs) as [[bi1 bj1] bs1] eqn:El.
  destruct (extend_left_window alo blo _ _ _ _ _ _ A El) as [C D].
  intros H. inversion H; subst.
  assert (Hroom : j + bs1 <= bhi) by lia.
  pose proof (extend_right_window ahi bhi i j (ahi - (i + bs1)) bs1 Hroom).
  lia.
Qed.

Lemma matches_sum (blocks : list block) :
  fold_right (fun blk acc => snd blk + acc) 0 blocks = list_sum (map snd blocks).
Proof.
  induction blocks as [|blk blocks IH]; simpl; [reflexivity|].
  rewrite IH. reflexivity.
Qed.

Lemma sum_cons (blk : block) (blocks : list block) :
  list_sum (map snd (blk :: blocks)) = snd blk + list_sum (map snd blocks).
Proof. reflexivity. Qed.

(** The blocks of a window share no element of [a] and none of [b]. *)
Lemma matching_blocks_total (d : nat) :
  forall alo ahi blo bhi,
    alo <= ahi -> blo <= bhi ->
    list_sum (map snd (matching_blocks a b d alo ahi blo bhi)) <= ahi - alo /\
    list_sum (map snd (matching_blocks a b d alo ahi blo bhi)) <= bhi - blo.
Proof.
  induction d as [|d IH]; intros alo ahi blo bhi Ha Hb; [simpl; lia|].
  cbn [matching_blocks].
  destruct (find_longest_match a b alo ahi blo bhi) as [[i j] k] eqn:E.
  destruct (find_longest_match_bounds a b _ _ _ _ _ _ _ Ha E) as [A1 A2].
  destruct (find_longest_match_window _ _ _ _ _ _ _ Hb E) as [B1 B2].
  destruct (k =? 0); [simpl; lia|].
  rewrite (sum_cons (i, j, k)), map_app, list_sum_app. cbn [snd].
  assert (Hr : list_sum (map snd (if (i + k <? ahi) && (j + k <? bhi)
                                  then matching_blocks a b d (i + k) ahi (j + k) bhi
                                  else []))
               <= ahi - (i + k) /\
               list_sum (map snd (if (i + k <? ahi) && (j + k <? bhi)
                                  then matching_blocks a b d (i + k) ahi (j + k) bhi
                                  else []))
               <= bhi - (j + k)).
  { destruct ((i + k <? ahi) && (j + k <? bhi)); [apply IH; lia | simpl; lia]. }
  assert (Hl : list_sum (map snd (if (alo <? i) && (blo <? j)
                                  then matching_blocks a b d alo i blo j else []))
               <= i - alo /\
               list_sum (map snd (if (alo <? i) && (blo <? j)
                                  then matching_blocks a b d alo i blo j else []))
               <= j - blo).
  { destruct ((alo <? i) && (blo <? j)); [apply IH; lia | simpl; lia]. }
  unfold block. lia.
Qed.

Lemma matches_bound : 2 * matches a b <= length a + length b.
Proof.
  unfold matches, get_matching_blocks. rewrite matches_sum.
  destruct (matching_blocks_total (S (length a)) 0 (length a) 0 (length b)
                                  (Nat.le_0_l _) (Nat.le_0_l _)) as [H1 H2].
  lia.
Qed.

Lemma ratio_bounds : (0 <= ratio a b)%Q /\ (ratio a b <= 1)%Q.
Proof.
  unfold ratio. cbv zeta.
  destruct (length a + length b =? 0) eqn:E.
  - split; unfold Qle; simpl; lia.
  - apply Nat.eqb_neq in E. pose proof matches_bound as Hm.
    assert (Hp : Z.pos (Pos.of_nat (length a + length b))
                 = Z.of_nat (length a + length b)).
    { rewrite <- positive_nat_Z. rewrite Nat2Pos.id by exact E. reflexivity. }
    split; unfold Qle; cbn [Qnum Qden]; rewrite ?Hp; lia.
Qed.

End RatioBounds.

(** X21: every similarity score lies between 0 and 1, so that the limit of
    0.85 is a share of the characters of the two file names: the matching
    blocks that [SequenceMatcher] counts share no character of either
    name. *)
Theorem score_in_unit_interval (self : Kappa.processor) (pkg : str) :
  (0 <= Kappa.score self pkg)%Q /\ (Kappa.score self pkg <= 1)%Q /\
  2 * Difflib.matches (Sanitizer.strip_upload_id pkg) (Kappa.pkg_name self)
  <= length (Sanitizer.strip_upload_id pkg) + length (Kappa.pkg_name self).
Proof.
  unfold Kappa.score.
  destruct (ratio_bounds (Sanitizer.strip_upload_id pkg) (Kappa.pkg_name self))
    as [H0 H1].
  split; [exact H0|]. split; [exact H1|]. apply matches_bound.
Qed.

(* ===================================================================== *)
(** * Where the tie on the version and the report of duplicates are right *)
(* ===================================================================== *)

(** X22: the packages taken as tied on the highest version are those with
    that very version, as long as the highest version occurs inside no
    other sanitized version: then a package is among the tied ones exactly
    when its sanitized version is the first of the sorted ones, and no
    candidate has a version above it. *)
Theorem tied_are_the_equal_versions (pkgs : list str) (first top : str)
    (rest : dict str) :
  Kappa.pkgs_versions_sorted pkgs = (first, top) :: rest ->
  (forall pkg, In pkg pkgs ->
               contains top (Sanitizer.sanitize pkg) = true ->
               Sanitizer.sanitize pkg = top) ->
  (forall pkg, In pkg pkgs ->
               Packaging.ltb (Packaging.parse top)
                             (Packaging.parse (Sanitizer.sanitize pkg)) = false) /\
  (forall pkg, In pkg (Kappa.highest_vers (Kappa.pkgs_versions_sorted pkgs) top)
               <-> In pkg pkgs /\ Sanitizer.sanitize pkg = top).
Proof.
  intros Hsorted Hsub.
  destruct (pkgs_versions_spec pkgs) as [Hnodup [Hin Hall]].
  assert (Hperm : Permutation (Kappa.pkgs_versions_sorted pkgs)
                              (Kappa.pkgs_versions pkgs)).
  { rewrite pkgs_versions_sorted_eq. apply sorted_reverse_perm. }
  assert (Hnd : NoDup (keys (Kappa.pkgs_versions_sorted pkgs))).
  { rewrite pkgs_versions_sorted_eq. apply sorted_keys_nodup. exact Hnodup. }
  assert (Hentry : forall pkg, In pkg pkgs ->
                               In (pkg, Sanitizer.sanitize pkg)
                                  (Kappa.pkgs_versions_sorted pkgs)).
  { intros pkg Hp. apply (Permutation_in _ (Permutation_sym Hperm)).
    apply Hall. exact Hp. }
  split.
  - intros pkg Hp. specialize (Hentry pkg Hp).
    pose proof (sorted_reverse_sorted
                  (fun k : str * str => Packaging.parse (snd k)) Packaging.ltb
                  version_ltb_asym version_ltb_negtrans
                  (Kappa.pkgs_versions pkgs)) as Hs.
    rewrite <- pkgs_versions_sorted_eq in Hs. rewrite Hsorted in Hs, Hentry.
    destruct Hentry as [Heq | Hlater].
    + injection Heq as _ Htop. rewrite <- Htop.
      destruct (Packaging.ltb (Packaging.parse top) (Packaging.parse top)) eqn:E;
        [|reflexivity].
      pose proof (version_ltb_asym _ _ E) as E'. congruence.
    + apply StronglySorted_inv in Hs. destruct Hs as [_ Hs].
      rewrite Forall_forall in Hs. apply (Hs _ Hlater).
  - intros pkg. unfold Kappa.highest_vers. rewrite filter_In. split.
    + intros [Hk Hc]. unfold keys in Hk. apply in_map_iff in Hk.
      destruct Hk as [[k vers] [Hfst Hkv]]. simpl in Hfst. subst k.
      rewrite (dict_get_in _ _ _ Hnd Hkv) in Hc.
      apply (Permutation_in _ Hperm) in Hkv.
      destruct (Hin pkg vers Hkv) as [-> Hp].
      split; [exact Hp | apply Hsub; assumption].
    + intros [Hp Hv]. specialize (Hentry pkg Hp). split.
      * unfold keys. apply in_map_iff. exists (pkg, Sanitizer.sanitize pkg).
        split; [reflexivity | exact Hentry].
      * rewrite (dict_get_in _ _ _ Hnd Hentry), Hv. apply contains_refl.
Qed.

Lemma tied_are_the_equal_versions_witness :
  In (lit "App-2.1.0_bbbbbbbb.pkg")
     (Kappa.highest_vers
        (Kappa.pkgs_versions_sorted
           [lit "App-1.9.0_cccccccc.pkg"; lit "App-2.1.0_aaaaaaaa.pkg";
            lit "App-2.1.0_bbbbbbbb.pkg"])
        (lit "2.1.0"))
  <-> In (lit "App-2.1.0_bbbbbbbb.pkg")
         [lit "App-1.9.0_cccccccc.pkg"; lit "App-2.1.0_aaaaaaaa.pkg";
          lit "App-2.1.0_bbbbbbbb.pkg"] /\
      Sanitizer.sanitize (lit "App-2.1.0_bbbbbbbb.pkg") = lit "2.1.0".
Proof.
  apply (tied_are_the_equal_versions
           [lit "App-1.9.0_cccccccc.pkg"; lit "App-2.1.0_aaaaaaaa.pkg";
            lit "App-2.1.0_bbbbbbbb.pkg"]
           (lit "App-2.1.0_aaaaaaaa.pkg") (lit "2.1.0")
           [(lit "App-2.1.0_bbbbbbbb.pkg", lit "2.1.0");
            (lit "App-1.9.0_cccccccc.pkg", lit "1.9.0")]).
  - vm_compute. reflexivity.
  - intros pkg [<- | [<- | [<- | []]]] H; vm_compute in H |- *;
      first [reflexivity | discriminate H].
Defined.

(** X23: the duplicates are reported in full when each was created on a
    fraction of a second.  With several custom apps of the target name,
    dynamic lookup off and no single one of them under the Self Service
    category of the run, the lookup returns [None] (once Slack was
    notified), and the report holds every one of them, in the order of the
    catalog, with the file name of its package; no custom app is updated
    or created. *)
Theorem duplicates_reported_in_full (self : Kappa.processor) :
  1 < length (Kappa.app_picker self) ->
  Kappa.default_dynamic_lookup self = false ->
  (forall cat, Kappa.narrows self = Some cat ->
               length (Kappa.app_picker_by_ss cat (Kappa.app_picker self)) <> 1) ->
  (forall app, In app (Kappa.app_picker self) ->
               exists created,
                 Datetime.strptime (Kappa.created_at app) Datetime.fmt_fraction
                 = Ok created) ->
  exists reported,
    Kappa._find_lib_item_match self = Ok (Kappa.ReturnNone reported) /\
    Kappa.update_custom_app self = Ok (Kappa.Ambiguous reported) /\
    map Kappa.dup_id reported = map Kappa.id (Kappa.app_picker self) /\
    map Kappa.dup_pkg reported
    = map (fun app => basename (Kappa.file_key app)) (Kappa.app_picker self).
Proof.
  intros Hlen Hdyn Hcat Hcreated.
  assert (Hreport : exists reported,
             mapM Kappa.report (Kappa.app_picker self) = Ok reported /\
             map Kappa.dup_id reported = map Kappa.id (Kappa.app_picker self) /\
             map Kappa.dup_pkg reported
             = map (fun app => basename (Kappa.file_key app)) (Kappa.app_picker self)).
  { clear Hlen Hcat. induction (Kappa.app_picker self) as [|a l IH].
    - exists []. repeat split.
    - destruct (Hcreated a (or_introl eq_refl)) as [dt Hdt].
      destruct IH as [r [Hr [Hid Hpkg]]];
        [intros app Hin; apply Hcreated; right; exact Hin|].
      eexists. cbn [mapM]. unfold Kappa.report at 1. rewrite Hdt.
      cbn [bind]. rewrite Hr. cbn [bind]. split; [reflexivity|].
      cbn [map Kappa.dup_id Kappa.dup_pkg]. rewrite Hid, Hpkg. split; reflexivity. }
  destruct Hreport as [reported [Hr [Hid Hpkg]]]. exists reported.
  assert (Hmatch : Kappa._find_lib_item_match self = Ok (Kappa.ReturnNone reported)).
  { rewrite (several_hits self Hlen). cbv zeta. rewrite Hdyn, Hr. cbn [bind].
    destruct (Kappa.narrows self) as [cat|] eqn:En; [|reflexivity].
    specialize (Hcat cat eq_refl).
    destruct (Kappa.app_picker_by_ss cat (Kappa.app_picker self)) as [|x [|y l]];
      try reflexivity.
    exfalso. apply Hcat. reflexivity. }
  split; [exact Hmatch|]. split; [|split; assumption].
  unfold Kappa.update_custom_app. rewrite Hmatch. reflexivity.
Qed.

Lemma duplicates_reported_in_full_witness :
  exists reported,
    Kappa._find_lib_item_match Scenarios.three_chromes_fraction
    = Ok (Kappa.ReturnNone reported) /\
    Kappa.update_custom_app Scenarios.three_chromes_fraction
    = Ok (Kappa.Ambiguous reported) /\
    map Kappa.dup_id reported
    = map Kappa.id (Kappa.app_picker Scenarios.three_chromes_fraction) /\
    map Kappa.dup_pkg reported
    = map (fun app => basename (Kappa.file_key app))
          (Kappa.app_picker Scenarios.three_chromes_fraction).
Proof.
  apply (duplicates_reported_in_full Scenarios.three_chromes_fraction).
  - vm_compute. lia.
  - reflexivity.
  - intros cat H. vm_compute in H. discriminate H.
  - intros app H. vm_compute in H.
    destruct H as [<- | [<- | [<- | []]]]; eexists; vm_compute; reflexivity.
Defined.
